(** * glidebuilder: report parser, prompt builder and generation orchestrator

    A shallow embedding of [src/backend/parser.ts], [src/backend/generator.ts]
    and [src/app/api/generate/route.ts], with the template loader, the
    service entry points and the command line script that surround them.

    JavaScript strings are sequences of UTF-16 code units; a code unit is
    modelled as an [N] and a string as a [list N], so that [.length],
    [.slice] and [.substring] count exactly what the source counts.
    JavaScript numbers that hold lengths and indices are modelled as [Z]. *)

From Stdlib Require Import Ascii String DecimalString.
From Stdlib Require Import List NArith ZArith Bool Lia.
From Stdlib Require Import Permutation Sorted.
Import ListNotations.

Set Implicit Arguments.
Open Scope Z_scope.
Open Scope list_scope.

(** ** Strings *)

Definition char := N.
Definition jsstring := list char.

(** An ASCII literal of the source, as code units. *)
Definition js (s : string) : jsstring :=
  map N_of_ascii (list_ascii_of_string s).

Definition LF : char := 10%N.
Definition DQUOTE : char := 34%N.
(** U+2026, the ellipsis used by [summarize] and [summarizeTemplate]. *)
Definition ELLIPSIS : char := 8230%N.

Definition len (s : jsstring) : Z := Z.of_nat (length s).

Definition char_eqb (a b : char) : bool := N.eqb a b.
Arguments char_eqb : simpl never.

Fixpoint str_eqb (a b : jsstring) : bool :=
  match a, b with
  | [], [] => true
  | x :: a', y :: b' => char_eqb x y && str_eqb a' b'
  | _, _ => false
  end.

(** ECMAScript WhiteSpace and LineTerminator code units: what [trim] strips
    and what [\s] matches. *)
Definition isSpace (c : char) : bool :=
  ((9 <=? c) && (c <=? 13) || (c =? 32) || (c =? 160) || (c =? 5760)
   || (8192 <=? c) && (c <=? 8202) || (c =? 8232) || (c =? 8233)
   || (c =? 8239) || (c =? 8287) || (c =? 12288) || (c =? 65279))%N.

Fixpoint trimStart (s : jsstring) : jsstring :=
  match s with
  | c :: s' => if isSpace c then trimStart s' else s
  | [] => []
  end.

Definition trimEnd (s : jsstring) : jsstring := rev (trimStart (rev s)).

Definition trim (s : jsstring) : jsstring := trimEnd (trimStart s).

(** [s.slice(0, e)]: a negative end counts from the end of the string. *)
Definition slice0 (s : jsstring) (e : Z) : jsstring :=
  if e <? 0 then firstn (Z.to_nat (Z.max (len s + e) 0)) s
  else firstn (Z.to_nat e) s.

(** [parts.join(sep)] *)
Fixpoint join (sep : jsstring) (parts : list jsstring) : jsstring :=
  match parts with
  | [] => []
  | [p] => p
  | p :: rest => p ++ sep ++ join sep rest
  end.

(** JavaScript truthiness of a string: [!s] holds exactly for the empty one. *)
Definition truthy (s : jsstring) : bool :=
  match s with [] => false | _ => true end.

(** [a || b] on strings. *)
Definition orElse (a b : jsstring) : jsstring := if truthy a then a else b.

(** ** Data model ([src/backend/types.ts]) *)

Record ParsedReportMetadata := {
  title : jsstring;
  severity : option jsstring;
  vulnType : jsstring;
  source : option jsstring;
  date : option jsstring
}.

Record ParsedArtifact := {
  label : jsstring;
  content : jsstring
}.

Record ParsedReport := {
  raw : jsstring;
  metadata : ParsedReportMetadata;
  artifacts : list ParsedArtifact
}.

Record GlideTemplate := {
  t_id : jsstring;
  t_title : jsstring;
  t_description : option jsstring;
  t_tags : option (list jsstring);
  t_codeSnippet : jsstring;
  t_fileName : option jsstring;
  t_relativePath : option jsstring
}.

Record BreakdownReference := {
  r_id : jsstring;
  r_title : jsstring;
  r_content : jsstring
}.

Record BreakdownGenerationContext := {
  report : ParsedReport;
  referenceBreakdowns : list BreakdownReference;
  templates : list GlideTemplate
}.

(** ** Generator constants ([src/backend/generator.ts]) *)

Definition DEFAULT_MODEL_ID : jsstring := js "gpt-5-mini".
Definition FALLBACK_MODEL_ID : jsstring := js "gpt-5-nano".
Definition MAX_REPORT_LENGTH : Z := 6000.
Definition MAX_REFERENCE_LENGTH : Z := 2500.
Definition MAX_TOTAL_REFERENCE_LENGTH : Z := 9000.
Definition MAX_TEMPLATE_SUMMARY_LENGTH : Z := 420.
Definition FALLBACK_SUMMARY_LENGTH : Z := 600.

(** The marker appended by [truncate]: a line feed and ["... (truncated)"]. *)
Definition TRUNCATION_MARKER : jsstring := LF :: js "... (truncated)".

Definition truncate (content : jsstring) (maxLength : Z) : jsstring :=
  if len content <=? maxLength then content
  else slice0 content maxLength ++ TRUNCATION_MARKER.

(** ** Reference digest *)

(** One pass of the [for] loop of [buildReferenceDigest]: [consumed] and
    [parts] are the loop's two variables, the first branch is its [break]. *)
Fixpoint digestLoop (references : list BreakdownReference)
    (consumed : Z) (parts : list jsstring) : Z * list jsstring :=
  match references with
  | [] => (consumed, parts)
  | reference :: rest =>
      if consumed >=? MAX_TOTAL_REFERENCE_LENGTH then (consumed, parts)
      else
        let remaining := MAX_TOTAL_REFERENCE_LENGTH - consumed in
        let clipped :=
          truncate (r_content reference) (Z.min MAX_REFERENCE_LENGTH remaining) in
        digestLoop rest (consumed + len clipped)
          (parts ++ [js "### " ++ r_title reference ++ [LF] ++ trim clipped])
  end.

Definition REFERENCE_SEPARATOR : jsstring := [LF; LF] ++ js "---" ++ [LF; LF].

Definition buildReferenceDigest (references : list BreakdownReference) : jsstring :=
  match references with
  | [] => js "No additional breakdown references available."
  | _ => join REFERENCE_SEPARATOR (snd (digestLoop references 0 []))
  end.









(** ** Regular expressions

    The patterns of the source are kept as syntax trees and run by one
    backtracking matcher.  [rmatch r s] lists every way [r] can match at
    position [s], in the order in which ECMAScript's backtracking tries them,
    so the match the engine reports is the head of the list. *)

Inductive regex :=
| RChar (p : char -> bool)          (* one code unit of a class *)
| REmpty
| RSeq (a b : regex)
| RAlt (a b : regex)                (* a|b, [a] tried first *)
| RStar (greedy : bool) (a : regex) (* a* and a*? *)
| RGroup (n : nat) (a : regex)      (* capturing group number n *)
| RBol                              (* ^ under the m flag *)
| REol                              (* $ under the m flag *)
| RWordB                            (* \b *)
| RNotAhead (a : regex).            (* (?!a) *)

(** A position in the input: the code unit on its left, the input on its
    right, and the captures made so far (latest first). *)
Record mstate := {
  before : option char;
  rest : jsstring;
  caps : list (nat * jsstring)
}.

Definition isLineTerminator (c : char) : bool :=
  ((c =? 10) || (c =? 13) || (c =? 8232) || (c =? 8233))%N.

(** [\w]: the class [A-Za-z0-9_]. *)
Definition isWord (c : char) : bool :=
  ((65 <=? c) && (c <=? 90) || (97 <=? c) && (c <=? 122)
   || (48 <=? c) && (c <=? 57) || (c =? 95))%N.

Definition isWordOpt (c : option char) : bool :=
  match c with Some x => isWord x | None => false end.

Definition setCap (n : nat) (from to : mstate) : mstate :=
  {| before := before to;
     rest := rest to;
     caps := (n, firstn (length (rest from) - length (rest to)) (rest from)) :: caps to |}.

Definition progress (from to : mstate) : bool :=
  (length (rest to) <? length (rest from))%nat.

(** The iterations of [a*] from position [s], [body] being the matcher of
    [a].  An iteration that consumes nothing is rejected, as in ECMAScript's
    RepeatMatcher, so every iteration shortens the input and [fuel], taken
    above its length, never runs out. *)
Fixpoint starLoop (body : mstate -> list mstate) (greedy : bool) (fuel : nat)
    (s : mstate) : list mstate :=
  match fuel with
  | O => [s]
  | S fuel' =>
      let more := flat_map (starLoop body greedy fuel') (filter (progress s) (body s)) in
      if greedy then more ++ [s] else s :: more
  end.

Fixpoint rmatch (r : regex) (s : mstate) : list mstate :=
  match r with
  | RChar p =>
      match rest s with
      | c :: t => if p c then [{| before := Some c; rest := t; caps := caps s |}] else []
      | [] => []
      end
  | REmpty => [s]
  | RSeq a b => flat_map (rmatch b) (rmatch a s)
  | RAlt a b => rmatch a s ++ rmatch b s
  | RStar greedy a => starLoop (rmatch a) greedy (S (length (rest s))) s
  | RGroup n a => map (setCap n s) (rmatch a s)
  | RBol =>
      match before s with
      | None => [s]
      | Some c => if isLineTerminator c then [s] else []
      end
  | REol =>
      match rest s with
      | [] => [s]
      | c :: _ => if isLineTerminator c then [s] else []
      end
  | RWordB =>
      if xorb (isWordOpt (before s)) (isWordOpt (hd_error (rest s))) then [s] else []
  | RNotAhead a =>
      match rmatch a s with [] => [s] | _ :: _ => [] end
  end.

(** *** Pattern syntax used by the source *)

(** Case folding of the [i] flag without the [u] flag: a code unit outside
    ASCII never folds to an ASCII one, so against an ASCII pattern character
    only its two ASCII cases match. *)
Definition asciiUpper (c : char) : char :=
  if ((97 <=? c) && (c <=? 122))%N then (c - 32)%N else c.

Definition asciiLower (c : char) : char :=
  if ((65 <=? c) && (c <=? 90))%N then (c + 32)%N else c.

Definition ch (c : char) : regex := RChar (char_eqb c).
Definition chi (c : char) : regex := RChar (fun x => char_eqb (asciiUpper c) (asciiUpper x)).

Fixpoint seqs (rs : list regex) : regex :=
  match rs with
  | [] => REmpty
  | [r] => r
  | r :: rs' => RSeq r (seqs rs')
  end.

Fixpoint alts (rs : list regex) : regex :=
  match rs with
  | [] => RNotAhead REmpty
  | [r] => r
  | r :: rs' => RAlt r (alts rs')
  end.

(** A literal, case-sensitive ([lit]) or under the [i] flag ([liti]). *)
Definition lit (s : string) : regex := seqs (map ch (js s)).
Definition liti (s : string) : regex := seqs (map chi (js s)).

Definition star (a : regex) : regex := RStar true a.
Definition lazystar (a : regex) : regex := RStar false a.
Definition plus (a : regex) : regex := RSeq a (RStar true a).
Definition opt (a : regex) : regex := RAlt a REmpty.

Definition ws : regex := RChar isSpace.                       (* \s *)
Definition word : regex := RChar isWord.                      (* \w *)
Definition dot : regex := RChar (fun c => negb (isLineTerminator c)).  (* . *)
Definition anychar : regex := RChar (fun _ => true).          (* [\s\S] *)
(** [[\s-]] *)
Definition wsOrDash : regex := RChar (fun c => isSpace c || char_eqb 45%N c).
(** [[:\s]] *)
Definition colonOrWs : regex := RChar (fun c => char_eqb 58%N c || isSpace c).

(** *** Running a pattern against a string *)

Definition start (b : option char) (input : jsstring) : mstate :=
  {| before := b; rest := input; caps := [] |}.

(** A successful search: the text skipped before the match, the matched
    text, and the position after it with the captures. *)
Record found := {
  f_pre : jsstring;
  f_text : jsstring;
  f_end : mstate
}.

(** The leftmost match at or after the current position: what [RegExp]
    builtins do from [lastIndex].  [b] is the code unit left of [input]. *)
Fixpoint search (r : regex) (b : option char) (input : jsstring) : option found :=
  match rmatch r (start b input) with
  | e :: _ =>
      Some {| f_pre := [];
              f_text := firstn (length input - length (rest e)) input;
              f_end := e |}
  | [] =>
      match input with
      | [] => None
      | c :: t =>
          match search r (Some c) t with
          | Some f => Some {| f_pre := c :: f_pre f; f_text := f_text f; f_end := f_end f |}
          | None => None
          end
      end
  end.

(** [pattern.test(input)] and [input.match(pattern)] for a pattern without
    the [g] flag. *)
Definition test (r : regex) (input : jsstring) : bool :=
  match search r None input with Some _ => true | None => false end.

Definition matchOf (r : regex) (input : jsstring) : option found :=
  search r None input.

(** [match[n]]: the last capture of group [n], [undefined] when the group
    took no part in the match. *)
Fixpoint lookupCap (n : nat) (cs : list (nat * jsstring)) : option jsstring :=
  match cs with
  | [] => None
  | (k, v) :: cs' => if Nat.eqb k n then Some v else lookupCap n cs'
  end.

Definition group (n : nat) (f : found) : option jsstring :=
  lookupCap n (caps (f_end f)).

(** [input.replace(pattern, replacement)] for a pattern with the [g] flag and
    a replacement without [$] patterns.  [skip] counts the code units of the
    current match still to be dropped; after an empty match the search
    resumes one code unit further, as [AdvanceStringIndex] does. *)
Fixpoint replaceFrom (r : regex) (replacement : jsstring) (skip : nat)
    (b : option char) (input : jsstring) {struct input} : jsstring :=
  match skip with
  | S k =>
      match input with
      | [] => []
      | c :: t => replaceFrom r replacement k (Some c) t
      end
  | O =>
      match rmatch r (start b input) with
      | e :: _ =>
          replacement ++
          match (length input - length (rest e))%nat, input with
          | _, [] => []
          | O, c :: t => c :: replaceFrom r replacement 0 (Some c) t
          | S k, c :: t => replaceFrom r replacement k (Some c) t
          end
      | [] =>
          match input with
          | [] => []
          | c :: t => c :: replaceFrom r replacement 0 (Some c) t
          end
      end
  end.

Definition replaceAll (r : regex) (replacement : jsstring) (input : jsstring) : jsstring :=
  replaceFrom r replacement 0 None input.

(** [s.substring(0, n)] for a non-negative [n]. *)
Definition substring0 (s : jsstring) (n : Z) : jsstring :=
  firstn (Z.to_nat n) s.

(** [String(n)] for an integer. *)
Definition decimal (n : Z) : jsstring :=
  js (DecimalString.NilZero.string_of_int (Z.to_int n)).

(** ** Report parser ([src/backend/parser.ts]) *)

Module Patterns.

(** [/^#\s+(.+)$/m] *)
Definition titleHeading : regex :=
  seqs [RBol; lit "#"; plus ws; RGroup 1 (plus dot); REol].

(** [/##\s*Summary\s*\n+(.+)/i] *)
Definition summarySection : regex :=
  seqs [lit "##"; star ws; liti "Summary"; star ws; plus (ch LF); RGroup 1 (plus dot)].

(** [/##\s*(?:Severity|Impact)\s*\n+(\w+)/i] *)
Definition explicitSeverity : regex :=
  seqs [lit "##"; star ws; alts [liti "Severity"; liti "Impact"]; star ws;
        plus (ch LF); RGroup 1 (plus word)].

Definition severityLevel : regex :=
  alts [liti "critical"; liti "high"; liti "medium"; liti "low"].

Definition severityNoun : regex :=
  alts [liti "severity"; liti "impact"; liti "risk"].

(** [/\b(critical|high|medium|low)\s+(?:severity|impact|risk)\b/i] *)
Definition levelThenNoun : regex :=
  seqs [RWordB; RGroup 1 severityLevel; plus ws; severityNoun; RWordB].

(** [/(?:severity|impact|risk)[:\s]+\b(critical|high|medium|low)\b/i] *)
Definition nounThenLevel : regex :=
  seqs [severityNoun; plus colonOrWs; RWordB; RGroup 1 severityLevel; RWordB].

(** [a[\s-]?b] under the [i] flag *)
Definition joined (a b : string) : regex :=
  seqs [liti a; opt wsOrDash; liti b].

(** [a.*b] under the [i] flag *)
Definition thenLater (a b : string) : regex :=
  seqs [liti a; star dot; liti b].

Definition reentrancy : regex :=
  alts [liti "reentrancy"; liti "re-entrancy"].

Definition accessControl : regex :=
  alts [joined "access" "control"; liti "unauthorized"; liti "permission";
        liti "admin"; joined "upper" "bound"; joined "lower" "bound";
        thenLater "bound" "lack"; thenLater "lack" "bound"].

Definition slippage : regex :=
  alts [liti "slippage"; thenLater "sandwich" "attack"; thenLater "mev" "attack"].

Definition oracle : regex :=
  alts [liti "oracle"; joined "price" "feed"; liti "chainlink";
        thenLater "stale" "price"; thenLater "price" "stale"].

Definition uncheckedReturn : regex :=
  alts [joined "unchecked" "return";
        seqs [liti "return"; opt wsOrDash; liti "value"; star dot; liti "unchecked"]].

Definition validation : regex :=
  alts [liti "validation"; thenLater "input" "check"; thenLater "parameter" "check";
        thenLater "bound" "check"; thenLater "lacks" "validation";
        thenLater "missing" "validation"; thenLater "lacks" "check";
        thenLater "missing" "check"].

Definition calculation : regex :=
  alts [liti "calculation"; liti "math"; liti "arithmetic"; liti "overflow";
        liti "underflow"].

Definition dos : regex :=
  alts [seqs [liti "denial"; opt wsOrDash; liti "of"; opt wsOrDash; liti "service"];
        liti "dos"; liti "grief"; thenLater "brick" "flow"; thenLater "brick" "user"].

Definition deadline : regex :=
  alts [thenLater "deadline" "missing"; thenLater "missing" "deadline";
        thenLater "timestamp" "check"].

Definition frontRunning : regex :=
  alts [joined "front" "run";
        seqs [liti "mev"; RNotAhead (seqs [star dot; liti "attack"])]].

Definition tokenTransfer : regex :=
  alts [joined "token" "transfer"; liti "erc20"; liti "erc721"].

Definition liquidity : regex :=
  alts [liti "liquidity"; liti "pool"; liti "amm"].

Definition bridge : regex :=
  alts [liti "bridge"; joined "cross" "chain"; liti "layerzero"].

(** [/```(\w+)?\n([\s\S]*?)```/g] *)
Definition codeBlock : regex :=
  seqs [lit "```"; opt (RGroup 1 (plus word)); ch LF;
        RGroup 2 (lazystar anychar); lit "```"].

End Patterns.

(** [Object.entries(vulnTypePatterns)]: the entries in the order in which the
    object literal lists them. *)
Definition vulnTypePatterns : list (jsstring * regex) :=
  [ (js "reentrancy", Patterns.reentrancy);
    (js "access-control", Patterns.accessControl);
    (js "slippage", Patterns.slippage);
    (js "oracle", Patterns.oracle);
    (js "unchecked-return", Patterns.uncheckedReturn);
    (js "validation", Patterns.validation);
    (js "calculation", Patterns.calculation);
    (js "dos", Patterns.dos);
    (js "deadline", Patterns.deadline);
    (js "front-running", Patterns.frontRunning);
    (js "token-transfer", Patterns.tokenTransfer);
    (js "liquidity", Patterns.liquidity);
    (js "bridge", Patterns.bridge) ].

Definition UNKNOWN : jsstring := js "unknown".

(** [match[n]] where group [n] takes part in every match of the pattern. *)
Definition groupText (n : nat) (f : found) : jsstring :=
  match group n f with Some t => t | None => [] end.

(** [a || b] on match results. *)
Definition orMatch (a b : option found) : option found :=
  match a with Some _ => a | None => b end.

(** The [for ... of Object.entries(...)] loop with its [break]: [vulnType]
    is the variable the loop assigns. *)
Fixpoint scanPatterns (patterns : list (jsstring * regex)) (text : jsstring)
    (vulnType : jsstring) : jsstring :=
  match patterns with
  | [] => vulnType
  | (type, pattern) :: others =>
      if test pattern text then type else scanPatterns others text vulnType
  end.

(** The [while ((match = codeBlockRegex.exec(markdown)) !== null)] loop:
    [b] and [input] stand for [lastIndex], [index] and [artifacts] are the
    loop's variables. *)
Fixpoint codeBlockLoop (fuel : nat) (b : option char) (input : jsstring)
    (index : Z) (artifacts : list ParsedArtifact) : list ParsedArtifact :=
  match fuel with
  | O => artifacts
  | S fuel' =>
      match search Patterns.codeBlock b input with
      | None => artifacts
      | Some m =>
          let index' := index + 1 in
          let language :=
            match group 1 m with
            | Some l => if truthy l then js " (" ++ l ++ js ")" else []
            | None => []
            end in
          codeBlockLoop fuel' (before (f_end m)) (rest (f_end m)) index'
            (artifacts ++
             [{| label := js "Code Snippet " ++ decimal index' ++ language;
                 content := trim (groupText 2 m) |}])
      end
  end.

Definition extractArtifacts (markdown : jsstring) : list ParsedArtifact :=
  codeBlockLoop (S (length markdown)) None markdown 0 [].

Section Parser.

(** [String.prototype.toLowerCase], whose Unicode case tables are not part
    of the repository. *)
Variable toLowerCase : jsstring -> jsstring.

Definition extractTitle (markdown : jsstring) : jsstring :=
  match orMatch (matchOf Patterns.titleHeading markdown)
                (matchOf Patterns.summarySection markdown) with
  | Some titleMatch => trim (groupText 1 titleMatch)
  | None => js "Unknown Vulnerability"
  end.

Definition extractSeverity (markdown : jsstring) : option jsstring :=
  match matchOf Patterns.explicitSeverity markdown with
  | Some explicitSeverity => Some (toLowerCase (groupText 1 explicitSeverity))
  | None =>
      match orMatch (matchOf Patterns.levelThenNoun markdown)
                    (matchOf Patterns.nounThenLevel markdown) with
      | Some severityMatch => Some (toLowerCase (groupText 1 severityMatch))
      | None => None
      end
  end.

Definition extractVulnType (title markdown : jsstring) : jsstring :=
  let titleLower := toLowerCase title in
  let vulnType := scanPatterns vulnTypePatterns titleLower UNKNOWN in
  if str_eqb vulnType UNKNOWN
  then scanPatterns vulnTypePatterns (substring0 markdown 500) vulnType
  else vulnType.

(** [new Date().toISOString().split('T')[0]] *)
Fixpoint beforeT (iso : jsstring) : jsstring :=
  match iso with
  | [] => []
  | c :: t => if char_eqb c 84%N then [] else c :: beforeT t
  end.

(** The body of [parseVulnerabilityReport], given the time stamp that
    [new Date().toISOString()] returned. *)
Definition parseReport (nowIso : jsstring) (markdown : jsstring)
    (source : option jsstring) : ParsedReport :=
  let title := extractTitle markdown in
  {| raw := markdown;
     metadata := {| title := title;
                    severity := extractSeverity markdown;
                    vulnType := extractVulnType title markdown;
                    source := source;
                    date := Some (beforeT nowIso) |};
     artifacts := extractArtifacts markdown |}.

End Parser.

(** A [toLowerCase] that folds ASCII letters only; it agrees with
    ECMAScript's on every ASCII string. *)
Definition asciiToLowerCase (s : jsstring) : jsstring := map asciiLower s.

(** ** Prompt builder and document assembly ([src/backend/generator.ts]) *)

(** [text.replace(/\s+/g, ' ').trim()] *)
Definition normalizeWhitespace (text : jsstring) : jsstring :=
  trim (replaceAll (plus ws) (js " ") text).

(** [undefined] is [None]; an empty description is falsy as well. *)
Definition summarizeTemplate (text : option jsstring) (maxLength : Z) : option jsstring :=
  match text with
  | None => None
  | Some t =>
      if truthy t then
        let normalized := normalizeWhitespace t in
        if len normalized <=? maxLength then Some normalized
        else Some (slice0 normalized maxLength ++ [ELLIPSIS])
      else None
  end.

(** [array.filter(Boolean)] on an array of strings and [undefined]. *)
Fixpoint filterBoolean (l : list (option jsstring)) : list jsstring :=
  match l with
  | [] => []
  | Some s :: l' => if truthy s then s :: filterBoolean l' else filterBoolean l'
  | None :: l' => filterBoolean l'
  end.

Definition templateEntry (template : GlideTemplate) : jsstring :=
  let summary := summarizeTemplate (t_description template) MAX_TEMPLATE_SUMMARY_LENGTH in
  join [LF]
    (filterBoolean
       [Some (js "### " ++ t_title template);
        match summary with
        | Some s => if truthy s then Some (js "- Synopsis: " ++ s) else None
        | None => None
        end]).

Definition buildTemplateDigest (templates : list GlideTemplate) : jsstring :=
  match templates with
  | [] => js "No glider boilerplates were provided."
  | _ => join [LF; LF] (map templateEntry templates)
  end.

Definition buildGliderSkeleton : jsstring :=
  trimEnd (join [LF]
    [
      js "from glider import *";
      [];
      js "def query():";
      js "    " ++ [DQUOTE; DQUOTE; DQUOTE];
      js "    @title: <replace with concise detection title>";
      js "    @description:";
      js "      Detects <summarize the confirmed behaviour> by analysing:";
      js "        - <bullet describing exploit path>";
      js "        - <bullet describing impact or prerequisite>";
      [];
      js "      This enables <note on business/technical impact>.";
      [];
      js "      A hit requires:";
      js "        - <criterion #1>";
      js "        - <criterion #2>";
      js "        - <add more criteria as needed>";
      [];
      js "    @tags: tag-one, tag-two, tag-three";
      js "    " ++ [DQUOTE; DQUOTE; DQUOTE];
      [];
      js "    LIMIT_FUNCS = 1_000";
      [];
      js "    def matches_primary_signal(fn):";
      js "        " ++ [DQUOTE; DQUOTE; DQUOTE] ++ js "Outline the principal signal expected for a true positive." ++ [DQUOTE; DQUOTE; DQUOTE];
      js "        # TODO: Implement predicate using fn.instructions(), fn.callee_functions(), storage(), etc.";
      js "        return False";
      [];
      js "    def reinforces_context(fn):";
      js "        " ++ [DQUOTE; DQUOTE; DQUOTE] ++ js "Capture secondary heuristics surfaced in the breakdown." ++ [DQUOTE; DQUOTE; DQUOTE];
      js "        # TODO: Implement context checks drawn from the report.";
      js "        return False";
      [];
      js "    def excludes_false_positives(fn):";
      js "        " ++ [DQUOTE; DQUOTE; DQUOTE] ++ js "List guard rails that remove benign matches or admin-only flows." ++ [DQUOTE; DQUOTE; DQUOTE];
      js "        # TODO: Implement guard rail logic once defined.";
      js "        return True";
      [];
      js "    output = (";
      js "        Functions()";
      js "        .exec(LIMIT_FUNCS)";
      js "        # .filter(<helper_name>)  # implement your filter based on breakdown criteria";
      js "        # .filter(<helper_name>)  # implement your filter based on breakdown criteria";
      js "        # .filter(<helper_name>)  # implement your filter based on breakdown criteria";
      js "    )";
      [];
      js "    return output";
      [];
      js "# Add additional helper functions that cover every detection criterion identified in the breakdown."
    ]).

Definition metadataBlock (m : ParsedReportMetadata) : list jsstring :=
  [js "Title: " ++ title m;
   js "Severity: " ++ match severity m with Some s => s | None => js "unknown" end;
   js "Vulnerability Type: " ++ vulnType m]
  ++ match source m with
     | Some s => if truthy s then [js "Source: " ++ s] else []
     | None => []
     end
  ++ match date m with
     | Some d => if truthy d then [js "Date: " ++ d] else []
     | None => []
     end.

Definition artifactBullets (l : list ParsedArtifact) : jsstring :=
  join [LF] (map (fun artifact => js "- " ++ label artifact) l).

Definition buildPrompt (context : BreakdownGenerationContext) : jsstring :=
  let metadataLines := metadataBlock (metadata (report context)) in
  let artifactLines :=
    orElse (artifactBullets (artifacts (report context)))
           (js "None detected in the submitted report.") in
  let referenceDigest := buildReferenceDigest (referenceBreakdowns context) in
  let templateDigest := buildTemplateDigest (templates context) in
  let truncatedReport := truncate (raw (report context)) MAX_REPORT_LENGTH in
  trim (join [LF]
    [
      [];
      js "You are a senior blockchain security analyst. Using the provided vulnerability report, reference breakdowns, and glider boilerplate templates, produce a concise Markdown breakdown for investigators.";
      [];
      js "Respect the following rules:";
      js "- Base your analysis on the supplied report; use reference breakdowns for style, structure, and heuristics.";
      js "- Maintain analytical tone, clearly attributing assumptions or missing data.";
      js "- Do not produce Glider or Python code. Detection guidance must remain descriptive and cite only official Glider documentation when referencing code samples.";
      js "- When discussing Glider implementation, refer to helper functions by name and note that `query()` is defined without a return type annotation while returning those helper pipelines.";
      js "- Describe the helper workflow exactly as in the official templates: `LIMIT_FUNCS = 1_000` inside `query()`, inline helper functions without type annotations (e.g., `def has_bridge_context(fn):`) that return booleans, and a final `vulnerable_funcs = Functions().exec(LIMIT_FUNCS)` chain referencing those helpers in order.";
      js "- Emphasise API-first helper names that mirror the Nomad/unchecked-transfer examples (e.g., `has_unchecked_token_transfers`, `has_bridge_context`, `lacks_access_controls`), and align each blueprint step to those concrete helper responsibilities.";
      js "- Include actionable insights that map back to evidence or heuristics from the report.";
      js "- Treat the INTERNAL TEMPLATE HINTS as private context; never mention file names, paths, tags, or template identifiers in the output.";
      js "- Do not include meta sections such as " ++ [DQUOTE] ++ js "Reasoning" ++ [DQUOTE] ++ js ", " ++ [DQUOTE] ++ js "Thoughts" ++ [DQUOTE] ++ js ", or any <think> tags in the final response.";
      [];
      js "--- METADATA ---";
      join [LF] metadataLines;
      [];
      js "--- SUBMITTED REPORT (Markdown) ---";
      truncatedReport;
      [];
      js "--- AVAILABLE ARTIFACTS ---";
      artifactLines;
      [];
      js "--- REFERENCE BREAKDOWNS (abbreviated) ---";
      referenceDigest;
      [];
      js "--- INTERNAL TEMPLATE HINTS (DO NOT CITE) ---";
      templateDigest;
      [];
      js "--- OUTPUT FORMAT REQUIREMENTS ---";
      js "Return Markdown with **exactly** the following sections, in order:";
      js "1. # [Vulnerability Title] Breakdown";
      js "2. ## Vulnerability Breakdown (summarize core flaw, root cause, and exploit flow)";
      js "3. ## Evidence & Code Snippets (quote pertinent report snippets or on-chain code; include brief context)";
      js "4. ## Glider Detection Blueprint (outline descriptive steps for Functions()/filters to confirm a true positive; cite only official Glider docs when referencing APIs)";
      [];
      js "In the Glider Detection Blueprint, anchor each step to the helper function(s) you would define (e.g., `detect_unprotected_withdrawals`, `matches_unprotected_withdraw`) and describe how `query()` delegates to them.";
      [];
      js "Use bullet lists where helpful, otherwise concise paragraphs. Tie each detection recommendation back to observed behavior or references. Avoid placeholder text.";
      []
    ]).

Fixpoint isPrefix (p s : jsstring) : bool :=
  match p, s with
  | [], _ => true
  | x :: p', y :: s' => char_eqb x y && isPrefix p' s'
  | _ :: _, [] => false
  end.

(** [s.lastIndexOf(needle)], scanning from index [i] on with [last] the
    latest occurrence seen so far. *)
Fixpoint lastIndexFrom (needle s : jsstring) (i last : Z) : Z :=
  let last' := if isPrefix needle s then i else last in
  match s with
  | [] => last'
  | _ :: t => lastIndexFrom needle t (i + 1) last'
  end.

Definition lastIndexOf (s needle : jsstring) : Z := lastIndexFrom needle s 0 (-1).

Definition summarize (text : jsstring) (maxLength : Z) : jsstring :=
  if len text <=? maxLength then trim text
  else
    let truncated := slice0 text maxLength in
    let lastExtent :=
      Z.max (Z.max (lastIndexOf truncated (js ".")) (lastIndexOf truncated [LF; LF]))
            (lastIndexOf truncated [LF]) in
    let safeCut := if lastExtent >? 200 then lastExtent else maxLength in
    trim (slice0 truncated safeCut) ++ [ELLIPSIS].

(** What a [catch] clause receives: an [Error] with its message, or any
    other thrown value. *)
Inductive Thrown :=
| JsError (message : jsstring)
| JsOther.

Definition HEADING_BREAKDOWN : jsstring := js "## Vulnerability Breakdown".
Definition HEADING_EVIDENCE : jsstring := js "## Evidence & Code Snippets".
Definition HEADING_BLUEPRINT : jsstring := js "## Glider Detection Blueprint".

Definition blueprintGuidance (referenceTitles : jsstring) : jsstring :=
  join [LF]
    [js "Start with Glider helper functions that map to the failure mode:";
     js "1. Filter externally callable entry points touching the vulnerable state.";
     js "2. Inspect arithmetic or state transitions highlighted in the report.";
     js "3. Correlate on-chain events or storage transitions that confirm the exploit path.";
     [];
     js "Reference breakdowns you can adapt:";
     referenceTitles;
     [];
     js "Consult official Glider documentation for Functions(), Instructions(), and Contracts() usage patterns."].

Definition failureNotice (error : Thrown) : jsstring :=
  js "> AI fallback notice: " ++
  match error with
  | JsError message => message
  | JsOther => js "Unknown model failure while generating breakdown."
  end.

Definition buildFallbackDocument (context : BreakdownGenerationContext)
    (error : Thrown) : jsstring :=
  let excerpt := summarize (raw (report context)) FALLBACK_SUMMARY_LENGTH in
  let referenceTitles :=
    match referenceBreakdowns context with
    | [] => js "- None available"
    | refs => join [LF] (map (fun ref => js "- " ++ r_title ref) refs)
    end in
  let artifactList :=
    match artifacts (report context) with
    | [] => js "- No code snippets detected"
    | l => artifactBullets l
    end in
  join [LF; LF]
    [js "# " ++ title (metadata (report context)) ++ js " Breakdown";
     HEADING_BREAKDOWN;
     orElse excerpt (js "Report content was not provided.");
     HEADING_EVIDENCE;
     artifactList;
     HEADING_BLUEPRINT;
     blueprintGuidance referenceTitles;
     [];
     failureNotice error].

Definition FENCE_OPEN : jsstring := js "```python".
Definition FENCE_CLOSE : jsstring := js "```".

Definition assembleDocument (markdown skeleton : jsstring) : jsstring :=
  join [LF; LF]
    [trim markdown;
     js "## Boilerplate Glider Skeleton";
     js "Use this scaffold as a starting point while following official Glider examples.";
     FENCE_OPEN;
     skeleton;
     FENCE_CLOSE].

Module Sanitize.

(** [/<think>[\s\S]*?<\/think>/gi] *)
Definition thinkBlock : regex :=
  seqs [liti "<think>"; lazystar anychar; liti "</think>"].

(** The pattern of the second [replace], flags [gim]; its tokens, spaced:
    [^  \s*  ( #+ \s* )?  ( Reasoning | Thoughts | Analysis )  \s*  :?  .*  $] *)
Definition labelledLine : regex :=
  seqs [RBol; star ws; opt (RGroup 1 (seqs [plus (lit "#"); star ws]));
        RGroup 2 (alts [liti "Reasoning"; liti "Thoughts"; liti "Analysis"]);
        star ws; opt (lit ":"); star dot; REol].

(** [/\n{3,}/g] *)
Definition blankRun : regex :=
  seqs [ch LF; ch LF; ch LF; star (ch LF)].

End Sanitize.

Definition sanitizeModelResponse (text : jsstring) : jsstring :=
  let cleaned := text in
  let cleaned := replaceAll Sanitize.thinkBlock [] cleaned in
  let cleaned := replaceAll Sanitize.labelledLine [] cleaned in
  let cleaned := replaceAll Sanitize.blankRun [LF; LF] cleaned in
  trim cleaned.

(** ** Effects: the world outside the pipeline

    Calls that leave the process (the hosted model, the local model endpoint,
    the content store, the clock) are recorded as events.  What such a call
    returns is given by the world, as a function of everything that happened
    before it.  [console] output is not modelled. *)

Inductive Event :=
| EvGenerateText (modelId prompt : jsstring)        (* generateText({model: openai(modelId), prompt, ...}) *)
| EvLocalFetch (endpoint model prompt : jsstring)   (* fetch(endpoint, {method: 'POST', body: ...}) *)
| EvNow                                             (* new Date() *)
| EvLoadGliderTemplates
| EvLoadBreakdownReferences.

Definition Trace := list Event.

Inductive outcome (A : Type) :=
| Ok (a : A)
| Throw (e : Thrown).
Arguments Ok {A} a.
Arguments Throw {A} e.

(** The body of the local endpoint's answer, as [response.json()] yields it. *)
Record LocalPayload := {
  p_response : option jsstring;
  p_error : option jsstring
}.

Record FetchResponse := {
  resp_ok : bool;
  resp_status : Z;
  resp_text : outcome jsstring;      (* response.text() *)
  resp_json : outcome LocalPayload   (* response.json() *)
}.

Record World := {
  env_LOCAL_LLM_ENABLED : option jsstring;   (* process.env.LOCAL_LLM_ENABLED *)
  env_NODE_ENV : option jsstring;
  env_LOCAL_LLM_URL : option jsstring;
  env_LOCAL_LLM_MODEL : option jsstring;
  generateText : Trace -> jsstring -> jsstring -> outcome jsstring;
  fetchLocal : Trace -> jsstring -> jsstring -> jsstring -> outcome FetchResponse;
  nowIso : Trace -> jsstring;                 (* new Date().toISOString() *)
  gliderTemplates : Trace -> list GlideTemplate;
  breakdownReferences : Trace -> list BreakdownReference
}.

(** A computation: it extends the trace and returns or throws. *)
Definition M (A : Type) : Type := Trace -> outcome A * Trace.

Definition ret {A} (a : A) : M A := fun t => (Ok a, t).
Definition throw {A} (e : Thrown) : M A := fun t => (Throw e, t).

Definition bind {A B} (m : M A) (k : A -> M B) : M B :=
  fun t =>
    match m t with
    | (Ok a, t') => k a t'
    | (Throw e, t') => (Throw e, t')
    end.

(** [try { body } catch (e) { handler }] *)
Definition tryCatch {A} (body : M A) (handler : Thrown -> M A) : M A :=
  fun t =>
    match body t with
    | (Ok a, t') => (Ok a, t')
    | (Throw e, t') => handler e t'
    end.

Definition liftOutcome {A} (o : outcome A) : M A := fun t => (o, t).

(** Perform an external call: look the answer up, then record the event. *)
Definition call {A} (ev : Event) (answer : Trace -> A) : M A :=
  fun t => (Ok (answer t), t ++ [ev]).

Notation "x <- m ;; k" := (bind m (fun x => k))
  (at level 61, m at next level, right associativity).

Definition optEqb (o : option jsstring) (s : jsstring) : bool :=
  match o with Some v => str_eqb v s | None => false end.

(** [a ?? b] *)
Definition nullish (o : option jsstring) (default : jsstring) : jsstring :=
  match o with Some v => v | None => default end.

(** [url.replace(/\/$/, '')]: one trailing slash is dropped. *)
Fixpoint dropTrailingSlash (url : jsstring) : jsstring :=
  match url with
  | [] => []
  | [c] => if char_eqb c 47%N then [] else [c]
  | c :: t => c :: dropTrailingSlash t
  end.

Section Orchestrator.

Variable w : World.

Definition LOCAL_LLM_ENABLED : bool :=
  optEqb (env_LOCAL_LLM_ENABLED w) (js "true")
  && negb (optEqb (env_NODE_ENV w) (js "production")).

Definition LOCAL_LLM_URL : jsstring :=
  nullish (env_LOCAL_LLM_URL w) (js "http://localhost:11434").

Definition LOCAL_LLM_MODEL : jsstring :=
  nullish (env_LOCAL_LLM_MODEL w) (js "qwen3:8b").

Definition callLocalModel (prompt : jsstring) : M jsstring :=
  let endpoint := dropTrailingSlash LOCAL_LLM_URL ++ js "/api/generate" in
  answer <- call (EvLocalFetch endpoint LOCAL_LLM_MODEL prompt)
                 (fun t => fetchLocal w t endpoint LOCAL_LLM_MODEL prompt) ;;
  response <- liftOutcome answer ;;
  if negb (resp_ok response) then
    let errorBody := match resp_text response with Ok b => b | Throw _ => [] end in
    throw (JsError (js "Local model request failed (" ++ decimal (resp_status response)
                    ++ js "): " ++ errorBody))
  else
    payload <- liftOutcome (resp_json response) ;;
    match p_error payload with
    | Some (c :: e) => throw (JsError (js "Local model error: " ++ c :: e))
    | _ =>
        let output := nullish (p_response payload) [] in
        if truthy (trim output) then ret output
        else throw (JsError (js "Local model returned an empty response."))
    end.

Definition tryGenerateMarkdown (context : BreakdownGenerationContext)
    (modelId : jsstring) : M jsstring :=
  let prompt := buildPrompt context in
  rawOutput <-
    (if LOCAL_LLM_ENABLED then callLocalModel prompt
     else
       answer <- call (EvGenerateText modelId prompt)
                      (fun t => generateText w t modelId prompt) ;;
       text <- liftOutcome answer ;;
       if truthy text then ret text
       else throw (JsError (js "Model returned empty response."))) ;;
  let cleaned := sanitizeModelResponse rawOutput in
  if truthy cleaned then ret cleaned
  else throw (JsError (js "Model returned empty response after sanitization.")).

(** [`${doc.trim()}\n`] *)
Definition finish (doc : jsstring) : jsstring := trim doc ++ [LF].

(** [modelIdOption] is [options.modelId]. *)
Definition generateBreakdownDocument (context : BreakdownGenerationContext)
    (modelIdOption : option jsstring) : M jsstring :=
  let modelId := nullish modelIdOption DEFAULT_MODEL_ID in
  let skeleton := buildGliderSkeleton in
  tryCatch
    (markdown <- tryGenerateMarkdown context modelId ;;
     let finalDoc := assembleDocument markdown skeleton in
     ret (finish finalDoc))
    (fun primaryError =>
       let staticFallback failure :=
         let fallbackMarkdown := buildFallbackDocument context failure in
         ret (finish (assembleDocument fallbackMarkdown skeleton)) in
       if negb LOCAL_LLM_ENABLED && negb (str_eqb modelId FALLBACK_MODEL_ID) then
         tryCatch
           (markdown <- tryGenerateMarkdown context FALLBACK_MODEL_ID ;;
            let fallbackDoc := assembleDocument markdown skeleton in
            ret (finish fallbackDoc))
           (fun fallbackError => staticFallback fallbackError)
       else staticFallback primaryError).

(** The loaders of the template-loader module catch every error of the
    content store and then return an empty list, so they never throw. *)
Definition loadGliderTemplates : M (list GlideTemplate) :=
  call EvLoadGliderTemplates (gliderTemplates w).

Definition loadBreakdownReferences : M (list BreakdownReference) :=
  call EvLoadBreakdownReferences (breakdownReferences w).

Variable toLowerCase : jsstring -> jsstring.

Definition parseVulnerabilityReport (markdown : jsstring)
    (source : option jsstring) : M ParsedReport :=
  iso <- call EvNow (nowIso w) ;;
  ret (parseReport toLowerCase iso markdown source).

(** ** Request boundary ([src/app/api/generate/route.ts]) *)

Record RequestBody := {
  rq_markdown : option jsstring;
  rq_source : option jsstring
}.

Inductive ResponseBody :=
  | ErrorBody (error : jsstring) (details : option jsstring)
  | DocumentBody (document fileName : jsstring).

Record Response := {
  status : Z;
  body : ResponseBody
}.

Definition GENERATION_FAILED_DETAILS : jsstring :=
  js "The AI was unable to generate a breakdown document. Please try again with a more detailed vulnerability report or review the server logs for more information.".

(** [requestJson] is what [await request.json()] yields. *)
Definition POST (requestJson : outcome RequestBody) : M Response :=
  tryCatch
    (payload <- liftOutcome requestJson ;;
     match rq_markdown payload with
     | None | Some [] =>
         ret {| status := 400; body := ErrorBody (js "Missing markdown payload") None |}
     | Some markdown =>
         parsedReport <- parseVulnerabilityReport markdown (rq_source payload) ;;
         templates <- loadGliderTemplates ;;
         breakdownReferences <- loadBreakdownReferences ;;
         document <- generateBreakdownDocument
                       {| report := parsedReport;
                          referenceBreakdowns := breakdownReferences;
                          templates := templates |} None ;;
         ret {| status := 200;
                body := DocumentBody document (js "vulnerability-breakdown.md") |}
     end)
    (fun error =>
       let errorMessage :=
         match error with
         | JsError message => message
         | JsOther => js "Generation failed. Please try again."
         end in
       ret {| status := 500;
              body := ErrorBody errorMessage (Some GENERATION_FAILED_DETAILS) |}).

End Orchestrator.

(** ** Fenced code blocks, as the artifact scan reads them *)

Definition BACKTICK : char := 96%N.
Definition FENCE : jsstring := [BACKTICK; BACKTICK; BACKTICK].

(** The longest run of characters of a class at the head of a string, and
    what follows it. *)
Fixpoint spanClass (p : char -> bool) (s : jsstring) : jsstring * jsstring :=
  match s with
  | c :: t => if p c then (c :: fst (spanClass p t), snd (spanClass p t)) else ([], s)
  | [] => ([], [])
  end.

(** The text before the first fence of a string, and the text after it. *)
Fixpoint splitAtFence (s : jsstring) : option (jsstring * jsstring) :=
  if isPrefix FENCE s then Some ([], skipn 3 s)
  else
    match s with
    | [] => None
    | c :: t =>
        match splitAtFence t with
        | Some (a, b) => Some (c :: a, b)
        | None => None
        end
    end.

Definition containsFence (s : jsstring) : bool :=
  match splitAtFence s with Some _ => true | None => false end.

Definition endsWithBacktick (s : jsstring) : bool :=
  match rev s with c :: _ => char_eqb c BACKTICK | [] => false end.

(** A block that opens right here: fence, language tag of word characters
    (possibly none), line feed, content up to the next fence. *)
Definition fenceAt (input : jsstring) : option (jsstring * jsstring * jsstring) :=
  if isPrefix FENCE input then
    let (tag, afterTag) := spanClass isWord (skipn 3 input) in
    match afterTag with
    | c :: afterNewline =>
        if char_eqb LF c then
          match splitAtFence afterNewline with
          | Some (body, after) => Some (tag, body, after)
          | None => None
          end
        else None
    | [] => None
    end
  else None.

Fixpoint nextFence (input : jsstring) : option (jsstring * jsstring * jsstring) :=
  match fenceAt input with
  | Some x => Some x
  | None =>
      match input with
      | [] => None
      | _ :: t => nextFence t
      end
  end.

(** A fenced block of a document, with the text that follows it up to the
    next block. *)
Record FencedBlock := {
  fb_language : jsstring;
  fb_content : jsstring;
  fb_following : jsstring
}.

Definition renderBlock (b : FencedBlock) : jsstring :=
  FENCE ++ fb_language b ++ [LF] ++ fb_content b ++ FENCE ++ fb_following b.

Definition renderDocument (leading : jsstring) (blocks : list FencedBlock) : jsstring :=
  leading ++ concat (map renderBlock blocks).

(** The language tag is made of word characters, the content holds no fence
    and does not end with a backtick, the following text holds no fence. *)
Definition wellFormedBlock (b : FencedBlock) : bool :=
  forallb isWord (fb_language b)
  && negb (containsFence (fb_content b))
  && negb (endsWithBacktick (fb_content b))
  && negb (containsFence (fb_following b)).

Definition artifactOf (index : Z) (language body : jsstring) : ParsedArtifact :=
  {| label := js "Code Snippet " ++ decimal index
              ++ (if truthy language then js " (" ++ language ++ js ")" else []);
     content := trim body |}.

Fixpoint expectedArtifacts (index : Z) (blocks : list FencedBlock) : list ParsedArtifact :=
  match blocks with
  | [] => []
  | b :: others =>
      artifactOf (index + 1) (fb_language b) (fb_content b)
      :: expectedArtifacts (index + 1) others
  end.

Definition tagCaps (tag : jsstring) : list (nat * jsstring) :=
  match tag with [] => [] | _ => [(1%nat, tag)] end.

(** The tail of the code-block pattern, from the line feed on. *)
Definition afterTagPattern : regex :=
  seqs [ch LF; RGroup 2 (lazystar anychar); lit "```"].

Definition cppBlock : jsstring :=
  js "```c++" ++ [LF] ++ js "int x;" ++ [LF] ++ js "```".

Definition noBacktick (c : char) : bool := negb (char_eqb BACKTICK c).

(** A character that ends the run of word characters after an opening fence
    and is neither the line feed nor a backtick: the [+] of [c++], the [-]
    of [objective-c], a space, a carriage return. *)
Definition breaksTag (c : char) : bool :=
  negb (isWord c) && negb (char_eqb LF c) && noBacktick c.

Definition jsBlock : jsstring :=
  js "```js" ++ [LF] ++ js "code();" ++ [LF] ++ js "```".

(** A [c++] block, a line of prose and a [js] block. *)
Definition cppThenJs : jsstring :=
  cppBlock ++ [LF] ++ js "prose between" ++ [LF] ++ jsBlock.

Definition twoBlocks : list FencedBlock :=
  [ {| fb_language := js "js"; fb_content := js "code();" ++ [LF];
       fb_following := [LF] ++ js "more" ++ [LF] |};
    {| fb_language := []; fb_content := js " x " ++ [LF]; fb_following := [] |} ].

(** ** The labelled-line pattern in two parts *)

(** Up to the label: [^ \s* ( #+ \s* )? ( Reasoning | Thoughts | Analysis )]. *)
Definition labelHead : regex :=
  RSeq (RSeq (RSeq RBol (star ws))
             (opt (RGroup 1 (seqs [plus (lit "#"); star ws]))))
       (RGroup 2 (alts [liti "Reasoning"; liti "Thoughts"; liti "Analysis"])).

(** After the label: [\s* :? .* $]. *)
Definition labelTail : regex :=
  seqs [star ws; opt (lit ":"); star dot; REol].

Definition LESS_THAN : char := 60%N.

(** A single line that opens no tag: no line terminator, no [<]. *)
Definition plainLine (s : jsstring) : bool :=
  forallb (fun c => negb (isLineTerminator c) && negb (char_eqb LESS_THAN c)) s.

(** [e] is the first way in which [r] matches at [s]. *)
Definition firstIs (r : regex) (s e : mstate) : Prop :=
  exists others, rmatch r s = e :: others.

(** A string that does not start with a word character. *)
Definition noWordStart (s : jsstring) : bool :=
  match s with c :: _ => negb (isWord c) | [] => true end.

(** A pattern without capturing group. *)
Fixpoint groupFree (r : regex) : bool :=
  match r with
  | RChar _ | REmpty | RBol | REol | RWordB | RNotAhead _ => true
  | RSeq a b | RAlt a b => groupFree a && groupFree b
  | RStar _ a => groupFree a
  | RGroup _ _ => false
  end.

Definition severityLevels : list jsstring :=
  [js "critical"; js "high"; js "medium"; js "low"].

Definition isLowerLetter (c : char) : bool := ((97 <=? c) && (c <=? 122))%N.

(** ** Vocabulary of the statements *)

(** The document of the static tier: what [generateBreakdownDocument]
    returns once no backend call has produced a usable text. *)
Definition staticDocument (context : BreakdownGenerationContext) (failure : Thrown)
    : jsstring :=
  finish (assembleDocument (buildFallbackDocument context failure) buildGliderSkeleton).

(** The skeleton section that closes an assembled document. *)
Definition fencedSkeleton (skeleton : jsstring) : jsstring :=
  FENCE_OPEN ++ [LF; LF] ++ skeleton ++ [LF; LF] ++ FENCE_CLOSE.

(** The first backend call of a request. *)
Definition primaryCall (w : World) (context : BreakdownGenerationContext)
    (modelId : jsstring) : Event :=
  if LOCAL_LLM_ENABLED w
  then EvLocalFetch (dropTrailingSlash (LOCAL_LLM_URL w) ++ js "/api/generate")
                    (LOCAL_LLM_MODEL w) (buildPrompt context)
  else EvGenerateText modelId (buildPrompt context).

Definition fallbackCall (context : BreakdownGenerationContext) : Event :=
  EvGenerateText FALLBACK_MODEL_ID (buildPrompt context).

(** *** Sample inputs *)

Definition sampleReport : ParsedReport :=
  {| raw := [];
     metadata := {| title := js "Unknown Vulnerability"; severity := None;
                    vulnType := js "unknown"; source := None; date := None |};
     artifacts := [] |}.

Definition sampleContext : BreakdownGenerationContext :=
  {| report := sampleReport; referenceBreakdowns := []; templates := [] |}.

(** A world whose hosted backend rejects every call. *)
Definition failingWorld : World :=
  {| env_LOCAL_LLM_ENABLED := None;
     env_NODE_ENV := None;
     env_LOCAL_LLM_URL := None;
     env_LOCAL_LLM_MODEL := None;
     generateText := fun _ _ _ => Throw (JsError (js "quota exceeded"));
     fetchLocal := fun _ _ _ _ => Throw JsOther;
     nowIso := fun _ => js "2026-01-02T03:04:05.000Z";
     gliderTemplates := fun _ => [];
     breakdownReferences := fun _ => [] |}.

(** The same world with the local-development override switched on. *)
Definition localWorld : World :=
  {| env_LOCAL_LLM_ENABLED := Some (js "true");
     env_NODE_ENV := Some (js "development");
     env_LOCAL_LLM_URL := None;
     env_LOCAL_LLM_MODEL := None;
     generateText := fun _ _ _ => Throw (JsError (js "quota exceeded"));
     fetchLocal := fun _ _ _ _ => Throw JsOther;
     nowIso := fun _ => js "2026-01-02T03:04:05.000Z";
     gliderTemplates := fun _ => [];
     breakdownReferences := fun _ => [] |}.

(** The four mandated headings in order, each followed by its section, then
    the fallback notice and the boilerplate section with the fenced
    skeleton at the very end. *)
Definition staticShape (documentTitle doc : jsstring) : Prop :=
  exists excerpt artifactList guidance notice,
    excerpt <> [] /\
    doc = js "# " ++ documentTitle ++ js " Breakdown" ++ [LF; LF]
          ++ HEADING_BREAKDOWN ++ [LF; LF] ++ excerpt ++ [LF; LF]
          ++ HEADING_EVIDENCE ++ [LF; LF] ++ artifactList ++ [LF; LF]
          ++ HEADING_BLUEPRINT ++ [LF; LF] ++ guidance ++ [LF; LF; LF; LF]
          ++ notice ++ [LF; LF]
          ++ js "## Boilerplate Glider Skeleton" ++ [LF; LF]
          ++ js "Use this scaffold as a starting point while following official Glider examples."
          ++ [LF; LF] ++ fencedSkeleton buildGliderSkeleton ++ [LF].

(** Whether the second tier is entered after a failure of the first. *)
Definition secondTierEnabled (w : World) (modelId : jsstring) : bool :=
  negb (LOCAL_LLM_ENABLED w) && negb (str_eqb modelId FALLBACK_MODEL_ID).

Definition missingMarkdownResponse : Response :=
  {| status := 400; body := ErrorBody (js "Missing markdown payload") None |}.

(** First match in list order: the tag of the first pattern that matches
    [text], if any. *)
Definition firstMatch (text : jsstring) : option (jsstring * regex) :=
  find (fun p => test (snd p) text) vulnTypePatterns.

Definition titleBothCues : jsstring :=
  js "Reentrancy bypasses access control validation".

Definition titleAccessAndValidation : jsstring :=
  js "Missing validation in admin access control".

Definition reportBothCues : jsstring :=
  js "# " ++ titleBothCues ++ [LF] ++ js "Details follow.".

Definition reportAccessAndValidation : jsstring :=
  js "# " ++ titleAccessAndValidation ++ [LF] ++ js "Details follow.".

Definition isAscii (c : char) : Prop := (c < 128)%N.

Definition impactReport : jsstring :=
  js "## Impact" ++ [LF] ++ js "Attackers can drain the vault".

Definition severityReport : jsstring :=
  js "## Severity" ++ [LF] ++ js "High".

Definition plainReport : jsstring :=
  js "# Vault bug" ++ [LF] ++ js "Funds can be lost.".

Definition headingThenAnswer : jsstring :=
  js "## Reasoning" ++ [LF] ++ js "The fix is to add a guard." ++ [LF] ++ js "Done.".

Definition labelledLineInput : jsstring :=
  js "Intro" ++ [LF] ++ js "## Reasoning: blah" ++ [LF] ++ js "Body".

Definition thinkInput : jsstring :=
  js "A<think>x" ++ [LF] ++ js "y</think>B".

(** ** Template loader ([src/backend/template-loader.ts]) *)

(** [TEMPLATE_DIRECTORY/breakdowns] and [TEMPLATE_DIRECTORY/gliders]: the
    two directories the loader reads, [join(directory, fileName)] being a
    file of one of them. *)
Inductive Directory :=
| BREAKDOWN_DIRECTORY
| GLIDER_DIRECTORY.

(** An entry of a directory listing: [entry.name] and [entry.isFile()].
    A listing without [withFileTypes] yields the names only. *)
Record Dirent := {
  d_name : jsstring;
  d_isFile : bool
}.

(** The content store during one load: what [fs.readdir(directory)] and
    [fs.readFile(join(directory, fileName), 'utf8')] answer. *)
Record FileSystem := {
  readdir : Directory -> outcome (list Dirent);
  readFile : Directory -> jsstring -> outcome jsstring
}.

(** [$] without the [m] flag: no code unit follows. *)
Definition endOfInput : regex := RNotAhead anychar.

(** [input.replace(pattern, replacement)] for a pattern without the [g]
    flag: the first match only. *)
Definition replaceFirst (r : regex) (replacement : jsstring) (input : jsstring) : jsstring :=
  match search r None input with
  | Some f => f_pre f ++ replacement ++ rest (f_end f)
  | None => input
  end.

(** [s.endsWith(suffix)] *)
Definition endsWith (suffix s : jsstring) : bool := isPrefix (rev suffix) (rev s).

(** [s.split(sep)] for a separator of one code unit. *)
Fixpoint split (sep : char) (s : jsstring) : list jsstring :=
  match s with
  | [] => [[]]
  | c :: t =>
      if char_eqb c sep then [] :: split sep t
      else
        match split sep t with
        | piece :: pieces => (c :: piece) :: pieces
        | [] => [[c]]
        end
  end.

(** [a < b] on strings: the order of the code units, which is the order
    [Array.prototype.sort] uses when it is given no comparator. *)
Fixpoint str_ltb (a b : jsstring) : bool :=
  match a, b with
  | _, [] => false
  | [], _ :: _ => true
  | x :: a', y :: b' => (x <? y)%N || ((x =? y)%N && str_ltb a' b')
  end.

(** [a <= b]: [b] is not before [a]. *)
Definition str_le (a b : jsstring) : Prop := str_ltb b a = false.

Fixpoint insertSorted (x : jsstring) (l : list jsstring) : list jsstring :=
  match l with
  | [] => [x]
  | y :: l' => if str_ltb y x then y :: insertSorted x l' else x :: y :: l'
  end.

(** [names.sort()].  The order on strings is total and equal strings are
    indistinguishable, so the sorted array does not depend on the algorithm;
    it is computed here by insertion. *)
Fixpoint sort (names : list jsstring) : list jsstring :=
  match names with
  | [] => []
  | x :: l => insertSorted x (sort l)
  end.

(** [await Promise.all(promises)]: the values in the order of the promises,
    or a rejection when one of them rejects. *)
Fixpoint promiseAll {A} (l : list (outcome A)) : outcome (list A) :=
  match l with
  | [] => Ok []
  | Throw e :: _ => Throw e
  | Ok a :: l' =>
      match promiseAll l' with
      | Ok values => Ok (a :: values)
      | Throw e => Throw e
      end
  end.

Module TemplateLoader.

Definition QUOTES : jsstring := [DQUOTE; DQUOTE; DQUOTE].

(** [TRIPLE_QUOTE_REGEX]: three double quotes, [([\s\S]*?)], three double
    quotes *)
Definition TRIPLE_QUOTE_REGEX : regex :=
  seqs [seqs (map ch QUOTES); RGroup 1 (lazystar anychar); seqs (map ch QUOTES)].

(** [/@title:\s*(.+)/i] *)
Definition titleTag : regex :=
  seqs [liti "@title:"; star ws; RGroup 1 (plus dot)].

(** [/@description:\s*([\s\S]*?)(?:\n\s*@|$)/i] *)
Definition descriptionTag : regex :=
  seqs [liti "@description:"; star ws; RGroup 1 (lazystar anychar);
        alts [seqs [ch LF; star ws; lit "@"]; endOfInput]].

(** [/@tags:\s*(.+)/i] *)
Definition tagsTag : regex :=
  seqs [liti "@tags:"; star ws; RGroup 1 (plus dot)].

(** [/\.py$/i] and [/\.md$/i] *)
Definition pyExtension : regex := seqs [lit "."; liti "py"; endOfInput].
Definition mdExtension : regex := seqs [lit "."; liti "md"; endOfInput].

(** What [extractMetadataFromDocstring] returns; [{}] is the record whose
    three fields are [undefined]. *)
Record DocstringMetadata := {
  m_title : option jsstring;
  m_description : option jsstring;
  m_tags : option (list jsstring)
}.

Definition extractMetadataFromDocstring (docstring : option jsstring)
    : DocstringMetadata :=
  match docstring with
  | None | Some [] =>
      {| m_title := None; m_description := None; m_tags := None |}
  | Some docstring =>
      let titleMatch := matchOf titleTag docstring in
      let descriptionMatch := matchOf descriptionTag docstring in
      let tagsMatch := matchOf tagsTag docstring in
      {| m_title :=
           match titleMatch with
           | Some m => Some (trim (groupText 1 m))
           | None => None
           end;
         m_description :=
           match descriptionMatch with
           | Some m => Some (trim (groupText 1 m))
           | None => None
           end;
         m_tags :=
           match tagsMatch with
           | Some m => Some (filter truthy (map trim (split 44%N (groupText 1 m))))
           | None => None
           end |}
  end.

(** The template built from one file of the glider directory. *)
Definition gliderTemplate (fileName content : jsstring) : GlideTemplate :=
  let docstringMatch := matchOf TRIPLE_QUOTE_REGEX content in
  let docstring :=
    match docstringMatch with
    | Some m => Some (groupText 1 m)
    | None => None
    end in
  let metadata := extractMetadataFromDocstring docstring in
  {| t_id := replaceFirst pyExtension [] fileName;
     t_title :=
       match m_title metadata with
       | Some t => t
       | None => replaceFirst pyExtension [] fileName
       end;
     t_description := m_description metadata;
     t_tags := m_tags metadata;
     t_codeSnippet := content;
     t_fileName := Some fileName;
     t_relativePath := Some (js "templates/gliders/" ++ fileName) |}.

(** The reference built from one file of the breakdown directory. *)
Definition breakdownReference (fileName content : jsstring) : BreakdownReference :=
  let headingMatch := matchOf Patterns.titleHeading content in
  {| r_id := replaceFirst mdExtension [] fileName;
     r_title :=
       match headingMatch with
       | Some m => trim (groupText 1 m)
       | None => replaceFirst mdExtension [] fileName
       end;
     r_content := content |}.

(** Read every file of a list and build one value from each. *)
Definition readEach {A} (fs : FileSystem) (directory : Directory)
    (build : jsstring -> jsstring -> A) (fileNames : list jsstring) : outcome (list A) :=
  promiseAll
    (map (fun fileName =>
            match readFile fs directory fileName with
            | Ok content => Ok (build fileName content)
            | Throw e => Throw e
            end)
         fileNames).

Definition pythonFiles (entries : list Dirent) : list jsstring :=
  filter (endsWith (js ".py")) (map d_name entries).

Definition markdownFiles (entries : list Dirent) : list jsstring :=
  sort (map d_name
          (filter (fun entry => d_isFile entry && endsWith (js ".md") (d_name entry))
                  entries)).

(** The [catch] of both loaders swallows every error and returns [[]]. *)
Definition loadGliderTemplates (fs : FileSystem) : list GlideTemplate :=
  match readdir fs GLIDER_DIRECTORY with
  | Ok entries =>
      match readEach fs GLIDER_DIRECTORY gliderTemplate (pythonFiles entries) with
      | Ok templates => templates
      | Throw _ => []
      end
  | Throw _ => []
  end.

Definition loadBreakdownReferences (fs : FileSystem) : list BreakdownReference :=
  match readdir fs BREAKDOWN_DIRECTORY with
  | Ok entries =>
      match readEach fs BREAKDOWN_DIRECTORY breakdownReference (markdownFiles entries) with
      | Ok references => references
      | Throw _ => []
      end
  | Throw _ => []
  end.

End TemplateLoader.

(** ** Service entry points: [buildGenerationContext] and
    [generateFromMarkdown] *)

Section Service.

Variable w : World.
Variable toLowerCase : jsstring -> jsstring.

(** [generateGlideScript] of the generator: the orchestrator with default
    options. *)
Definition generateGlideScript (context : BreakdownGenerationContext) : M jsstring :=
  generateBreakdownDocument w context None.

Definition buildGenerationContext (markdown : jsstring) : M BreakdownGenerationContext :=
  parsed <- parseVulnerabilityReport w toLowerCase markdown None ;;
  loadedTemplates <- loadGliderTemplates w ;;
  loadedReferences <- loadBreakdownReferences w ;;
  ret {| report := parsed;
         templates := loadedTemplates;
         referenceBreakdowns := loadedReferences |}.

Definition generateFromMarkdown (markdown : jsstring) : M jsstring :=
  context <- buildGenerationContext markdown ;;
  generateBreakdownDocument w context None.

End Service.

(** ** Vocabulary of the further statements *)

(** No three line feeds in a row. *)
Definition noBlankRun (s : jsstring) : Prop :=
  forall pre post, s <> pre ++ [LF; LF; LF] ++ post.

(** Neither end of the string is a white space character. *)
Definition trimmed (s : jsstring) : Prop := trim s = s.

(** White space occurs only as single U+0020 characters between other
    characters. *)
Fixpoint singleSpaced (s : jsstring) : bool :=
  match s with
  | [] => true
  | c :: t =>
      (if isSpace c
       then char_eqb c 32%N && match t with x :: _ => negb (isSpace x) | [] => false end
       else true)
      && singleSpaced t
  end.

Definition startsClean (s : jsstring) : bool :=
  match s with c :: _ => negb (isSpace c) | [] => true end.

(** The code unit at index [i], [None] past the end. *)
Definition charAt (s : jsstring) (i : Z) : option char :=
  if i <? 0 then None else nth_error s (Z.to_nat i).

Definition isDot (c : char) : bool := char_eqb 46%N c.

Definition isLF (c : char) : bool := char_eqb LF c.

(** A full stop or a line feed: where [summarize] may cut. *)
Definition isBreak (c : char) : bool := isDot c || isLF c.

(** A world whose hosted backend answers every call with one text. *)
Definition answeringWorld (answer : jsstring) : World :=
  {| env_LOCAL_LLM_ENABLED := None;
     env_NODE_ENV := None;
     env_LOCAL_LLM_URL := None;
     env_LOCAL_LLM_MODEL := None;
     generateText := fun _ _ _ => Ok answer;
     fetchLocal := fun _ _ _ _ => Throw JsOther;
     nowIso := fun _ => js "2026-01-02T03:04:05.000Z";
     gliderTemplates := fun _ => [];
     breakdownReferences := fun _ => [] |}.

(** [replace(/\s+/g, ' ')] read directly: a run of white space becomes one
    U+0020.  [inRun] tells that the code unit on the left was white space. *)
Fixpoint collapseSpaces (inRun : bool) (s : jsstring) : jsstring :=
  match s with
  | [] => []
  | c :: t =>
      if isSpace c
      then if inRun then collapseSpaces true t else 32%N :: collapseSpaces true t
      else c :: collapseSpaces false t
  end.

(** [replace(/\n{3,}/g, '\n\n')] read directly: of a run of line feeds the
    first two are kept.  [seen] counts the line feeds of the run that are
    already out. *)
Fixpoint squeezeBlank (seen : nat) (s : jsstring) : jsstring :=
  match s with
  | [] => []
  | c :: t =>
      if isLF c
      then if (seen <? 2)%nat then LF :: squeezeBlank (S seen) t else squeezeBlank seen t
      else c :: squeezeBlank 0 t
  end.

(** The number of line feeds a string starts with. *)
Fixpoint leadingLF (s : jsstring) : nat :=
  match s with
  | c :: t => if isLF c then S (leadingLF t) else O
  | [] => O
  end.

(** What [collapseSpaces] leaves: white space is U+0020 and is followed by
    a character that is not white space, or by nothing. *)
Fixpoint spaced (s : jsstring) : bool :=
  match s with
  | [] => true
  | c :: t =>
      (if isSpace c
       then char_eqb c 32%N && match t with x :: _ => negb (isSpace x) | [] => true end
       else true)
      && spaced t
  end.

Definition HASH : char := 35%N.
Definition noHash (c : char) : bool := negb (char_eqb HASH c).
Definition notLineTerminator (c : char) : bool := negb (isLineTerminator c).

(** The position after [s] is the start of a line. *)
Definition endsLine (s : jsstring) : bool :=
  match rev s with x :: _ => isLineTerminator x | [] => true end.

(** The position before [s] is the end of a line. *)
Definition atLineEnd (s : jsstring) : bool :=
  match s with x :: _ => isLineTerminator x | [] => true end.

(** The code unit on the left of the position after [pre], [b] being the
    one on the left of [pre]. *)
Definition lastBefore (b : option char) (pre : jsstring) : option char :=
  match rev pre with x :: _ => Some x | [] => b end.

Definition COMMA : char := 44%N.
Definition noComma (c : char) : bool := negb (char_eqb c COMMA).
Definition noQuote (c : char) : bool := negb (char_eqb DQUOTE c).

Definition noLessThan (c : char) : bool := negb (char_eqb LESS_THAN c).

(** Equal up to the case of ASCII letters: what a literal matches under
    the [i] flag. *)
Definition sameFolded (a b : jsstring) : Prop := map asciiUpper a = map asciiUpper b.

Definition AT : char := 64%N.
Definition noAt (c : char) : bool := negb (char_eqb AT c).

(** [name] is a prefix of [s] up to the case of ASCII letters. *)
Fixpoint foldedPrefix (name s : jsstring) : bool :=
  match name, s with
  | [], _ => true
  | n :: name', x :: s' => char_eqb (asciiUpper n) (asciiUpper x) && foldedPrefix name' s'
  | _ :: _, [] => false
  end.

(** A search in [whole] from the position after [b] finds what the search
    in [s] from the position after [b'] finds: the same end and captures,
    or nothing. *)
Definition sameSearch (r : regex) (b : option char) (whole : jsstring)
    (b' : option char) (s : jsstring) : Prop :=
  match search r b' s with
  | Some f => exists f', search r b whole = Some f' /\ f_end f' = f_end f
  | None => search r b whole = None
  end.

(** A line of text: it starts with a character that is not white space and
    holds no line terminator. *)
Definition textLine (s : jsstring) : bool :=
  match s with
  | c :: t => negb (isSpace c) && forallb notLineTerminator t
  | [] => false
  end.

(** A block of text, possibly of several lines: it starts and ends with a
    character that is not white space. *)
Definition textBlock (s : jsstring) : bool :=
  match s, rev s with
  | c :: _, d :: _ => negb (isSpace c) && negb (isSpace d)
  | _, _ => false
  end.

(** A docstring in the layout of the glider templates: a title line, a
    description and a tag line, each under its [@] key. *)
Definition templateDocstring (pre gap1 titleText indent2 gap2 descriptionText
    indent3 gap3 tagText after : jsstring) : jsstring :=
  pre ++ js "@title:" ++ gap1 ++ titleText ++ [LF] ++ indent2
  ++ js "@description:" ++ gap2 ++ descriptionText ++ [LF] ++ indent3
  ++ js "@tags:" ++ gap3 ++ tagText ++ after.

(** The end of the description pattern: [(?:\n\s*@|$)]. *)
Definition descriptionEnd : regex :=
  RAlt (RSeq (ch LF) (RSeq (RStar true (RChar isSpace)) (ch AT))) endOfInput.


(** ** Command line script *)

(** What the script asks of the file system: [resolve(process.cwd(), p)],
    [fs.readFile(path, 'utf8')] and [fs.writeFile(path, data, 'utf8')]. *)
Record CliFiles := {
  cli_resolve : jsstring -> jsstring;
  cli_readFile : jsstring -> outcome jsstring;
  cli_writeFile : jsstring -> jsstring -> outcome unit
}.

(** What a run leaves behind: the exit code of the process, the files it
    read, the writes it asked for and the calls of the pipeline. *)
Record CliRun := {
  exitCode : Z;
  filesRead : list jsstring;
  writesAsked : list (jsstring * jsstring);
  pipelineCalls : Trace
}.

Section CommandLine.

Variable w : World.
Variable toLowerCase : jsstring -> jsstring.
Variable files : CliFiles.

(** [main()] with the [catch] that follows it; [inputPathArg] is
    [process.argv[2]].  A run that ends without [process.exit] leaves the
    exit code 0. *)
Definition main (inputPathArg : option jsstring) (t : Trace) : CliRun :=
  match inputPathArg with
  | None | Some [] =>
      {| exitCode := 1; filesRead := []; writesAsked := []; pipelineCalls := t |}
  | Some inputPath =>
      let resolvedInputPath := cli_resolve files inputPath in
      match cli_readFile files resolvedInputPath with
      | Throw _ =>
          {| exitCode := 1; filesRead := [resolvedInputPath]; writesAsked := [];
             pipelineCalls := t |}
      | Ok markdown =>
          match generateFromMarkdown w toLowerCase markdown t with
          | (Throw _, t') =>
              {| exitCode := 1; filesRead := [resolvedInputPath]; writesAsked := [];
                 pipelineCalls := t' |}
          | (Ok output, t') =>
              let outputPath := cli_resolve files (js "output.glide.py") in
              {| exitCode :=
                   match cli_writeFile files outputPath output with
                   | Ok _ => 0
                   | Throw _ => 1
                   end;
                 filesRead := [resolvedInputPath];
                 writesAsked := [(outputPath, output)];
                 pipelineCalls := t' |}
          end
      end
  end.

End CommandLine.

(** ** The blocks the artifact scan reads *)

(** Language tag and content of each block, reading from the left: the first
    place where a block opens, then the same on the text after its closing
    fence. *)
Fixpoint fencedBlocks (fuel : nat) (input : jsstring) : list (jsstring * jsstring) :=
  match fuel with
  | O => []
  | S fuel' =>
      match nextFence input with
      | Some (tag, body, after) => (tag, body) :: fencedBlocks fuel' after
      | None => []
      end
  end.

Definition blocksOf (markdown : jsstring) : list (jsstring * jsstring) :=
  fencedBlocks (S (length markdown)) markdown.

(** The artifacts of a list of blocks, counting on from [index]. *)
Fixpoint numbered (index : Z) (blocks : list (jsstring * jsstring)) : list ParsedArtifact :=
  match blocks with
  | [] => []
  | (tag, body) :: others =>
      artifactOf (index + 1) tag body :: numbered (index + 1) others
  end.

(** A text written out as blocks, each after the text that precedes it, and a
    closing text. *)
Fixpoint weave (gaps : list jsstring) (blocks : list (jsstring * jsstring))
    (closing : jsstring) : jsstring :=
  match gaps, blocks with
  | gap :: gaps', (tag, body) :: blocks' =>
      gap ++ FENCE ++ tag ++ [LF] ++ body ++ FENCE ++ weave gaps' blocks' closing
  | _, _ => closing
  end.

(** * Properties *)

Unset Implicit Arguments.

(** ** Strings *)

Lemma len_app (a b : jsstring) : len (a ++ b) = len a + len b.
Proof. unfold len. rewrite length_app. lia. Qed.

Lemma len_nonneg (s : jsstring) : 0 <= len s.
Proof. unfold len. lia. Qed.

Lemma len_cons (c : char) (s : jsstring) : len (c :: s) = 1 + len s.
Proof. unfold len. simpl length. lia. Qed.

Lemma trimStart_app (a b : jsstring) :
  trimStart (a ++ b) =
  match trimStart a with [] => trimStart b | r => r ++ b end.
Proof.
  induction a as [|c a IH]; simpl.
  - destruct (trimStart b); reflexivity.
  - destruct (isSpace c); [exact IH | reflexivity].
Qed.

Lemma trimEnd_app (x y : jsstring) :
  trimEnd (x ++ y) =
  match trimEnd y with [] => trimEnd x | r => x ++ r end.
Proof.
  unfold trimEnd. rewrite rev_app_distr, trimStart_app.
  destruct (trimStart (rev y)) as [|c r] eqn:E; simpl.
  - reflexivity.
  - destruct (rev r ++ [c]) eqn:E2.
    + destruct (rev r); discriminate.
    + rewrite <- E2. rewrite rev_app_distr, rev_involutive. simpl.
      rewrite <- app_assoc. reflexivity.
Qed.

Lemma trimEnd_cons_keep (c : char) (s : jsstring) :
  isSpace c = false -> trimEnd (c :: s) = c :: trimEnd s.
Proof.
  intros Hc. change (c :: s) with ([c] ++ s). rewrite trimEnd_app.
  destruct (trimEnd s) eqn:E; [|reflexivity].
  unfold trimEnd. simpl. rewrite Hc. reflexivity.
Qed.

Lemma trim_cons_keep (c : char) (s : jsstring) :
  isSpace c = false -> trim (c :: s) = c :: trimEnd s.
Proof.
  intros Hc. unfold trim. simpl. rewrite Hc. apply trimEnd_cons_keep, Hc.
Qed.

Lemma trimEnd_snoc_keep (s : jsstring) (c : char) :
  isSpace c = false -> trimEnd (s ++ [c]) = s ++ [c].
Proof.
  intros Hc. rewrite trimEnd_app. unfold trimEnd at 1. simpl. rewrite Hc. reflexivity.
Qed.

Lemma trim_id_ends (c d : char) (m : jsstring) :
  isSpace c = false -> isSpace d = false ->
  trim (c :: m ++ [d]) = c :: m ++ [d].
Proof.
  intros Hc Hd. rewrite trim_cons_keep by exact Hc.
  now rewrite trimEnd_snoc_keep.
Qed.

Lemma trimStart_length (s : jsstring) : (length (trimStart s) <= length s)%nat.
Proof.
  induction s as [|c s IH]; simpl; [lia|].
  destruct (isSpace c); simpl; lia.
Qed.

Lemma trim_len (s : jsstring) : len (trim s) <= len s.
Proof.
  unfold trim, trimEnd, len. rewrite length_rev.
  pose proof (trimStart_length (rev (trimStart s))) as H1.
  rewrite length_rev in H1. pose proof (trimStart_length s). lia.
Qed.




Lemma spanClass_app (p : char -> bool) (s : jsstring) :
  s = fst (spanClass p s) ++ snd (spanClass p s)
  /\ forallb p (fst (spanClass p s)) = true.
Proof.
  induction s as [|c t [IH1 IH2]]; [split; reflexivity|].
  cbn [spanClass]. destruct (p c) eqn:E; cbn [fst snd app forallb].
  - rewrite E, IH2. split; [now rewrite <- IH1 | reflexivity].
  - split; reflexivity.
Qed.


(** ** Reference digest *)


Ltac caps := unfold MAX_REFERENCE_LENGTH, MAX_TOTAL_REFERENCE_LENGTH in *;
             change (len TRUNCATION_MARKER) with 16 in *.















(** ** Document assembly *)

Ltac norm_app :=
  cbn [app]; repeat (rewrite <- app_assoc || rewrite <- app_comm_cons); cbn [app].

Lemma str_eqb_eq (a b : jsstring) : str_eqb a b = true <-> a = b.
Proof.
  revert b. induction a as [|x a IH]; intros [|y b]; simpl; split; intros H;
    try reflexivity; try discriminate.
  - apply andb_true_iff in H as [H1 H2]. apply N.eqb_eq in H1. apply IH in H2.
    congruence.
  - injection H as -> ->. apply andb_true_iff. split; [apply N.eqb_refl | now apply IH].
Qed.

Lemma trim_keeps_suffix (a b : jsstring) (c d : char) (m : jsstring) :
  b = c :: m ++ [d] -> isSpace c = false -> isSpace d = false ->
  exists a', trim (a ++ b) = a' ++ b.
Proof.
  intros Hb Hc Hd.
  assert (Hend : trimEnd b = b).
  { rewrite Hb. change (c :: m ++ [d]) with ((c :: m) ++ [d]).
    now apply trimEnd_snoc_keep. }
  assert (Hstart : exists a', trimStart (a ++ b) = a' ++ b).
  { rewrite trimStart_app. destruct (trimStart a) as [|x r].
    - exists []. rewrite Hb. simpl. now rewrite Hc.
    - exists (x :: r). reflexivity. }
  destruct Hstart as [a' Ha']. exists a'. unfold trim. rewrite Ha', trimEnd_app, Hend.
  rewrite Hb. reflexivity.
Qed.

Lemma assemble_shape (markdown skeleton : jsstring) :
  assembleDocument markdown skeleton
  = trim markdown ++ [LF; LF] ++ js "## Boilerplate Glider Skeleton" ++ [LF; LF]
    ++ js "Use this scaffold as a starting point while following official Glider examples."
    ++ [LF; LF] ++ fencedSkeleton skeleton.
Proof.
  unfold assembleDocument, fencedSkeleton. cbn [join].
  repeat rewrite <- app_assoc. reflexivity.
Qed.

Lemma fencedSkeleton_ends (skeleton : jsstring) :
  exists m, fencedSkeleton skeleton = 96%N :: m ++ [96%N].
Proof.
  exists (js "``python" ++ [LF; LF] ++ skeleton ++ [LF; LF] ++ js "``").
  unfold fencedSkeleton, FENCE_OPEN, FENCE_CLOSE.
  change (js "```python") with (96%N :: js "``python").
  change (js "```") with (js "``" ++ [96%N]).
  simpl. repeat rewrite <- app_assoc. reflexivity.
Qed.

Lemma finish_assemble_ends (markdown skeleton : jsstring) :
  exists body,
    finish (assembleDocument markdown skeleton)
    = body ++ fencedSkeleton skeleton ++ [LF].
Proof.
  rewrite assemble_shape. unfold finish.
  destruct (fencedSkeleton_ends skeleton) as [m Hm].
  set (mid := [LF; LF] ++ js "## Boilerplate Glider Skeleton" ++ [LF; LF]
    ++ js "Use this scaffold as a starting point while following official Glider examples."
    ++ [LF; LF]).
  replace (trim markdown ++ [LF; LF] ++ js "## Boilerplate Glider Skeleton" ++ [LF; LF]
    ++ js "Use this scaffold as a starting point while following official Glider examples."
    ++ [LF; LF] ++ fencedSkeleton skeleton)
    with ((trim markdown ++ mid) ++ fencedSkeleton skeleton)
    by (unfold mid; repeat rewrite <- app_assoc; reflexivity).
  destruct (@trim_keeps_suffix (trim markdown ++ mid) _ _ _ _ Hm) as [a' Ha']; try reflexivity.
  exists a'. rewrite Ha'. rewrite <- app_assoc. reflexivity.
Qed.


Lemma orElse_nonempty (a b : jsstring) : b <> [] -> orElse a b <> [].
Proof. intros Hb. unfold orElse. destruct a; simpl; [exact Hb | discriminate]. Qed.

Lemma failureNotice_trimEnd (error : Thrown) :
  exists notice, trimEnd (failureNotice error) = 62%N :: notice.
Proof.
  unfold failureNotice.
  change (js "> AI fallback notice: ") with (62%N :: js " AI fallback notice: ").
  cbn [app]. rewrite trimEnd_cons_keep by reflexivity. eexists. reflexivity.
Qed.

Lemma buildFallbackDocument_shape (context : BreakdownGenerationContext) (failure : Thrown) :
  exists excerpt artifactList guidance,
    excerpt <> [] /\
    buildFallbackDocument context failure
    = 35%N :: (js " " ++ title (metadata (report context)) ++ js " Breakdown" ++ [LF; LF]
          ++ HEADING_BREAKDOWN ++ [LF; LF] ++ excerpt ++ [LF; LF]
          ++ HEADING_EVIDENCE ++ [LF; LF] ++ artifactList ++ [LF; LF]
          ++ HEADING_BLUEPRINT ++ [LF; LF] ++ guidance ++ [LF; LF; LF; LF])
       ++ failureNotice failure.
Proof.
  unfold buildFallbackDocument.
  set (excerpt := orElse _ _).
  set (referenceTitles := match referenceBreakdowns context with [] => _ | _ :: _ => _ end).
  set (artifactList := match artifacts (report context) with [] => _ | _ :: _ => _ end).
  exists excerpt, artifactList, (blueprintGuidance referenceTitles).
  split.
  { apply orElse_nonempty. discriminate. }
  cbn [join]. change (js "# ") with (35%N :: js " ").
  norm_app. reflexivity.
Qed.

Lemma staticDocument_shape (context : BreakdownGenerationContext) (failure : Thrown) :
  staticShape (title (metadata (report context))) (staticDocument context failure).
Proof.
  unfold staticShape, staticDocument.
  destruct (failureNotice_trimEnd failure) as [notice Hn].
  destruct (buildFallbackDocument_shape context failure)
    as (excerpt & artifactList & guidance & Hne & Hfb).
  exists excerpt, artifactList, guidance, (62%N :: notice).
  split; [exact Hne|].
  set (T := title (metadata (report context))) in *.
  set (X := js " " ++ T ++ js " Breakdown" ++ [LF; LF]
          ++ HEADING_BREAKDOWN ++ [LF; LF] ++ excerpt ++ [LF; LF]
          ++ HEADING_EVIDENCE ++ [LF; LF] ++ artifactList ++ [LF; LF]
          ++ HEADING_BLUEPRINT ++ [LF; LF] ++ guidance
          ++ [LF; LF; LF; LF]) in *.
  assert (Htrim : trim (buildFallbackDocument context failure)
                  = 35%N :: X ++ 62%N :: notice).
  { rewrite Hfb, trim_cons_keep by reflexivity. rewrite trimEnd_app, Hn. reflexivity. }
  rewrite assemble_shape, Htrim. unfold finish.
  destruct (fencedSkeleton_ends buildGliderSkeleton) as [m Hm]. rewrite Hm.
  match goal with
  | |- trim ?s ++ _ = _ =>
      replace s with (35%N :: (X ++ 62%N :: notice ++ [LF; LF]
        ++ js "## Boilerplate Glider Skeleton" ++ [LF; LF]
        ++ js "Use this scaffold as a starting point while following official Glider examples."
        ++ [LF; LF] ++ 96%N :: m) ++ [96%N])
  end.
  2:{ norm_app. reflexivity. }
  rewrite trim_id_ends by reflexivity.
  unfold X. change (js "# ") with (35%N :: js " ").
  norm_app. reflexivity.
Qed.

(** ** Generation orchestrator *)

Section Tiers.

Variable w : World.
Variable context : BreakdownGenerationContext.

(** A tier makes exactly one backend call, whatever its outcome. *)
Lemma tryGenerateMarkdown_trace (modelId : jsstring) (t : Trace) :
  exists o, tryGenerateMarkdown w context modelId t
            = (o, t ++ [primaryCall w context modelId]).
Proof.
  unfold tryGenerateMarkdown, primaryCall, callLocalModel, bind, call, liftOutcome,
    ret, throw.
  destruct (LOCAL_LLM_ENABLED w).
  - destruct (fetchLocal w t _ _ _) as [response|e]; [|eexists; reflexivity].
    destruct (negb (resp_ok response)); [eexists; reflexivity|].
    destruct (resp_json response) as [payload|e]; [|eexists; reflexivity].
    destruct (p_error payload) as [[|c e]|];
      try (eexists; reflexivity);
      destruct (truthy (trim (nullish (p_response payload) [])));
      try (eexists; reflexivity);
      destruct (truthy (sanitizeModelResponse (nullish (p_response payload) [])));
      eexists; reflexivity.
  - destruct (generateText w t modelId (buildPrompt context)) as [text|e];
      [|eexists; reflexivity].
    destruct (truthy text); [|eexists; reflexivity].
    destruct (truthy (sanitizeModelResponse text)); eexists; reflexivity.
Qed.

(** The three tiers of [generateBreakdownDocument], read off its
    [try]/[catch] nest. *)
Lemma generateBreakdownDocument_tiers (modelIdOption : option jsstring) (t : Trace) :
  let modelId := nullish modelIdOption DEFAULT_MODEL_ID in
  generateBreakdownDocument w context modelIdOption t =
  match tryGenerateMarkdown w context modelId t with
  | (Ok markdown, t1) => (Ok (finish (assembleDocument markdown buildGliderSkeleton)), t1)
  | (Throw primaryError, t1) =>
      if secondTierEnabled w modelId then
        match tryGenerateMarkdown w context FALLBACK_MODEL_ID t1 with
        | (Ok markdown, t2) =>
            (Ok (finish (assembleDocument markdown buildGliderSkeleton)), t2)
        | (Throw fallbackError, t2) => (Ok (staticDocument context fallbackError), t2)
        end
      else (Ok (staticDocument context primaryError), t1)
  end.
Proof.
  intros modelId. unfold generateBreakdownDocument, tryCatch, bind, ret, secondTierEnabled.
  fold modelId.
  destruct (tryGenerateMarkdown w context modelId t) as [[markdown|e1] t1]; [reflexivity|].
  destruct (negb (LOCAL_LLM_ENABLED w) && negb (str_eqb modelId FALLBACK_MODEL_ID));
    [|reflexivity].
  destruct (tryGenerateMarkdown w context FALLBACK_MODEL_ID t1) as [[markdown|e2] t2];
    reflexivity.
Qed.

Lemma secondTier_call (modelId : jsstring) :
  secondTierEnabled w modelId = true ->
  primaryCall w context FALLBACK_MODEL_ID = fallbackCall context.
Proof.
  unfold secondTierEnabled, primaryCall, fallbackCall. intros H.
  apply andb_true_iff in H as [H _]. destruct (LOCAL_LLM_ENABLED w); [discriminate|].
  reflexivity.
Qed.

Lemma secondTierEnabled_iff (modelId : jsstring) :
  secondTierEnabled w modelId = true
  <-> LOCAL_LLM_ENABLED w = false /\ modelId <> FALLBACK_MODEL_ID.
Proof.
  unfold secondTierEnabled. rewrite andb_true_iff, !negb_true_iff. split.
  - intros [H1 H2]. split; [exact H1|]. intros Heq. apply str_eqb_eq in Heq. congruence.
  - intros [H1 H2]. split; [exact H1|].
    destruct (str_eqb modelId FALLBACK_MODEL_ID) eqn:E; [|reflexivity].
    apply str_eqb_eq in E. contradiction.
Qed.

(** The events a request adds to the trace: the primary call, and the
    fallback call exactly when the primary tier failed and the second tier
    is enabled. *)
Lemma generateBreakdownDocument_trace (modelIdOption : option jsstring) (t : Trace) :
  let modelId := nullish modelIdOption DEFAULT_MODEL_ID in
  exists o1 doc,
    tryGenerateMarkdown w context modelId t = (o1, t ++ [primaryCall w context modelId])
    /\ generateBreakdownDocument w context modelIdOption t
       = (Ok doc,
          t ++ primaryCall w context modelId
               :: match o1 with
                  | Ok _ => []
                  | Throw _ =>
                      if secondTierEnabled w modelId then [fallbackCall context] else []
                  end)
    /\ match o1 with
       | Ok markdown => doc = finish (assembleDocument markdown buildGliderSkeleton)
       | Throw primaryError =>
           if secondTierEnabled w modelId then
             match fst (tryGenerateMarkdown w context FALLBACK_MODEL_ID
                          (t ++ [primaryCall w context modelId])) with
             | Ok markdown => doc = finish (assembleDocument markdown buildGliderSkeleton)
             | Throw fallbackError => doc = staticDocument context fallbackError
             end
           else doc = staticDocument context primaryError
       end.
Proof.
  intros modelId.
  destruct (tryGenerateMarkdown_trace modelId t) as [o1 H1].
  pose proof (generateBreakdownDocument_tiers modelIdOption t) as Hg.
  cbv zeta in Hg. fold modelId in Hg. rewrite H1 in Hg.
  exists o1. destruct o1 as [markdown|e1].
  - eexists. split; [exact H1|]. split; [exact Hg | reflexivity].
  - destruct (secondTierEnabled w modelId) eqn:E.
    + destruct (tryGenerateMarkdown_trace FALLBACK_MODEL_ID
                  (t ++ [primaryCall w context modelId])) as [o2 H2].
      rewrite (secondTier_call modelId E) in H2. rewrite H2 in Hg |- *.
      rewrite <- app_assoc in Hg. cbn [app] in Hg.
      destruct o2 as [markdown|e2]; eexists; (split; [exact H1|]);
        (split; [exact Hg | reflexivity]).
    + eexists. split; [exact H1|]. split; [exact Hg | reflexivity].
Qed.

End Tiers.

(** C1: [generateBreakdownDocument] never throws: from every trace it
    returns a document.  When the primary tier fails and the fallback tier,
    where it is enabled, fails too, the document is the static one; and the
    static document, for any context (an empty report included) and any
    failure, carries the four mandated headings in order and ends with the
    skeleton inside a fenced block. *)
Theorem generation_never_throws (w : World) (context : BreakdownGenerationContext)
    (modelIdOption : option jsstring) (t : Trace) :
  let modelId := nullish modelIdOption DEFAULT_MODEL_ID in
  (exists doc t', generateBreakdownDocument w context modelIdOption t = (Ok doc, t'))
  /\ (forall primaryError t1,
        tryGenerateMarkdown w context modelId t = (Throw primaryError, t1) ->
        (secondTierEnabled w modelId = true ->
         exists fallbackError t2,
           tryGenerateMarkdown w context FALLBACK_MODEL_ID t1 = (Throw fallbackError, t2)) ->
        exists failure t',
          generateBreakdownDocument w context modelIdOption t
          = (Ok (staticDocument context failure), t'))
  /\ (forall failure,
        staticShape (title (metadata (report context))) (staticDocument context failure)).
Proof.
  intros modelId. split; [|split].
  - destruct (generateBreakdownDocument_trace w context modelIdOption t)
      as (o1 & doc & _ & Hg & _).
    eexists. eexists. exact Hg.
  - intros primaryError t1 H1 H2.
    rewrite generateBreakdownDocument_tiers. cbv zeta. fold modelId. rewrite H1.
    destruct (secondTierEnabled w modelId).
    + destruct (H2 eq_refl) as (fallbackError & t2 & Hf). rewrite Hf.
      eexists. eexists. reflexivity.
    + eexists. eexists. reflexivity.
  - intros failure. apply staticDocument_shape.
Qed.

Lemma generation_never_throws_witness :
  tryGenerateMarkdown failingWorld sampleContext DEFAULT_MODEL_ID []
  = (Throw (JsError (js "quota exceeded")),
     [primaryCall failingWorld sampleContext DEFAULT_MODEL_ID])
  /\ exists failure t',
       generateBreakdownDocument failingWorld sampleContext None []
       = (Ok (staticDocument sampleContext failure), t').
Proof.
  split; [reflexivity|].
  destruct (generation_never_throws failingWorld sampleContext None []) as [_ [H _]].
  apply (H (JsError (js "quota exceeded"))
           [primaryCall failingWorld sampleContext DEFAULT_MODEL_ID]).
  - reflexivity.
  - intros _. exists (JsError (js "quota exceeded")).
    exists [primaryCall failingWorld sampleContext DEFAULT_MODEL_ID;
            fallbackCall sampleContext].
    reflexivity.
Defined.

(** C7: the request's trace is the primary call, followed by the fallback
    call exactly when the primary tier failed, the local-development
    override is off and the primary model identifier differs from the
    fallback identifier; nothing else is called.  With the override on, a
    failure of the first tier yields the static document after that single
    call. *)
Theorem fallback_tier_rule (w : World) (context : BreakdownGenerationContext)
    (modelIdOption : option jsstring) (t : Trace) :
  let modelId := nullish modelIdOption DEFAULT_MODEL_ID in
  let first := primaryCall w context modelId in
  let second := fallbackCall context in
  exists o1 doc t',
    tryGenerateMarkdown w context modelId t = (o1, t ++ [first])
    /\ generateBreakdownDocument w context modelIdOption t = (Ok doc, t')
    /\ (t' = t ++ [first; second]
        <-> (exists e, o1 = Throw e)
            /\ LOCAL_LLM_ENABLED w = false /\ modelId <> FALLBACK_MODEL_ID)
    /\ (t' = t ++ [first] \/ t' = t ++ [first; second])
    /\ (LOCAL_LLM_ENABLED w = true ->
        forall e, o1 = Throw e ->
                  doc = staticDocument context e /\ t' = t ++ [first]).
Proof.
  intros modelId first second.
  destruct (generateBreakdownDocument_trace w context modelIdOption t)
    as (o1 & doc & H1 & Hg & Hdoc).
  fold modelId in H1, Hg, Hdoc. fold first in H1, Hg, Hdoc. fold second in Hg.
  exists o1, doc. eexists. split; [exact H1|]. split; [exact Hg|].
  assert (Hlen : forall a b : Event, t ++ [a] <> t ++ [a; b]).
  { intros a b Heq. apply (f_equal (@length Event)) in Heq.
    rewrite !length_app in Heq. simpl in Heq. lia. }
  pose proof (secondTierEnabled_iff w modelId) as Hiff.
  destruct o1 as [markdown|e1].
  - split; [|split].
    + split.
      * intros Heq. exfalso. exact (Hlen _ _ Heq).
      * intros [[e He] _]. discriminate.
    + left. reflexivity.
    + intros _ e He. discriminate.
  - destruct (secondTierEnabled w modelId) eqn:E.
    + destruct (proj1 Hiff eq_refl) as [Hl Hm]. split; [|split].
      * split; [intros _; split; [eexists; reflexivity | split; assumption]
               | intros _; reflexivity].
      * right. reflexivity.
      * intros Hl'. congruence.
    + split; [|split].
      * split.
        -- intros Heq. exfalso. exact (Hlen _ _ Heq).
        -- intros [_ Hc]. apply Hiff in Hc. discriminate.
      * left. reflexivity.
      * intros _ e He. injection He as <-. split; [exact Hdoc | reflexivity].
Qed.

Lemma fallback_tier_rule_witness :
  LOCAL_LLM_ENABLED localWorld = true
  /\ exists e,
       generateBreakdownDocument localWorld sampleContext None []
       = (Ok (staticDocument sampleContext e),
          [primaryCall localWorld sampleContext DEFAULT_MODEL_ID]).
Proof.
  split; [reflexivity|].
  destruct (fallback_tier_rule localWorld sampleContext None [])
    as (o1 & doc & t' & H1 & Hg & _ & _ & Hlocal).
  assert (Ho : o1 = Throw JsOther).
  { assert (E : fst (tryGenerateMarkdown localWorld sampleContext DEFAULT_MODEL_ID [])
                = Throw JsOther) by reflexivity.
    change (nullish None DEFAULT_MODEL_ID) with DEFAULT_MODEL_ID in H1.
    rewrite H1 in E. exact E. }
  destruct (Hlocal eq_refl JsOther Ho) as [Hd Ht].
  exists JsOther. rewrite Hg, Hd, Ht. reflexivity.
Defined.

(** C8: the assembled document starts with the trimmed body and ends with
    the skeleton, verbatim, inside a fenced block; and every document the
    orchestrator returns, for any world, context, model option and trace,
    ends with that same constant skeleton block. *)
Theorem assemble_contains_body_and_skeleton (markdown skeleton : jsstring) :
  (exists rest, assembleDocument markdown skeleton = trim markdown ++ rest)
  /\ (exists pre, assembleDocument markdown skeleton = pre ++ fencedSkeleton skeleton)
  /\ (forall (w : World) (context : BreakdownGenerationContext)
             (modelIdOption : option jsstring) (t : Trace),
        exists body,
          fst (generateBreakdownDocument w context modelIdOption t)
          = Ok (body ++ fencedSkeleton buildGliderSkeleton ++ [LF])).
Proof.
  split; [|split].
  - rewrite assemble_shape. eexists. reflexivity.
  - rewrite assemble_shape. eexists.
    repeat rewrite app_assoc. reflexivity.
  - intros w context modelIdOption t.
    destruct (generateBreakdownDocument_trace w context modelIdOption t)
      as (o1 & doc & _ & Hg & Hdoc).
    rewrite Hg. cbn [fst]. unfold staticDocument in Hdoc.
    assert (Hfin : forall md, exists body,
               finish (assembleDocument md buildGliderSkeleton)
               = body ++ fencedSkeleton buildGliderSkeleton ++ [LF])
      by (intros md; apply finish_assemble_ends).
    destruct o1 as [md1|e1].
    + destruct (Hfin md1) as [b Hb]. exists b. rewrite Hdoc, Hb. reflexivity.
    + destruct (secondTierEnabled w (nullish modelIdOption DEFAULT_MODEL_ID)).
      * destruct (fst (tryGenerateMarkdown w context FALLBACK_MODEL_ID _)) as [md|e2].
        -- destruct (Hfin md) as [b Hb]. exists b. rewrite Hdoc, Hb. reflexivity.
        -- destruct (Hfin (buildFallbackDocument context e2)) as [b Hb].
           exists b. rewrite Hdoc, Hb. reflexivity.
      * destruct (Hfin (buildFallbackDocument context e1)) as [b Hb].
        exists b. rewrite Hdoc, Hb. reflexivity.
Qed.

(** C10: a request whose markdown field is missing or empty is answered
    with status 400 and the error [Missing markdown payload], and leaves the
    trace as it was: the clock is not read, nothing is loaded, no backend is
    called.  Any other markdown is parsed, the content is loaded, and the
    answer has status 200. *)
Theorem missing_markdown_rejected (w : World) (toLowerCase : jsstring -> jsstring)
    (payload : RequestBody) (t : Trace) :
  (rq_markdown payload = None \/ rq_markdown payload = Some [] ->
   POST w toLowerCase (Ok payload) t = (Ok missingMarkdownResponse, t))
  /\ (forall c markdown,
        rq_markdown payload = Some (c :: markdown) ->
        exists document calls,
          POST w toLowerCase (Ok payload) t
          = (Ok {| status := 200;
                   body := DocumentBody document (js "vulnerability-breakdown.md") |},
             t ++ EvNow :: EvLoadGliderTemplates :: EvLoadBreakdownReferences :: calls)).
Proof.
  split.
  - intros [H|H]; unfold POST, tryCatch, bind, liftOutcome, ret; rewrite H; reflexivity.
  - intros c markdown H.
    unfold POST, tryCatch, bind, liftOutcome, ret, parseVulnerabilityReport,
      loadGliderTemplates, loadBreakdownReferences, call, bind, ret.
    rewrite H.
    match goal with
    | |- context [generateBreakdownDocument w ?ctx None ?tr] =>
        destruct (generateBreakdownDocument_trace w ctx None tr)
          as (o1 & doc & _ & Hg & _); rewrite Hg
    end.
    eexists. eexists. repeat rewrite <- app_assoc. cbn [app]. reflexivity.
Qed.

Lemma missing_markdown_rejected_witness :
  POST failingWorld asciiToLowerCase
       (Ok {| rq_markdown := Some []; rq_source := None |}) []
  = (Ok missingMarkdownResponse, []).
Proof.
  apply (missing_markdown_rejected failingWorld asciiToLowerCase
           {| rq_markdown := Some []; rq_source := None |} []).
  right. reflexivity.
Defined.

(** ** Vulnerability type *)

Lemma scanPatterns_find (patterns : list (jsstring * regex)) (text default : jsstring) :
  scanPatterns patterns text default
  = match find (fun p => test (snd p) text) patterns with
    | Some (type, _) => type
    | None => default
    end.
Proof.
  induction patterns as [|[type pattern] others IH]; cbn [scanPatterns find snd].
  - reflexivity.
  - destruct (test pattern text); [reflexivity | exact IH].
Qed.

Lemma tags_not_unknown :
  Forall (fun p => str_eqb (fst p) UNKNOWN = false) vulnTypePatterns.
Proof. repeat constructor. Qed.

Lemma firstMatch_tag (text type : jsstring) (pattern : regex) :
  firstMatch text = Some (type, pattern) ->
  In type (map fst vulnTypePatterns) /\ str_eqb type UNKNOWN = false.
Proof.
  intros H. apply find_some in H as [Hin _]. split.
  - apply (in_map fst) in Hin. exact Hin.
  - pose proof tags_not_unknown as Hall. rewrite Forall_forall in Hall.
    exact (Hall _ Hin).
Qed.

Section VulnType.

Variable toLowerCase : jsstring -> jsstring.

Lemma extractVulnType_firstMatch (title markdown : jsstring) :
  extractVulnType toLowerCase title markdown
  = match firstMatch (toLowerCase title) with
    | Some (type, _) => type
    | None =>
        match firstMatch (substring0 markdown 500) with
        | Some (type, _) => type
        | None => UNKNOWN
        end
    end.
Proof.
  unfold extractVulnType. rewrite !scanPatterns_find. fold (firstMatch (toLowerCase title)).
  fold (firstMatch (substring0 markdown 500)).
  destruct (firstMatch (toLowerCase title)) as [[type pattern]|] eqn:E.
  - destruct (firstMatch_tag _ _ _ E) as [_ Hne]. rewrite Hne. reflexivity.
  - reflexivity.
Qed.

End VulnType.

(** C4, as stated, fails: the title of this report has an access-control
    cue and a validation cue, yet the tag is [reentrancy], because that
    pattern comes first in the list. *)
Lemma both_cues_not_access_control :
  title (metadata (parseReport asciiToLowerCase [] reportBothCues None)) = titleBothCues
  /\ test Patterns.accessControl (asciiToLowerCase titleBothCues) = true
  /\ test Patterns.validation (asciiToLowerCase titleBothCues) = true
  /\ vulnType (metadata (parseReport asciiToLowerCase [] reportBothCues None))
     = js "reentrancy".
Proof. repeat split; vm_compute; reflexivity. Qed.

(** C4 (amended): the tag is that of the first pattern, in list order, that
    matches the lower-cased title; if none matches, that of the first pattern
    that matches the first 500 characters of the document; otherwise
    [unknown].  It is always one of the listed tags or [unknown], and what
    follows the first 500 characters has no influence.  A title with an
    access-control cue is tagged [access-control], whether or not it has a
    validation cue, unless it also has a reentrancy cue, which wins. *)
Theorem vulnType_first_match_wins (toLowerCase : jsstring -> jsstring)
    (nowIso : jsstring) (source : option jsstring) (markdown : jsstring) :
  let report := parseReport toLowerCase nowIso markdown source in
  let titleLower := toLowerCase (title (metadata report)) in
  let tag := vulnType (metadata report) in
  tag
  = match firstMatch titleLower with
    | Some (type, _) => type
    | None =>
        match firstMatch (substring0 markdown 500) with
        | Some (type, _) => type
        | None => js "unknown"
        end
    end
  /\ In tag (js "unknown" :: map fst vulnTypePatterns)
  /\ (test Patterns.reentrancy titleLower = false ->
      test Patterns.accessControl titleLower = true ->
      tag = js "access-control")
  /\ (test Patterns.reentrancy titleLower = true -> tag = js "reentrancy")
  /\ (forall title markdown',
        substring0 markdown' 500 = substring0 markdown 500 ->
        extractVulnType toLowerCase title markdown'
        = extractVulnType toLowerCase title markdown).
Proof.
  intros report titleLower tag. unfold tag, report, parseReport.
  cbn [metadata vulnType].
  rewrite extractVulnType_firstMatch.
  change (toLowerCase (extractTitle markdown)) with titleLower.
  split; [reflexivity|]. split; [|split; [|split]].
  - destruct (firstMatch titleLower) as [[type pattern]|] eqn:E.
    + right. exact (proj1 (firstMatch_tag _ _ _ E)).
    + destruct (firstMatch (substring0 markdown 500)) as [[type pattern]|] eqn:E2.
      * right. exact (proj1 (firstMatch_tag _ _ _ E2)).
      * left. reflexivity.
  - intros Hr Ha. unfold firstMatch, vulnTypePatterns. cbn [find snd].
    rewrite Hr, Ha. reflexivity.
  - intros Hr. unfold firstMatch, vulnTypePatterns. cbn [find snd].
    rewrite Hr. reflexivity.
  - intros title markdown' Heq. rewrite !extractVulnType_firstMatch.
    rewrite Heq. reflexivity.
Qed.

Lemma vulnType_first_match_wins_witness :
  test Patterns.validation (asciiToLowerCase titleAccessAndValidation) = true
  /\ vulnType (metadata (parseReport asciiToLowerCase [] reportAccessAndValidation None))
     = js "access-control".
Proof.
  split; [reflexivity|].
  destruct (vulnType_first_match_wins asciiToLowerCase [] None reportAccessAndValidation)
    as (_ & _ & H & _).
  apply H; vm_compute; reflexivity.
Defined.

(** ** The matcher on the constructs of the code-block pattern *)

Definition stepOver (s : mstate) (c : char) (t : jsstring) : mstate :=
  {| before := Some c; rest := t; caps := caps s |}.

Lemma rmatch_char (p : char -> bool) (s : mstate) :
  rmatch (RChar p) s
  = match rest s with
    | c :: t => if p c then [stepOver s c t] else []
    | [] => []
    end.
Proof. reflexivity. Qed.

Lemma rmatch_ch (c : char) (s : mstate) :
  rmatch (ch c) s
  = match rest s with
    | x :: t => if char_eqb c x then [stepOver s x t] else []
    | [] => []
    end.
Proof. reflexivity. Qed.

Lemma rmatch_seq (a b : regex) (s : mstate) :
  rmatch (RSeq a b) s = flat_map (rmatch b) (rmatch a s).
Proof. reflexivity. Qed.

Lemma rmatch_star (greedy : bool) (a : regex) (s : mstate) :
  rmatch (RStar greedy a) s = starLoop (rmatch a) greedy (S (length (rest s))) s.
Proof. reflexivity. Qed.

Lemma starLoop_S (body : mstate -> list mstate) (greedy : bool) (fuel : nat) (s : mstate) :
  starLoop body greedy (S fuel) s
  = if greedy
    then flat_map (starLoop body greedy fuel) (filter (progress s) (body s)) ++ [s]
    else s :: flat_map (starLoop body greedy fuel) (filter (progress s) (body s)).
Proof. reflexivity. Qed.

(** A star over a character class: one more character if the class allows
    it, tried before stopping when greedy and after when lazy. *)
Lemma rmatch_star_char (greedy : bool) (p : char -> bool) (s : mstate) :
  rmatch (RStar greedy (RChar p)) s
  = match rest s with
    | c :: t =>
        if p c then
          if greedy then rmatch (RStar greedy (RChar p)) (stepOver s c t) ++ [s]
          else s :: rmatch (RStar greedy (RChar p)) (stepOver s c t)
        else [s]
    | [] => [s]
    end.
Proof.
  rewrite rmatch_star, starLoop_S, rmatch_char.
  destruct (rest s) as [|c t] eqn:Hr.
  - cbn [filter flat_map app]. destruct greedy; reflexivity.
  - destruct (p c) eqn:Hp.
    + cbn [filter]. unfold progress. rewrite Hr. cbn [stepOver rest length].
      assert (Hlt : (length t <? S (length t))%nat = true) by (apply Nat.ltb_lt; lia).
      rewrite Hlt. cbn [flat_map]. rewrite app_nil_r.
      rewrite rmatch_star. cbn [stepOver rest]. reflexivity.
    + cbn [filter flat_map app]. destruct greedy; reflexivity.
Qed.

Lemma isPrefix_fence (s : jsstring) :
  isPrefix FENCE s = true -> s = FENCE ++ skipn 3 s.
Proof.
  destruct s as [|a [|b [|c s]]]; intros H; cbn [isPrefix FENCE] in H;
    rewrite ?andb_false_r in H; try discriminate.
  unfold char_eqb in H.
  apply andb_true_iff in H as [Ha H]. apply andb_true_iff in H as [Hb H].
  apply andb_true_iff in H as [Hc _].
  apply N.eqb_eq in Ha, Hb, Hc. subst. reflexivity.
Qed.

Lemma rmatch_fence (s : mstate) :
  rmatch (lit "```") s
  = if isPrefix FENCE (rest s)
    then [{| before := Some BACKTICK; rest := skipn 3 (rest s); caps := caps s |}]
    else [].
Proof.
  change (lit "```") with (RSeq (ch BACKTICK) (RSeq (ch BACKTICK) (ch BACKTICK))).
  rewrite !rmatch_seq. unfold ch. rewrite rmatch_char.
  destruct (rest s) as [|a t1] eqn:Hr; [reflexivity|].
  cbn [isPrefix FENCE]. destruct (char_eqb BACKTICK a) eqn:Ea; [|reflexivity].
  apply N.eqb_eq in Ea. subst a.
  cbn [flat_map]. rewrite rmatch_seq, rmatch_char. cbn [stepOver rest].
  destruct t1 as [|b t2]; [reflexivity|].
  destruct (char_eqb BACKTICK b) eqn:Eb; [|reflexivity].
  apply N.eqb_eq in Eb. subst b.
  cbn [flat_map]. rewrite rmatch_char. cbn [stepOver rest caps].
  destruct t2 as [|c t3]; [reflexivity|].
  destruct (char_eqb BACKTICK c) eqn:Ec; [|reflexivity].
  apply N.eqb_eq in Ec. subst c. reflexivity.
Qed.

Lemma firstn_prefix (pre suf : jsstring) :
  firstn (length (pre ++ suf) - length suf) (pre ++ suf) = pre.
Proof.
  rewrite length_app. replace (length pre + length suf - length suf)%nat
    with (length pre + 0)%nat by lia.
  rewrite firstn_app_2. cbn [firstn]. apply app_nil_r.
Qed.

Lemma flat_map_map {A B C} (f : A -> B) (g : B -> list C) (l : list A) :
  flat_map g (map f l) = flat_map (fun x => g (f x)) l.
Proof. induction l as [|x l IH]; cbn; [reflexivity | now rewrite IH]. Qed.

(** The lazy [[\s\S]*?] followed by the closing fence stops at the first
    fence; group 2 is the text up to it. *)
Lemma lazy_until_fence (origin : mstate) (cs : list (nat * jsstring)) :
  forall suf pre b,
    rest origin = pre ++ suf ->
    match splitAtFence suf with
    | Some (body, after) =>
        exists tail,
          flat_map (rmatch (lit "```"))
            (map (setCap 2 origin)
                 (rmatch (lazystar anychar) {| before := b; rest := suf; caps := cs |}))
          = {| before := Some BACKTICK; rest := after; caps := (2%nat, pre ++ body) :: cs |}
            :: tail
    | None =>
        flat_map (rmatch (lit "```"))
          (map (setCap 2 origin)
               (rmatch (lazystar anychar) {| before := b; rest := suf; caps := cs |}))
        = []
    end.
Proof.
  induction suf as [|c t IH]; intros pre b Horigin;
    unfold lazystar, anychar in *; rewrite rmatch_star_char; cbn [rest].
  - cbn [map flat_map]. rewrite rmatch_fence. reflexivity.
  - cbn [map flat_map]. rewrite rmatch_fence. cbn [setCap rest caps before].
    cbn [splitAtFence]. destruct (isPrefix FENCE (c :: t)) eqn:Hp.
    + eexists. cbn [app]. rewrite Horigin, firstn_prefix, app_nil_r. reflexivity.
    + cbn [app]. specialize (IH (pre ++ [c]) (Some c)).
      rewrite <- app_assoc in IH. specialize (IH Horigin).
      unfold stepOver. cbn [caps].
      destruct (splitAtFence t) as [[body after]|].
      * destruct IH as [tail IH]. exists tail. rewrite IH.
        rewrite <- app_assoc. reflexivity.
      * exact IH.
Qed.

Lemma afterTag_match (s : mstate) :
  match rest s with
  | c :: afterNewline =>
      if char_eqb LF c then
        match splitAtFence afterNewline with
        | Some (body, after) =>
            exists tail,
              rmatch afterTagPattern s
              = {| before := Some BACKTICK; rest := after; caps := (2%nat, body) :: caps s |}
                :: tail
        | None => rmatch afterTagPattern s = []
        end
      else rmatch afterTagPattern s = []
  | [] => rmatch afterTagPattern s = []
  end.
Proof.
  change afterTagPattern
    with (RSeq (ch LF) (RSeq (RGroup 2 (lazystar anychar)) (lit "```"))).
  rewrite rmatch_seq, rmatch_ch.
  destruct (rest s) as [|c r3] eqn:Hr; [reflexivity|].
  destruct (char_eqb LF c) eqn:Ec; [|reflexivity].
  cbn [flat_map]. rewrite app_nil_r, rmatch_seq.
  change (rmatch (RGroup 2 (lazystar anychar)) (stepOver s c r3))
    with (map (setCap 2 (stepOver s c r3)) (rmatch (lazystar anychar) (stepOver s c r3))).
  pose proof (@lazy_until_fence (stepOver s c r3) (caps s) r3 [] (Some c) eq_refl) as H.
  unfold stepOver in *. destruct (splitAtFence r3) as [[body after]|]; exact H.
Qed.

Lemma isWord_not_LF (c : char) : isWord c = true -> char_eqb LF c = false.
Proof.
  intros H. destruct (char_eqb LF c) eqn:E; [|reflexivity].
  apply N.eqb_eq in E. subst c. discriminate.
Qed.

Lemma afterTag_word_start (s : mstate) (c : char) (t : jsstring) :
  rest s = c :: t -> isWord c = true -> rmatch afterTagPattern s = [].
Proof.
  intros Hr Hw. pose proof (afterTag_match s) as H. rewrite Hr in H.
  now rewrite (isWord_not_LF _ Hw) in H.
Qed.

(** A greedy run over word characters followed by something that cannot
    start with a word character: only the longest run goes through. *)
Lemma greedy_words_then (K : mstate -> list mstate) (cs : list (nat * jsstring)) :
  (forall s c t, rest s = c :: t -> isWord c = true -> K s = []) ->
  forall input b,
  exists b',
    flat_map K (rmatch (RStar true (RChar isWord))
                       {| before := b; rest := input; caps := cs |})
    = K {| before := b'; rest := snd (spanClass isWord input); caps := cs |}.
Proof.
  intros HK. induction input as [|c t IH]; intros b; rewrite rmatch_star_char; cbn [rest].
  - exists b. cbn [flat_map spanClass snd]. apply app_nil_r.
  - cbn [spanClass]. destruct (isWord c) eqn:Hw.
    + destruct (IH (Some c)) as [b' Hb']. exists b'.
      rewrite flat_map_app. unfold stepOver. cbn [caps flat_map snd].
      rewrite Hb', app_nil_r.
      rewrite (HK {| before := b; rest := c :: t; caps := cs |} c t eq_refl Hw).
      apply app_nil_r.
    + exists b. cbn [flat_map snd]. apply app_nil_r.
Qed.

Lemma spanWord_app (s : jsstring) : s = fst (spanClass isWord s) ++ snd (spanClass isWord s).
Proof.
  induction s as [|c t IH]; cbn [spanClass]; [reflexivity|].
  destruct (isWord c); cbn [fst snd app]; [now rewrite <- IH | reflexivity].
Qed.

Lemma optional_tag_then (K : mstate -> list mstate) (s1 : mstate) :
  (forall s c t, rest s = c :: t -> isWord c = true -> K s = []) ->
  exists b',
    flat_map K (rmatch (opt (RGroup 1 (plus word))) s1)
    = K {| before := b';
           rest := snd (spanClass isWord (rest s1));
           caps := tagCaps (fst (spanClass isWord (rest s1))) ++ caps s1 |}.
Proof.
  intros HK.
  change (rmatch (opt (RGroup 1 (plus word))) s1)
    with (map (setCap 1 s1) (flat_map (rmatch (RStar true (RChar isWord)))
                                      (rmatch (RChar isWord) s1)) ++ [s1]).
  rewrite flat_map_app, rmatch_char. cbn [flat_map]. rewrite app_nil_r.
  destruct s1 as [b r cs]. cbn [rest caps]. destruct r as [|c t].
  - exists b. reflexivity.
  - cbn [spanClass]. destruct (isWord c) eqn:Hw.
    + cbn [flat_map]. rewrite app_nil_r, flat_map_map. unfold stepOver. cbn [caps].
      destruct (@greedy_words_then
                  (fun x => K (setCap 1 {| before := b; rest := c :: t; caps := cs |} x))
                  cs) with (input := t) (b := Some c) as [b' Hb'].
      { intros s c0 t0 Hr Hw0. apply (HK _ c0 t0); [exact Hr | exact Hw0]. }
      exists b'. rewrite Hb'.
      rewrite (HK {| before := b; rest := c :: t; caps := cs |} c t eq_refl Hw).
      rewrite app_nil_r. unfold setCap. cbn [rest caps before fst snd tagCaps app].
      assert (Hf : firstn (length (c :: t) - length (snd (spanClass isWord t))) (c :: t)
                   = c :: fst (spanClass isWord t)).
      { pose proof (spanWord_app t) as Ht.
        transitivity
          (firstn (length ((c :: fst (spanClass isWord t)) ++ snd (spanClass isWord t))
                   - length (snd (spanClass isWord t)))
                  ((c :: fst (spanClass isWord t)) ++ snd (spanClass isWord t))).
        - cbn [app]. rewrite <- Ht. reflexivity.
        - apply firstn_prefix. }
      rewrite Hf. reflexivity.
    + exists b. reflexivity.
Qed.

(** The code-block pattern matches at a position exactly when a block opens
    there, and then ends after the first fence that follows the line feed. *)
Lemma codeBlock_at (b : option char) (input : jsstring) :
  match fenceAt input with
  | Some (tag, body, after) =>
      exists tail,
        rmatch Patterns.codeBlock (start b input)
        = {| before := Some BACKTICK; rest := after;
             caps := (2%nat, body) :: tagCaps tag |} :: tail
  | None => rmatch Patterns.codeBlock (start b input) = []
  end.
Proof.
  change Patterns.codeBlock
    with (RSeq (lit "```") (RSeq (opt (RGroup 1 (plus word))) afterTagPattern)).
  rewrite rmatch_seq, rmatch_fence. unfold fenceAt, start. cbn [rest caps].
  destruct (isPrefix FENCE input); [|reflexivity].
  cbn [flat_map]. rewrite app_nil_r, rmatch_seq.
  destruct (@optional_tag_then (rmatch afterTagPattern)
              {| before := Some BACKTICK; rest := skipn 3 input; caps := [] |})
    as [b' Hb'].
  { intros s c t. apply afterTag_word_start. }
  rewrite Hb'. cbn [rest caps]. rewrite app_nil_r.
  destruct (spanClass isWord (skipn 3 input)) as [tag afterTag]. cbn [fst snd].
  pose proof (afterTag_match {| before := b'; rest := afterTag; caps := tagCaps tag |}) as H.
  cbn [rest caps] in H.
  destruct afterTag as [|c afterNewline]; [exact H|].
  destruct (char_eqb LF c); [|exact H].
  destruct (splitAtFence afterNewline) as [[body after]|]; exact H.
Qed.

(** ** First matches *)

Lemma flat_map_ext_in {A B} (f g : A -> list B) (l : list A) :
  (forall x, In x l -> f x = g x) -> flat_map f l = flat_map g l.
Proof.
  induction l as [|x l IH]; intros H; cbn [flat_map]; [reflexivity|].
  rewrite (H x (or_introl eq_refl)), IH; [reflexivity|].
  intros y Hy. apply H. now right.
Qed.

(** Every iteration of a star shortens the input, so fuel above the length
    of the input never runs out. *)
Lemma starLoop_fuel (body : mstate -> list mstate) (greedy : bool) :
  forall n s fuel,
    (length (rest s) <= n)%nat -> (n < fuel)%nat ->
    starLoop body greedy fuel s = starLoop body greedy (S n) s.
Proof.
  induction n as [|n IH]; intros s fuel Hlen Hfuel;
    (destruct fuel as [|fuel]; [lia|]); rewrite !starLoop_S.
  - assert (Hnone : filter (progress s) (body s) = []).
    { induction (body s) as [|x l IHl]; [reflexivity|]. cbn [filter].
      unfold progress at 1.
      destruct (Nat.ltb_spec (length (rest x)) (length (rest s))); [lia | exact IHl]. }
    rewrite Hnone. reflexivity.
  - assert (Hsame : flat_map (starLoop body greedy fuel) (filter (progress s) (body s))
                    = flat_map (starLoop body greedy (S n)) (filter (progress s) (body s))).
    { apply flat_map_ext_in. intros x Hx. apply filter_In in Hx as [_ Hp].
      unfold progress in Hp. apply Nat.ltb_lt in Hp. apply IH; lia. }
    rewrite Hsame. reflexivity.
Qed.

Lemma flat_map_flat_map {A B C} (f : A -> list B) (g : B -> list C) (l : list A) :
  flat_map g (flat_map f l) = flat_map (fun x => flat_map g (f x)) l.
Proof.
  induction l as [|x l IH]; cbn [flat_map]; [reflexivity|].
  now rewrite flat_map_app, IH.
Qed.

Lemma rmatch_seq_assoc (a b c : regex) (s : mstate) :
  rmatch (RSeq (RSeq a b) c) s = rmatch (RSeq a (RSeq b c)) s.
Proof. cbn [rmatch]. apply flat_map_flat_map. Qed.

Lemma rmatch_seq_head (a b : regex) (s x : mstate) (l : list mstate) :
  rmatch a s = x :: l ->
  rmatch (RSeq a b) s = rmatch b x ++ flat_map (rmatch b) l.
Proof. intros H. rewrite rmatch_seq, H. reflexivity. Qed.

(** The first way a greedy star over a class matches is its longest run. *)
Lemma star_class_head (p : char -> bool) (cs : list (nat * jsstring)) :
  forall input b,
  exists b' l,
    rmatch (RStar true (RChar p)) {| before := b; rest := input; caps := cs |}
    = {| before := b'; rest := snd (spanClass p input); caps := cs |} :: l.
Proof.
  induction input as [|c t IH]; intros b; rewrite rmatch_star_char; cbn [rest spanClass].
  - exists b, []. reflexivity.
  - destruct (p c).
    + destruct (IH (Some c)) as (b' & l & H). exists b', (l ++ [{| before := b; rest := c :: t; caps := cs |}]).
      unfold stepOver. cbn [caps snd]. rewrite H. reflexivity.
    + exists b, []. reflexivity.
Qed.

Lemma spanClass_keeps (p q : char -> bool) (s : jsstring) :
  forallb q s = true -> forallb q (snd (spanClass p s)) = true.
Proof.
  induction s as [|c t IH]; intros H; cbn [spanClass]; [reflexivity|].
  cbn [forallb] in H. apply andb_true_iff in H as [Hc Ht].
  destruct (p c); cbn [snd forallb]; [auto | now rewrite Hc, Ht].
Qed.

Lemma spanClass_all (p : char -> bool) (s : jsstring) :
  forallb p s = true -> snd (spanClass p s) = [].
Proof.
  induction s as [|c t IH]; intros H; cbn [spanClass]; [reflexivity|].
  cbn [forallb] in H. apply andb_true_iff in H as [Hc Ht]. rewrite Hc. cbn [snd]. auto.
Qed.

(** ** Sanitization: the labelled-line pattern *)

Lemma labelledLine_split (s : mstate) :
  rmatch Sanitize.labelledLine s = flat_map (rmatch labelTail) (rmatch labelHead s).
Proof.
  change (flat_map (rmatch labelTail) (rmatch labelHead s))
    with (rmatch (RSeq labelHead labelTail) s).
  unfold labelHead. rewrite !rmatch_seq_assoc. reflexivity.
Qed.

(** After the label, on a text without line terminator, the pattern runs to
    the end of the text at its first attempt. *)
Lemma labelTail_to_end (answer : jsstring) (b : option char) (cs : list (nat * jsstring)) :
  forallb (fun c => negb (isLineTerminator c)) answer = true ->
  exists e l,
    rmatch labelTail {| before := b; rest := LF :: answer; caps := cs |} = e :: l
    /\ rest e = [].
Proof.
  intros Hline.
  set (notLT := fun c : char => negb (isLineTerminator c)) in *.
  change labelTail
    with (RSeq (RStar true (RChar isSpace))
               (RSeq (RAlt (ch 58%N) REmpty) (RSeq (RStar true (RChar notLT)) REol))).
  destruct (star_class_head isSpace cs (LF :: answer) b) as (b1 & l1 & H1).
  rewrite (rmatch_seq_head _ _ _ _ _ H1).
  set (r1 := snd (spanClass isSpace (LF :: answer))).
  assert (Hr1 : forallb notLT r1 = true).
  { unfold r1. cbn [spanClass]. change (isSpace LF) with true. cbn [snd].
    apply spanClass_keeps, Hline. }
  clearbody r1.
  assert (Hdots : forall b2 r2,
             forallb notLT r2 = true ->
             exists e l,
               rmatch (RSeq (RStar true (RChar notLT)) REol)
                      {| before := b2; rest := r2; caps := cs |}
               = e :: l /\ rest e = []).
  { intros b2 r2 Hr2.
    destruct (star_class_head notLT cs r2 b2) as (b3 & l3 & H3).
    rewrite (rmatch_seq_head _ _ _ _ _ H3).
    rewrite (spanClass_all _ _ Hr2). cbn [rmatch rest app]. eexists. eexists.
    split; reflexivity. }
  rewrite rmatch_seq.
  change (rmatch (RAlt (ch 58%N) REmpty) {| before := b1; rest := r1; caps := cs |})
    with (rmatch (ch 58%N) {| before := b1; rest := r1; caps := cs |}
          ++ [{| before := b1; rest := r1; caps := cs |}]).
  rewrite rmatch_ch. cbn [rest].
  destruct r1 as [|c r2].
  - cbn [app flat_map].
    destruct (Hdots b1 [] eq_refl) as (e & l & He & Hrest). rewrite He.
    eexists. eexists. split; [reflexivity | exact Hrest].
  - cbn [forallb] in Hr1. apply andb_true_iff in Hr1 as [Hc Hr2].
    destruct (char_eqb 58%N c).
    + cbn [app flat_map]. unfold stepOver. cbn [caps].
      destruct (Hdots (Some c) r2 Hr2) as (e & l & He & Hrest). rewrite He.
      eexists. eexists. split; [reflexivity | exact Hrest].
    + cbn [app flat_map].
      destruct (Hdots b1 (c :: r2)) as (e & l & He & Hrest).
      { cbn [forallb]. now rewrite Hc, Hr2. }
      rewrite He. eexists. eexists. split; [reflexivity | exact Hrest].
Qed.

(** ** Artifacts *)

Lemma search_codeBlock (input : jsstring) :
  forall b,
    match nextFence input with
    | Some (tag, body, after) =>
        exists f,
          search Patterns.codeBlock b input = Some f
          /\ f_end f = {| before := Some BACKTICK; rest := after;
                          caps := (2%nat, body) :: tagCaps tag |}
    | None => search Patterns.codeBlock b input = None
    end.
Proof.
  induction input as [|c t IH]; intros b; pose proof (codeBlock_at b) as Hat.
  - specialize (Hat []). cbn [nextFence search].
    destruct (fenceAt []) as [[[tag body] after]|].
    + destruct Hat as [tail Hat]. rewrite Hat. eexists. split; reflexivity.
    + rewrite Hat. reflexivity.
  - specialize (Hat (c :: t)). cbn [nextFence search].
    destruct (fenceAt (c :: t)) as [[[tag body] after]|].
    + destruct Hat as [tail Hat]. rewrite Hat. eexists. split; reflexivity.
    + rewrite Hat. specialize (IH (Some c)).
      destruct (nextFence t) as [[[tag body] after]|].
      * destruct IH as (f & Hf & He). rewrite Hf. eexists. split; [reflexivity|].
        exact He.
      * rewrite IH. reflexivity.
Qed.

Lemma lookup_group1 (tag body : jsstring) :
  match lookupCap 1 ((2%nat, body) :: tagCaps tag) with
  | Some l => if truthy l then js " (" ++ l ++ js ")" else []
  | None => []
  end
  = if truthy tag then js " (" ++ tag ++ js ")" else [].
Proof. destruct tag; reflexivity. Qed.

Lemma codeBlockLoop_step (fuel : nat) (b : option char) (input : jsstring) (index : Z)
    (acc : list ParsedArtifact) (tag body after : jsstring) :
  nextFence input = Some (tag, body, after) ->
  codeBlockLoop (S fuel) b input index acc
  = codeBlockLoop fuel (Some BACKTICK) after (index + 1)
      (acc ++ [artifactOf (index + 1) tag body]).
Proof.
  intros Hn. pose proof (search_codeBlock input b) as Hs. rewrite Hn in Hs.
  destruct Hs as (f & Hf & He). cbn [codeBlockLoop]. rewrite Hf.
  unfold groupText, group. rewrite He. cbn [before rest caps].
  rewrite lookup_group1. reflexivity.
Qed.

Lemma codeBlockLoop_stop (fuel : nat) (b : option char) (input : jsstring) (index : Z)
    (acc : list ParsedArtifact) :
  nextFence input = None -> codeBlockLoop fuel b input index acc = acc.
Proof.
  intros Hn. pose proof (search_codeBlock input b) as Hs. rewrite Hn in Hs.
  destruct fuel; cbn [codeBlockLoop]; [reflexivity|]. rewrite Hs. reflexivity.
Qed.

(** *** The loop ends on every input *)

Lemma skipn_shorter (n : nat) (s : jsstring) : (length (skipn n s) <= length s)%nat.
Proof. rewrite length_skipn. lia. Qed.

Lemma splitAtFence_shorter (s : jsstring) :
  forall body after, splitAtFence s = Some (body, after) ->
                     (length after <= length s)%nat.
Proof.
  induction s as [|c t IH]; intros body after H; cbn [splitAtFence] in H.
  - destruct (isPrefix FENCE []); [|discriminate]. injection H as _ <-. cbn. lia.
  - destruct (isPrefix FENCE (c :: t)).
    + injection H as _ <-. apply (skipn_shorter 3 (c :: t)).
    + destruct (splitAtFence t) as [[a b]|]; [|discriminate].
      injection H as _ <-. specialize (IH a b eq_refl). cbn [length]. lia.
Qed.

Lemma spanClass_shorter (p : char -> bool) (s : jsstring) :
  (length (snd (spanClass p s)) <= length s)%nat.
Proof.
  induction s as [|c t IH]; cbn [spanClass]; [cbn; lia|].
  destruct (p c); cbn [snd length]; lia.
Qed.

Lemma fenceAt_shorter (input tag body after : jsstring) :
  fenceAt input = Some (tag, body, after) -> (length after < length input)%nat.
Proof.
  unfold fenceAt. intros H.
  destruct (isPrefix FENCE input) eqn:Hp; [|discriminate].
  pose proof (spanClass_shorter isWord (skipn 3 input)) as Hs.
  destruct (spanClass isWord (skipn 3 input)) as [t afterTag]. cbn [snd] in Hs.
  destruct afterTag as [|c afterNewline]; [discriminate|].
  destruct (char_eqb LF c); [|discriminate].
  destruct (splitAtFence afterNewline) as [[b a]|] eqn:E; [|discriminate].
  injection H as _ _ <-. apply splitAtFence_shorter in E.
  rewrite length_skipn in Hs. cbn [length] in Hs. lia.
Qed.

Lemma nextFence_shorter (input : jsstring) :
  forall tag body after,
    nextFence input = Some (tag, body, after) -> (length after < length input)%nat.
Proof.
  induction input as [|c t IH]; intros tag body after H; cbn [nextFence] in H.
  - destruct (fenceAt []) as [[[x y] z]|] eqn:E; [|discriminate].
    injection H as -> -> ->. exact (fenceAt_shorter _ _ _ _ E).
  - destruct (fenceAt (c :: t)) as [[[x y] z]|] eqn:E.
    + injection H as -> -> ->. exact (fenceAt_shorter _ _ _ _ E).
    + specialize (IH _ _ _ H). cbn [length]. lia.
Qed.

(** Every match consumes input, so the loop makes at most as many rounds as
    the document has characters: fuel above that never runs out. *)
Lemma codeBlockLoop_fuel (n : nat) :
  forall input, (length input <= n)%nat ->
  forall fuel1 fuel2 b index acc,
    (n < fuel1)%nat -> (n < fuel2)%nat ->
    codeBlockLoop fuel1 b input index acc = codeBlockLoop fuel2 b input index acc.
Proof.
  induction n as [|n IH]; intros input Hlen fuel1 fuel2 b index acc H1 H2;
    (destruct fuel1 as [|f1]; [lia|]); (destruct fuel2 as [|f2]; [lia|]);
    destruct (nextFence input) as [[[tag body] after]|] eqn:E.
  - apply nextFence_shorter in E. lia.
  - now rewrite !codeBlockLoop_stop.
  - rewrite !(codeBlockLoop_step _ _ _ _ _ _ _ _ E).
    apply nextFence_shorter in E. apply IH; lia.
  - now rewrite !codeBlockLoop_stop.
Qed.

(** *** Documents made of fenced blocks *)

Lemma containsFence_cons (c : char) (t : jsstring) :
  containsFence (c :: t) = false ->
  isPrefix FENCE (c :: t) = false /\ containsFence t = false.
Proof.
  unfold containsFence. cbn [splitAtFence].
  destruct (isPrefix FENCE (c :: t)); [discriminate|].
  destruct (splitAtFence t) as [[a b]|]; [discriminate|]. split; reflexivity.
Qed.

Lemma backtick_eqb (c : char) : char_eqb BACKTICK c = true -> c = BACKTICK.
Proof. intros H. apply N.eqb_eq in H. congruence. Qed.

Lemma endsWithBacktick_cons (c x : char) (t : jsstring) :
  endsWithBacktick (c :: x :: t) = endsWithBacktick (x :: t).
Proof.
  unfold endsWithBacktick. cbn [rev].
  destruct (rev t ++ [x]) as [|y l] eqn:E; [|reflexivity].
  destruct (rev t); discriminate.
Qed.

(** A content without fence that does not end with a backtick: the first
    fence of [content ++ FENCE ++ more] is the one that is written out. *)
Lemma splitAtFence_content (content more : jsstring) :
  containsFence content = false -> endsWithBacktick content = false ->
  splitAtFence (content ++ FENCE ++ more) = Some (content, more).
Proof.
  induction content as [|c t IH]; intros Hf He.
  - reflexivity.
  - apply containsFence_cons in Hf as [Hp Hf].
    assert (Hp' : isPrefix FENCE ((c :: t) ++ FENCE ++ more) = false).
    { destruct t as [|x [|y t]].
      - cbn [app isPrefix FENCE]. destruct (char_eqb BACKTICK c) eqn:Ec; [|reflexivity].
        apply backtick_eqb in Ec. subst c. discriminate.
      - cbn [app isPrefix FENCE]. destruct (char_eqb BACKTICK c) eqn:Ec; [|reflexivity].
        destruct (char_eqb BACKTICK x) eqn:Ex; [|reflexivity].
        apply backtick_eqb in Ex. subst x. discriminate.
      - cbn [app isPrefix FENCE] in *. exact Hp. }
    assert (He' : endsWithBacktick t = false).
    { destruct t as [|x t]; [reflexivity|]. now rewrite endsWithBacktick_cons in He. }
    specialize (IH Hf He').
    change ((c :: t) ++ FENCE ++ more) with (c :: (t ++ FENCE ++ more)) in *.
    cbn [splitAtFence]. rewrite Hp', IH. reflexivity.
Qed.

Lemma spanWord_tag (tag more : jsstring) :
  forallb isWord tag = true -> spanClass isWord (tag ++ LF :: more) = (tag, LF :: more).
Proof.
  induction tag as [|c t IH]; intros H.
  - reflexivity.
  - cbn [forallb] in H. apply andb_true_iff in H as [Hc Ht].
    cbn [app spanClass]. rewrite Hc, (IH Ht). reflexivity.
Qed.

Lemma fenceAt_block (b : FencedBlock) (more : jsstring) :
  forallb isWord (fb_language b) = true ->
  containsFence (fb_content b) = false ->
  endsWithBacktick (fb_content b) = false ->
  fenceAt (FENCE ++ fb_language b ++ [LF] ++ fb_content b ++ FENCE ++ more)
  = Some (fb_language b, fb_content b, more).
Proof.
  intros Hl Hf He. unfold fenceAt.
  change (isPrefix FENCE (FENCE ++ fb_language b ++ [LF] ++ fb_content b ++ FENCE ++ more))
    with true.
  change (skipn 3 (FENCE ++ fb_language b ++ [LF] ++ fb_content b ++ FENCE ++ more))
    with (fb_language b ++ LF :: (fb_content b ++ FENCE ++ more)).
  rewrite spanWord_tag by exact Hl. change (char_eqb LF LF) with true. cbv iota.
  rewrite splitAtFence_content by assumption. reflexivity.
Qed.

(** No block opens inside a text without fence, even where its last
    backticks touch the fence that follows. *)
Lemma fenceAt_in_text (c : char) (t more : jsstring) :
  containsFence (c :: t) = false ->
  fenceAt ((c :: t) ++ FENCE ++ more) = None.
Proof.
  intros Hf. apply containsFence_cons in Hf as [Hp _]. unfold fenceAt.
  destruct (isPrefix FENCE ((c :: t) ++ FENCE ++ more)) eqn:Hp'; [|reflexivity].
  destruct t as [|x [|y t]].
  - cbn [app isPrefix FENCE] in Hp'.
    destruct (char_eqb BACKTICK c) eqn:Ec; [|discriminate].
    reflexivity.
  - cbn [app isPrefix FENCE] in Hp'.
    destruct (char_eqb BACKTICK c) eqn:Ec; [|discriminate].
    destruct (char_eqb BACKTICK x) eqn:Ex; [|discriminate].
    reflexivity.
  - cbn [app isPrefix FENCE] in Hp, Hp'. congruence.
Qed.

Lemma nextFence_after_text (text : jsstring) (b : FencedBlock) (more : jsstring) :
  containsFence text = false ->
  forallb isWord (fb_language b) = true ->
  containsFence (fb_content b) = false ->
  endsWithBacktick (fb_content b) = false ->
  nextFence (text ++ FENCE ++ fb_language b ++ [LF] ++ fb_content b ++ FENCE ++ more)
  = Some (fb_language b, fb_content b, more).
Proof.
  intros Ht Hl Hf He. induction text as [|c t IH].
  - cbn [app]. pose proof (@fenceAt_block b more Hl Hf He) as H.
    cbn [app FENCE] in H |- *. cbn [nextFence]. rewrite H. reflexivity.
  - pose proof (@fenceAt_in_text c t
                  (fb_language b ++ [LF] ++ fb_content b ++ FENCE ++ more) Ht) as H.
    apply containsFence_cons in Ht as [_ Ht].
    change ((c :: t) ++ FENCE ++ fb_language b ++ [LF] ++ fb_content b ++ FENCE ++ more)
      with (c :: (t ++ FENCE ++ fb_language b ++ [LF] ++ fb_content b ++ FENCE ++ more))
      in *.
    cbn [nextFence]. rewrite H. exact (IH Ht).
Qed.

Lemma nextFence_none (s : jsstring) :
  containsFence s = false -> nextFence s = None.
Proof.
  induction s as [|c t IH]; intros H.
  - reflexivity.
  - apply containsFence_cons in H as [Hp Hf]. cbn [nextFence].
    unfold fenceAt. rewrite Hp. exact (IH Hf).
Qed.

Lemma wellFormedBlock_parts (b : FencedBlock) :
  wellFormedBlock b = true ->
  forallb isWord (fb_language b) = true
  /\ containsFence (fb_content b) = false
  /\ endsWithBacktick (fb_content b) = false
  /\ containsFence (fb_following b) = false.
Proof.
  unfold wellFormedBlock. rewrite !andb_true_iff, !negb_true_iff. tauto.
Qed.

Lemma codeBlockLoop_blocks (blocks : list FencedBlock) :
  forall fuel b text index acc,
    containsFence text = false ->
    forallb wellFormedBlock blocks = true ->
    (length blocks < fuel)%nat ->
    codeBlockLoop fuel b (renderDocument text blocks) index acc
    = acc ++ expectedArtifacts index blocks.
Proof.
  induction blocks as [|blk others IH]; intros fuel b text index acc Ht Hw Hfuel.
  - unfold renderDocument. cbn [map concat expectedArtifacts]. rewrite !app_nil_r.
    apply codeBlockLoop_stop, nextFence_none, Ht.
  - cbn [forallb] in Hw. apply andb_true_iff in Hw as [Hb Hw].
    apply wellFormedBlock_parts in Hb as (Hl & Hf & He & Hfol).
    destruct fuel as [|fuel]; [cbn [length] in Hfuel; lia|].
    assert (Hdoc : renderDocument text (blk :: others)
                   = text ++ FENCE ++ fb_language blk ++ [LF] ++ fb_content blk ++ FENCE
                     ++ renderDocument (fb_following blk) others).
    { unfold renderDocument, renderBlock. cbn [map concat].
      repeat rewrite <- app_assoc. reflexivity. }
    rewrite Hdoc.
    rewrite (@codeBlockLoop_step fuel b _ index acc (fb_language blk) (fb_content blk)
               (renderDocument (fb_following blk) others)).
    2:{ apply nextFence_after_text; assumption. }
    rewrite IH; [| exact Hfol | exact Hw | cbn [length] in Hfuel; lia].
    cbn [expectedArtifacts]. rewrite <- app_assoc. reflexivity.
Qed.

Lemma expectedArtifacts_length (blocks : list FencedBlock) :
  forall index, length (expectedArtifacts index blocks) = length blocks.
Proof.
  induction blocks as [|b others IH]; intros index; cbn [expectedArtifacts length];
    [reflexivity | now rewrite IH].
Qed.

Lemma renderDocument_length (blocks : list FencedBlock) (text : jsstring) :
  (length blocks <= length (renderDocument text blocks))%nat.
Proof.
  unfold renderDocument. rewrite length_app.
  induction blocks as [|b others IH]; cbn [map concat length]; [lia|].
  unfold renderBlock at 1. rewrite !length_app. cbn [FENCE length]. lia.
Qed.

(** Documents whose blocks the pattern recognises: for a leading text and N
    blocks, each an opening fence immediately followed by a language tag of
    word characters (possibly none) and a line feed, a content that holds no
    fence and does not end with a backtick, and a closing fence, with texts
    that hold no fence around them, the artifacts are N in number, labelled
    [Code Snippet 1] to [Code Snippet N] in document order, with the tag in
    parentheses exactly when it is not empty, and hold the trimmed contents;
    a document without any fence has no artifact.  On every document the
    scan ends within as many rounds as the document has characters. *)
Lemma artifacts_of_fenced_blocks (toLowerCase : jsstring -> jsstring)
    (nowIso : jsstring) (source : option jsstring)
    (leading : jsstring) (blocks : list FencedBlock) :
  containsFence leading = false ->
  forallb wellFormedBlock blocks = true ->
  let report := parseReport toLowerCase nowIso (renderDocument leading blocks) source in
  artifacts report = expectedArtifacts 0 blocks
  /\ length (artifacts report) = length blocks
  /\ artifacts (parseReport toLowerCase nowIso leading source) = []
  /\ (forall markdown fuel,
        (length markdown < fuel)%nat ->
        codeBlockLoop fuel None markdown 0 [] = extractArtifacts markdown).
Proof.
  intros Hl Hw report. unfold report, parseReport. cbn [artifacts].
  assert (H : extractArtifacts (renderDocument leading blocks) = expectedArtifacts 0 blocks).
  { unfold extractArtifacts. rewrite codeBlockLoop_blocks; try assumption.
    - reflexivity.
    - pose proof (renderDocument_length blocks leading). lia. }
  split; [exact H|]. split; [|split].
  - rewrite H. apply expectedArtifacts_length.
  - unfold extractArtifacts. apply codeBlockLoop_stop, nextFence_none, Hl.
  - intros markdown fuel Hfuel. unfold extractArtifacts.
    apply (codeBlockLoop_fuel (length markdown)); lia.
Qed.

(** *** Opening fences that the pattern does not recognise *)

Lemma word_noBacktick (s : jsstring) :
  forallb isWord s = true -> forallb noBacktick s = true.
Proof.
  induction s as [|c t IH]; intros H; [reflexivity|].
  cbn [forallb] in *. apply andb_true_iff in H as [Hc Ht]. rewrite (IH Ht), andb_true_r.
  unfold noBacktick. destruct (char_eqb BACKTICK c) eqn:E; [|reflexivity].
  apply backtick_eqb in E. subst c. discriminate.
Qed.

Lemma noBacktick_head (c : char) (t : jsstring) :
  noBacktick c = true -> isPrefix FENCE (c :: t) = false.
Proof.
  unfold noBacktick. intros H. apply negb_true_iff in H.
  cbn [isPrefix FENCE]. now rewrite H.
Qed.

(** The scan passes over a text without backticks. *)
Lemma nextFence_skip (text more : jsstring) :
  forallb noBacktick text = true -> nextFence (text ++ more) = nextFence more.
Proof.
  induction text as [|c t IH]; intros H; [reflexivity|].
  cbn [forallb] in H. apply andb_true_iff in H as [Hc Ht].
  cbn [app nextFence]. unfold fenceAt at 1.
  rewrite (noBacktick_head c (t ++ more) Hc). exact (IH Ht).
Qed.

Lemma containsFence_noBacktick (s : jsstring) :
  forallb noBacktick s = true -> containsFence s = false.
Proof.
  induction s as [|c t IH]; intros H; [reflexivity|].
  cbn [forallb] in H. apply andb_true_iff in H as [Hc Ht].
  unfold containsFence in *. cbn [splitAtFence].
  rewrite (noBacktick_head c t Hc). specialize (IH Ht).
  destruct (splitAtFence t) as [[a b]|]; [discriminate | reflexivity].
Qed.

Lemma endsWithBacktick_noBacktick (s : jsstring) :
  forallb noBacktick s = true -> endsWithBacktick s = false.
Proof.
  induction s as [|c t IH]; intros H; [reflexivity|].
  cbn [forallb] in H. apply andb_true_iff in H as [Hc Ht].
  destruct t as [|x t]; [|rewrite endsWithBacktick_cons; exact (IH Ht)].
  unfold endsWithBacktick. cbn [rev app]. unfold noBacktick in Hc.
  apply negb_true_iff in Hc. unfold char_eqb in *. now rewrite N.eqb_sym.
Qed.

(** One or two backticks before a text without backticks make no fence. *)
Lemma fenceAt_short_run (c : char) (t : jsstring) :
  noBacktick c = true ->
  fenceAt (BACKTICK :: BACKTICK :: c :: t) = None
  /\ fenceAt (BACKTICK :: c :: t) = None.
Proof.
  unfold noBacktick. intros H. apply negb_true_iff in H.
  unfold fenceAt. cbn [isPrefix FENCE]. rewrite H, !andb_false_r.
  split; reflexivity.
Qed.

(** An opening fence whose tag is broken off by another character than the
    line feed opens no block, and the scan goes on after that character. *)
Lemma nextFence_unrecognised (w : jsstring) (x : char) (more : jsstring) :
  forallb isWord w = true -> breaksTag x = true ->
  nextFence (FENCE ++ w ++ x :: more) = nextFence more.
Proof.
  intros Hw Hx. unfold breaksTag in Hx.
  apply andb_true_iff in Hx as [Hx Hb]. apply andb_true_iff in Hx as [Hx Hlf].
  apply negb_true_iff in Hx, Hlf.
  assert (Hspan : spanClass isWord (w ++ x :: more) = (w, x :: more)).
  { clear - Hw Hx. induction w as [|c t IH]; cbn [app spanClass].
    - now rewrite Hx.
    - cbn [forallb] in Hw. apply andb_true_iff in Hw as [Hc Ht].
      rewrite Hc, (IH Ht). reflexivity. }
  assert (H0 : fenceAt (FENCE ++ w ++ x :: more) = None).
  { unfold fenceAt.
    change (isPrefix FENCE (FENCE ++ w ++ x :: more)) with true.
    change (skipn 3 (FENCE ++ w ++ x :: more)) with (w ++ x :: more).
    rewrite Hspan, Hlf. reflexivity. }
  assert (Hwx : forallb noBacktick (w ++ [x]) = true).
  { rewrite forallb_app, (word_noBacktick w Hw). cbn [forallb]. now rewrite Hb. }
  change (FENCE ++ w ++ x :: more)
    with (BACKTICK :: BACKTICK :: BACKTICK :: (w ++ x :: more)) in *.
  cbn [nextFence]. rewrite H0.
  replace (w ++ x :: more) with ((w ++ [x]) ++ more) by now rewrite <- app_assoc.
  destruct (w ++ [x]) as [|c r] eqn:E; [destruct w; discriminate|].
  cbn [forallb] in Hwx. apply andb_true_iff in Hwx as [Hc Hr].
  destruct (fenceAt_short_run c (r ++ more) Hc) as [H2 H1].
  change ((c :: r) ++ more) with (c :: (r ++ more)).
  rewrite H2, H1. change (c :: (r ++ more)) with ((c :: r) ++ more).
  apply nextFence_skip. cbn [forallb]. now rewrite Hc, Hr.
Qed.

(** A fence with no fence after it opens no block. *)
Lemma nextFence_last_fence (following : jsstring) :
  forallb noBacktick following = true -> nextFence (FENCE ++ following) = None.
Proof.
  intros H.
  assert (H0 : fenceAt (FENCE ++ following) = None).
  { unfold fenceAt.
    change (isPrefix FENCE (FENCE ++ following)) with true.
    change (skipn 3 (FENCE ++ following)) with following.
    pose proof (spanClass_app isWord following) as [Hs _].
    destruct (spanClass isWord following) as [tag afterTag]. cbn [fst snd] in Hs.
    destruct afterTag as [|c r]; [reflexivity|].
    destruct (char_eqb LF c); [|reflexivity].
    assert (Hr : forallb noBacktick r = true).
    { rewrite Hs, forallb_app in H. apply andb_true_iff in H as [_ H].
      cbn [forallb] in H. now apply andb_true_iff in H as [_ H]. }
    apply containsFence_noBacktick in Hr. unfold containsFence in Hr.
    destruct (splitAtFence r) as [[a b]|]; [discriminate | reflexivity]. }
  change (FENCE ++ following) with (BACKTICK :: BACKTICK :: BACKTICK :: following) in *.
  cbn [nextFence]. rewrite H0.
  destruct following as [|c r]; [reflexivity|].
  cbn [forallb] in H. apply andb_true_iff in H as [Hc Hr].
  destruct (fenceAt_short_run c r Hc) as [H2 H1]. rewrite H2, H1.
  apply nextFence_none, containsFence_noBacktick. cbn [forallb]. now rewrite Hc, Hr.
Qed.

(** C5: an opening fence whose tag holds another character than a word
    character ([c++], [objective-c], a space or a carriage return before
    the line break) is not taken as the start of a block.  Such a block on
    its own gives no artifact.  When a second block follows, the closing
    fence of the first is taken as an opening fence and paired with the
    opening fence of the second: the only artifact is the prose between the
    two blocks, without language, and neither block is extracted, although
    the second block on its own is.  For documents whose opening fences all
    carry word-character tags directly followed by a line feed the artifacts
    are the N blocks, as the claim says. *)
Theorem unrecognised_fence_mispairs (toLowerCase : jsstring -> jsstring)
    (nowIso : jsstring) (source : option jsstring)
    (w : jsstring) (x : char) (t content1 prose tag2 content2 : jsstring) :
  forallb isWord w = true ->
  breaksTag x = true ->
  forallb noBacktick (t ++ content1 ++ prose ++ content2) = true ->
  forallb isWord tag2 = true ->
  let artifactsOf markdown :=
    artifacts (parseReport toLowerCase nowIso markdown source) in
  let first := FENCE ++ w ++ x :: t ++ [LF] ++ content1 ++ FENCE in
  let second := FENCE ++ tag2 ++ [LF] ++ content2 ++ FENCE in
  artifactsOf first = []
  /\ artifactsOf second = [artifactOf 1 tag2 content2]
  /\ artifactsOf (first ++ [LF] ++ prose ++ second) = [artifactOf 1 [] prose]
  /\ (forall leading blocks,
        containsFence leading = false ->
        forallb wellFormedBlock blocks = true ->
        artifactsOf (renderDocument leading blocks) = expectedArtifacts 0 blocks
        /\ length (artifactsOf (renderDocument leading blocks)) = length blocks).
Proof.
  intros Hw Hx Hplain Htag2 artifactsOf first second.
  rewrite !forallb_app in Hplain.
  apply andb_true_iff in Hplain as [Ht Hplain].
  apply andb_true_iff in Hplain as [Hc1 Hplain].
  apply andb_true_iff in Hplain as [Hprose Hc2].
  assert (Hline : forallb noBacktick (t ++ [LF] ++ content1) = true).
  { rewrite !forallb_app, Ht, Hc1. reflexivity. }
  assert (Hwell : forall leading blocks,
             containsFence leading = false ->
             forallb wellFormedBlock blocks = true ->
             artifactsOf (renderDocument leading blocks) = expectedArtifacts 0 blocks
             /\ length (artifactsOf (renderDocument leading blocks)) = length blocks).
  { intros leading blocks Hl Hb.
    destruct (artifacts_of_fenced_blocks toLowerCase nowIso source leading blocks Hl Hb)
      as (H1 & H2 & _).
    split; [exact H1 | exact H2]. }
  assert (Hopen : forall more,
             nextFence (FENCE ++ w ++ x :: t ++ [LF] ++ content1 ++ more)
             = nextFence more).
  { intros more. rewrite (nextFence_unrecognised w x _ Hw Hx).
    replace (t ++ [LF] ++ content1 ++ more) with ((t ++ [LF] ++ content1) ++ more)
      by now rewrite <- !app_assoc.
    now apply nextFence_skip. }
  split; [|split; [|split; [|exact Hwell]]].
  - unfold artifactsOf, parseReport. cbn [artifacts]. unfold extractArtifacts.
    apply codeBlockLoop_stop. unfold first.
    rewrite (Hopen FENCE). reflexivity.
  - pose proof (Hwell [] [{| fb_language := tag2; fb_content := content2;
                              fb_following := [] |}] eq_refl) as H.
    unfold wellFormedBlock in H. cbn [forallb fb_language fb_content fb_following] in H.
    rewrite Htag2, (containsFence_noBacktick content2 Hc2),
      (endsWithBacktick_noBacktick content2 Hc2) in H.
    destruct (H eq_refl) as [H1 _].
    unfold renderDocument, renderBlock in H1.
    cbn [map concat fb_language fb_content fb_following app] in H1.
    rewrite !app_nil_r in H1. exact H1.
  - unfold artifactsOf, parseReport. cbn [artifacts]. unfold extractArtifacts.
    set (doc := first ++ [LF] ++ prose ++ second).
    assert (Hdoc : doc = FENCE ++ w ++ x :: t ++ [LF] ++ content1
                         ++ (FENCE ++ [LF] ++ prose ++ FENCE
                             ++ (tag2 ++ [LF] ++ content2) ++ FENCE)).
    { unfold doc, first, second. cbn [app FENCE].
      repeat (rewrite <- app_assoc; cbn [app]). reflexivity. }
    assert (H1 : nextFence doc
                 = Some ([], prose, (tag2 ++ [LF] ++ content2) ++ FENCE)).
    { rewrite Hdoc, Hopen.
      apply (nextFence_after_text []
               {| fb_language := []; fb_content := prose; fb_following := [] |});
        cbn [fb_language fb_content];
        [ reflexivity | reflexivity
        | now apply containsFence_noBacktick
        | now apply endsWithBacktick_noBacktick ]. }
    assert (H2 : nextFence ((tag2 ++ [LF] ++ content2) ++ FENCE) = None).
    { rewrite nextFence_skip; [reflexivity|].
      rewrite !forallb_app, (word_noBacktick tag2 Htag2), Hc2. reflexivity. }
    rewrite (codeBlockLoop_step (length doc) None doc 0 [] [] prose _ H1).
    rewrite (codeBlockLoop_stop _ _ _ _ _ H2). reflexivity.
Qed.

Lemma unrecognised_fence_mispairs_witness :
  artifacts (parseReport asciiToLowerCase [] cppBlock None) = []
  /\ artifacts (parseReport asciiToLowerCase [] jsBlock None)
     = [ {| label := js "Code Snippet 1 (js)"; content := js "code();" |} ]
  /\ artifacts (parseReport asciiToLowerCase [] cppThenJs None)
     = [ {| label := js "Code Snippet 1"; content := js "prose between" |} ].
Proof.
  destruct (unrecognised_fence_mispairs asciiToLowerCase [] None
              (js "c") 43%N (js "+") (js "int x;" ++ [LF])
              (js "prose between" ++ [LF]) (js "js") (js "code();" ++ [LF]))
    as (H1 & H2 & H3 & _); try reflexivity.
  split; [exact H1|]. split; [exact H2 | exact H3].
Defined.

Lemma firstIs_seq (a b : regex) (s x e : mstate) :
  firstIs a s x -> firstIs b x e -> firstIs (RSeq a b) s e.
Proof.
  intros [l Hl] [l' Hl']. unfold firstIs. rewrite (rmatch_seq_head _ _ _ _ _ Hl), Hl'.
  eexists. reflexivity.
Qed.

Lemma firstIs_alt_left (a b : regex) (s e : mstate) :
  firstIs a s e -> firstIs (RAlt a b) s e.
Proof. intros [l Hl]. unfold firstIs. cbn [rmatch]. rewrite Hl. eexists. reflexivity. Qed.

Lemma firstIs_group (n : nat) (a : regex) (s e : mstate) :
  firstIs a s e -> firstIs (RGroup n a) s (setCap n s e).
Proof. intros [l Hl]. unfold firstIs. cbn [rmatch]. rewrite Hl. eexists. reflexivity. Qed.

Lemma firstIs_char (p : char -> bool) (b : option char) (c : char) (t : jsstring)
    (cs : list (nat * jsstring)) :
  p c = true ->
  firstIs (RChar p) {| before := b; rest := c :: t; caps := cs |}
          {| before := Some c; rest := t; caps := cs |}.
Proof. intros Hp. unfold firstIs. cbn [rmatch rest caps]. rewrite Hp. eexists. reflexivity. Qed.

Lemma firstIs_star_class (p : char -> bool) (b : option char) (input : jsstring)
    (cs : list (nat * jsstring)) :
  exists b',
    firstIs (RStar true (RChar p)) {| before := b; rest := input; caps := cs |}
            {| before := b'; rest := snd (spanClass p input); caps := cs |}.
Proof.
  destruct (star_class_head p cs input b) as (b' & l & H). exists b', l. exact H.
Qed.

(** On a heading [## Reasoning], the first part of the pattern stops right
    after the label. *)
Lemma labelHead_reasoning (answer : jsstring) :
  exists b cs,
    firstIs labelHead (start None (js "## Reasoning" ++ LF :: answer))
            {| before := b; rest := LF :: answer; caps := cs |}.
Proof.
  unfold labelHead, start.
  destruct (firstIs_star_class isSpace None (js "## Reasoning" ++ LF :: answer) [])
    as [b1 H1].
  change (snd (spanClass isSpace (js "## Reasoning" ++ LF :: answer)))
    with (js "## Reasoning" ++ LF :: answer) in H1.
  destruct (firstIs_star_class (char_eqb 35%N) (Some 35%N) (js "# Reasoning" ++ LF :: answer) [])
    as [b2 H2].
  change (snd (spanClass (char_eqb 35%N) (js "# Reasoning" ++ LF :: answer)))
    with (js " Reasoning" ++ LF :: answer) in H2.
  destruct (firstIs_star_class isSpace b2 (js " Reasoning" ++ LF :: answer) [])
    as [b3 H3].
  change (snd (spanClass isSpace (js " Reasoning" ++ LF :: answer)))
    with (js "Reasoning" ++ LF :: answer) in H3.
  set (s1 := {| before := b1; rest := js "## Reasoning" ++ LF :: answer; caps := [] |}) in *.
  set (s3 := {| before := b3; rest := js "Reasoning" ++ LF :: answer; caps := [] |}) in *.
  set (sg := setCap 1 s1 s3).
  assert (Hg : firstIs (alts [liti "Reasoning"; liti "Thoughts"; liti "Analysis"]) sg
                 {| before := Some 103%N; rest := LF :: answer; caps := caps sg |}).
  { apply firstIs_alt_left.
    change (liti "Reasoning")
      with (RSeq (chi 82%N) (RSeq (chi 101%N) (RSeq (chi 97%N) (RSeq (chi 115%N)
           (RSeq (chi 111%N) (RSeq (chi 110%N) (RSeq (chi 105%N) (RSeq (chi 110%N)
           (chi 103%N))))))))).
    change sg with {| before := b3;
                      rest := 82%N :: 101%N :: 97%N :: 115%N :: 111%N :: 110%N :: 105%N
                              :: 110%N :: 103%N :: LF :: answer;
                      caps := caps sg |}.
    unfold chi.
    repeat (eapply firstIs_seq; [apply firstIs_char; reflexivity|]).
    apply firstIs_char. reflexivity. }
  apply firstIs_group with (n := 2%nat) in Hg.
  exists (before (setCap 2 sg {| before := Some 103%N; rest := LF :: answer; caps := caps sg |})).
  exists (caps (setCap 2 sg {| before := Some 103%N; rest := LF :: answer; caps := caps sg |})).
  apply firstIs_seq with (x := sg); [|exact Hg].
  apply firstIs_seq with (x := s1).
  - apply firstIs_seq with (x := {| before := None;
                                    rest := js "## Reasoning" ++ LF :: answer;
                                    caps := [] |}).
    + exists []. reflexivity.
    + exact H1.
  - apply firstIs_alt_left, firstIs_group.
    change (seqs [plus (lit "#"); star ws])
      with (RSeq (RSeq (RChar (char_eqb 35%N)) (RStar true (RChar (char_eqb 35%N))))
                 (RStar true (RChar isSpace))).
    apply firstIs_seq with (x := {| before := b2;
                                    rest := js " Reasoning" ++ LF :: answer;
                                    caps := [] |}); [|exact H3].
    apply firstIs_seq with (x := {| before := Some 35%N;
                                    rest := js "# Reasoning" ++ LF :: answer;
                                    caps := [] |}); [|exact H2].
    apply (firstIs_char (char_eqb 35%N) b1 35%N). reflexivity.
Qed.

(** A heading [## Reasoning] followed by one line: the pattern matches both
    lines, up to the end of the text. *)
Lemma labelledLine_two_lines (answer : jsstring) :
  forallb (fun c => negb (isLineTerminator c)) answer = true ->
  exists e l,
    rmatch Sanitize.labelledLine (start None (js "## Reasoning" ++ LF :: answer)) = e :: l
    /\ rest e = [].
Proof.
  intros Hline. rewrite labelledLine_split.
  destruct (labelHead_reasoning answer) as (b & cs & l0 & H0). rewrite H0.
  cbn [flat_map].
  destruct (labelTail_to_end answer b cs Hline) as (e & l & He & Hrest).
  rewrite He. eexists. eexists. split; [reflexivity | exact Hrest].
Qed.

(** Dropping a match that reaches the end of the text leaves nothing. *)
Lemma replaceFrom_skip_all (r : regex) (input : jsstring) :
  forall skip b, (length input <= skip)%nat -> replaceFrom r [] skip b input = [].
Proof.
  induction input as [|c t IH]; intros skip b Hlen.
  - destruct skip; cbn [replaceFrom]; [|reflexivity].
    destruct (rmatch r (start b [])); reflexivity.
  - destruct skip as [|k]; [cbn [length] in Hlen; lia|].
    cbn [replaceFrom]. apply IH. cbn [length] in Hlen. lia.
Qed.

Lemma replaceAll_whole (r : regex) (input : jsstring) (e : mstate) (l : list mstate) :
  rmatch r (start None input) = e :: l -> rest e = [] -> replaceAll r [] input = [].
Proof.
  intros He Hrest. unfold replaceAll. destruct input as [|c t].
  - cbn [replaceFrom]. rewrite He. reflexivity.
  - cbn [replaceFrom]. rewrite He, Hrest. cbn [length app Nat.sub].
    destruct (length t) eqn:Ht.
    + destruct t; [|discriminate]. cbn [replaceFrom].
      destruct (rmatch r (start (Some c) [])); reflexivity.
    + apply replaceFrom_skip_all. lia.
Qed.

(** The [<think>] pattern needs a [<]: a text without one is left alone. *)
Lemma thinkBlock_needs_lt (s : mstate) :
  match rest s with
  | c :: _ => char_eqb LESS_THAN c = false
  | [] => True
  end ->
  rmatch Sanitize.thinkBlock s = [].
Proof.
  intros H.
  change Sanitize.thinkBlock
    with (RSeq (RSeq (chi LESS_THAN) (liti "think>"))
               (RSeq (lazystar anychar) (liti "</think>"))).
  rewrite rmatch_seq_assoc, rmatch_seq. unfold chi. rewrite rmatch_char.
  destruct (rest s) as [|c t]; [reflexivity|].
  assert (Hc : char_eqb (asciiUpper LESS_THAN) (asciiUpper c) = false).
  { change (asciiUpper LESS_THAN) with LESS_THAN. unfold asciiUpper.
    destruct ((97 <=? c) && (c <=? 122))%N eqn:Hlow; [|exact H].
    apply andb_true_iff in Hlow as [H1 H2]. apply N.leb_le in H1, H2.
    unfold char_eqb, LESS_THAN. apply N.eqb_neq. lia. }
  rewrite Hc. reflexivity.
Qed.

Lemma replaceFrom_think_id (input : jsstring) :
  forallb (fun c => negb (char_eqb LESS_THAN c)) input = true ->
  forall b, replaceFrom Sanitize.thinkBlock [] 0 b input = input.
Proof.
  induction input as [|c t IH]; intros H b.
  - cbn [replaceFrom]. rewrite thinkBlock_needs_lt; [reflexivity | exact I].
  - cbn [forallb] in H. apply andb_true_iff in H as [Hc Ht].
    apply negb_true_iff in Hc. cbn [replaceFrom].
    rewrite thinkBlock_needs_lt by exact Hc. now rewrite IH.
Qed.

Lemma plainLine_parts (s : jsstring) :
  plainLine s = true ->
  forallb (fun c => negb (isLineTerminator c)) s = true
  /\ forallb (fun c => negb (char_eqb LESS_THAN c)) s = true.
Proof.
  unfold plainLine. induction s as [|c t IH]; intros H; [split; reflexivity|].
  cbn [forallb] in *. apply andb_true_iff in H as [Hc Ht].
  apply andb_true_iff in Hc as [H1 H2]. destruct (IH Ht) as [I1 I2].
  now rewrite H1, H2, I1, I2.
Qed.

(** C6: a heading line [## Reasoning] is removed together with the line
    that follows it, because the white space the pattern allows after the
    label runs over the line break: whatever single line follows the
    heading, nothing of the text is left; and in a longer text the answer
    line is lost with the heading.  The examples of the claim hold: the line
    [## Reasoning: blah] is blanked and its neighbours are kept, and a
    [<think>] span goes with its contents. *)
Theorem sanitize_label_swallows_next_line :
  (forall answer,
     plainLine answer = true ->
     sanitizeModelResponse (js "## Reasoning" ++ [LF] ++ answer) = [])
  /\ sanitizeModelResponse headingThenAnswer = js "Done."
  /\ sanitizeModelResponse labelledLineInput = js "Intro" ++ [LF; LF] ++ js "Body"
  /\ sanitizeModelResponse thinkInput = js "AB".
Proof.
  split; [|repeat split; vm_compute; reflexivity].
  intros answer Hplain. apply plainLine_parts in Hplain as [Hline Hlt].
  unfold sanitizeModelResponse.
  assert (Hthink : replaceAll Sanitize.thinkBlock [] (js "## Reasoning" ++ [LF] ++ answer)
                   = js "## Reasoning" ++ [LF] ++ answer).
  { apply replaceFrom_think_id. rewrite !forallb_app, Hlt. reflexivity. }
  rewrite Hthink.
  destruct (labelledLine_two_lines answer Hline) as (e & l & He & Hrest).
  change (js "## Reasoning" ++ [LF] ++ answer) with (js "## Reasoning" ++ LF :: answer).
  rewrite (replaceAll_whole _ _ e l He Hrest). reflexivity.
Qed.

Lemma sanitize_label_swallows_next_line_witness :
  sanitizeModelResponse (js "## Reasoning" ++ [LF] ++ js "The answer is 42.") = [].
Proof.
  destruct sanitize_label_swallows_next_line as [H _]. apply H. reflexivity.
Defined.

(** ** Severity: the explicit-section pattern *)

Lemma isWord_not_space (c : char) : isWord c = true -> isSpace c = false.
Proof.
  intros H. destruct (isSpace c) eqn:E; [exfalso | reflexivity].
  unfold isWord, isSpace in *.
  rewrite ?orb_true_iff, ?andb_true_iff, ?N.leb_le, ?N.eqb_eq in *. lia.
Qed.

Lemma firstIs_alt_right (a b : regex) (s e : mstate) :
  rmatch a s = [] -> firstIs b s e -> firstIs (RAlt a b) s e.
Proof. intros Ha [l Hl]. unfold firstIs. cbn [rmatch]. rewrite Ha, Hl. eexists. reflexivity. Qed.

Lemma spanClass_run (p : char -> bool) (run tail : jsstring) :
  forallb p run = true ->
  match tail with c :: _ => p c = false | [] => True end ->
  spanClass p (run ++ tail) = (run, tail).
Proof.
  intros Hrun Htail. induction run as [|c t IH].
  - cbn [app]. destruct tail as [|c t]; [reflexivity|]. cbn [spanClass]. now rewrite Htail.
  - cbn [forallb] in Hrun. apply andb_true_iff in Hrun as [Hc Ht].
    cbn [app spanClass]. rewrite Hc, (IH Ht). reflexivity.
Qed.

Lemma search_first (r : regex) (b : option char) (input : jsstring) (e : mstate) :
  firstIs r (start b input) e ->
  exists f, search r b input = Some f /\ f_end f = e.
Proof.
  intros [l He]. destruct input as [|c t]; cbn [search]; rewrite He;
    eexists; split; reflexivity.
Qed.

(** After [## Impact] and a line feed, group 1 is the word that follows,
    whatever it is. *)
Lemma explicitSeverity_any_word (c : char) (w tail : jsstring) :
  isWord c = true -> forallb isWord w = true -> noWordStart tail = true ->
  exists e,
    firstIs Patterns.explicitSeverity
            (start None (js "## Impact" ++ LF :: c :: w ++ tail)) e
    /\ lookupCap 1 (caps e) = Some (c :: w).
Proof.
  intros Hc Hw Htail.
  assert (Htail' : match tail with x :: _ => isWord x = false | [] => True end).
  { destruct tail as [|x t]; [exact I|]. now apply negb_true_iff. }
  pose proof (isWord_not_space c Hc) as Hsp. pose proof (isWord_not_LF c Hc) as Hlf.
  set (rest0 := c :: w ++ tail).
  (* the word and its capture *)
  destruct (firstIs_star_class isWord (Some c) (w ++ tail) []) as [b5 H5].
  rewrite (spanClass_run isWord w tail Hw Htail') in H5. cbn [snd] in H5.
  set (s4 := {| before := Some LF; rest := rest0; caps := [] |}).
  assert (Hgroup : firstIs (RGroup 1 (plus word)) s4
                     (setCap 1 s4 {| before := b5; rest := tail; caps := [] |})).
  { apply firstIs_group. unfold plus, word.
    apply firstIs_seq with (x := {| before := Some c; rest := w ++ tail; caps := [] |});
      [|exact H5].
    apply firstIs_char. exact Hc. }
  (* the line feeds *)
  set (s3 := {| before := Some 116%N; rest := LF :: rest0; caps := [] |}).
  assert (Hfeeds : rmatch (plus (ch LF)) s3 = [s4]).
  { unfold plus. rewrite rmatch_seq, rmatch_ch. cbn [rest s3].
    change (char_eqb LF LF) with true. cbn [flat_map stepOver caps].
    unfold ch, rest0. rewrite rmatch_star_char. cbn [rest stepOver caps]. rewrite Hlf.
    reflexivity. }
  (* the white space before them: the line feed is tried first, and given back *)
  assert (Hspace : rmatch (star ws) s3
                   = [{| before := Some LF; rest := rest0; caps := [] |}; s3]).
  { unfold star, ws. rewrite rmatch_star_char. cbn [rest s3].
    change (isSpace LF) with true. cbv iota.
    rewrite rmatch_star_char. unfold stepOver. cbn [rest caps]. unfold rest0 at 1.
    rewrite Hsp. reflexivity. }
  assert (Htail3 : firstIs (seqs [star ws; plus (ch LF); RGroup 1 (plus word)]) s3
                     (setCap 1 s4 {| before := b5; rest := tail; caps := [] |})).
  { change (seqs [star ws; plus (ch LF); RGroup 1 (plus word)])
      with (RSeq (star ws) (RSeq (plus (ch LF)) (RGroup 1 (plus word)))).
    destruct Hgroup as [l Hl]. unfold firstIs.
    rewrite rmatch_seq, Hspace. cbn [flat_map].
    assert (Hno : rmatch (RSeq (plus (ch LF)) (RGroup 1 (plus word)))
                    {| before := Some LF; rest := rest0; caps := [] |} = []).
    { unfold plus at 1. rewrite !rmatch_seq, rmatch_ch. cbn [rest]. unfold rest0.
      rewrite Hlf. reflexivity. }
    rewrite Hno, rmatch_seq, Hfeeds. cbn [flat_map app]. rewrite Hl.
    eexists. reflexivity. }
  (* the heading *)
  destruct (firstIs_star_class isSpace (Some 35%N) (js " Impact" ++ LF :: rest0) [])
    as [b1 H1].
  change (snd (spanClass isSpace (js " Impact" ++ LF :: rest0)))
    with (js "Impact" ++ LF :: rest0) in H1.
  exists (setCap 1 s4 {| before := b5; rest := tail; caps := [] |}). split.
  - change Patterns.explicitSeverity
      with (RSeq (RSeq (RChar (char_eqb 35%N)) (RChar (char_eqb 35%N)))
           (RSeq (RStar true (RChar isSpace))
           (RSeq (RAlt (liti "Severity") (liti "Impact"))
                 (seqs [star ws; plus (ch LF); RGroup 1 (plus word)])))).
    unfold start.
    change (js "## Impact" ++ LF :: c :: w ++ tail)
      with (35%N :: 35%N :: js " Impact" ++ LF :: rest0).
    eapply firstIs_seq;
      [eapply firstIs_seq; apply firstIs_char; reflexivity|].
    eapply firstIs_seq; [exact H1|].
    eapply firstIs_seq; [|exact Htail3].
    apply firstIs_alt_right; [reflexivity|].
    change (liti "Impact")
      with (RSeq (chi 73%N) (RSeq (chi 109%N) (RSeq (chi 112%N) (RSeq (chi 97%N)
           (RSeq (chi 99%N) (chi 116%N)))))).
    change (js "Impact" ++ LF :: rest0)
      with (73%N :: 109%N :: 112%N :: 97%N :: 99%N :: 116%N :: LF :: rest0).
    unfold chi.
    repeat (eapply firstIs_seq; [apply firstIs_char; reflexivity|]).
    apply firstIs_char. reflexivity.
  - unfold setCap. cbn [caps lookupCap Nat.eqb rest s4]. f_equal.
    unfold rest0. change (c :: w ++ tail) with ((c :: w) ++ tail).
    apply firstn_prefix.
Qed.



(** ** Severity: the inline patterns *)

Lemma starLoop_caps (body : mstate -> list mstate) (greedy : bool) :
  (forall s e, In e (body s) -> caps e = caps s) ->
  forall fuel s e, In e (starLoop body greedy fuel s) -> caps e = caps s.
Proof.
  intros Hbody. induction fuel as [|fuel IH]; intros s e Hin.
  - cbn [starLoop] in Hin. destruct Hin as [<-|[]]. reflexivity.
  - rewrite starLoop_S in Hin.
    assert (Hmore : In e (flat_map (starLoop body greedy fuel)
                                   (filter (progress s) (body s))) -> caps e = caps s).
    { intros H. apply in_flat_map in H as (x & Hx & He).
      apply filter_In in Hx as [Hx _].
      rewrite (IH _ _ He). apply Hbody, Hx. }
    destruct greedy.
    + apply in_app_or in Hin as [H|[<-|[]]]; [auto | reflexivity].
    + destruct Hin as [<-|H]; [reflexivity | auto].
Qed.

(** Only a capturing group changes the captures. *)
Lemma rmatch_caps_groupFree (r : regex) :
  groupFree r = true -> forall s e, In e (rmatch r s) -> caps e = caps s.
Proof.
  induction r as [p| |a IHa b IHb|a IHa b IHb|g a IHa|n a IHa| | | |a IHa];
    intros Hfree s e Hin; cbn [groupFree] in Hfree; cbn [rmatch] in Hin.
  - destruct (rest s) as [|c t]; [destruct Hin|].
    destruct (p c); [|destruct Hin]. destruct Hin as [<-|[]]. reflexivity.
  - destruct Hin as [<-|[]]. reflexivity.
  - apply andb_true_iff in Hfree as [Ha Hb].
    apply in_flat_map in Hin as (x & Hx & He).
    rewrite (IHb Hb _ _ He). apply (IHa Ha _ _ Hx).
  - apply andb_true_iff in Hfree as [Ha Hb].
    apply in_app_or in Hin as [H|H]; [apply (IHa Ha _ _ H) | apply (IHb Hb _ _ H)].
  - apply (starLoop_caps (rmatch a) g (IHa Hfree) _ _ _ Hin).
  - discriminate.
  - destruct (before s) as [c|]; [destruct (isLineTerminator c)|];
      try destruct Hin as [<-|[]]; try reflexivity; destruct Hin.
  - destruct (rest s) as [|c t]; [|destruct (isLineTerminator c)];
      try destruct Hin as [<-|[]]; try reflexivity; destruct Hin.
  - destruct (xorb _ _); [destruct Hin as [<-|[]]; reflexivity | destruct Hin].
  - destruct (rmatch a s); [destruct Hin as [<-|[]]; reflexivity | destruct Hin].
Qed.

(** A literal under the [i] flag consumes a text that equals it up to
    ASCII case, and captures nothing. *)
Lemma rmatch_liti (l : jsstring) :
  forall s e,
    In e (rmatch (seqs (map chi l)) s) ->
    exists v, rest s = v ++ rest e
              /\ map asciiUpper v = map asciiUpper l
              /\ caps e = caps s.
Proof.
  induction l as [|c l IH]; intros s e Hin.
  - cbn [map seqs rmatch] in Hin. destruct Hin as [<-|[]]. exists []. auto.
  - assert (Hstep : forall x, In x (rmatch (chi c) s) ->
                      exists y t, rest s = y :: t /\ rest x = t
                                  /\ asciiUpper y = asciiUpper c /\ caps x = caps s).
    { intros x Hx. unfold chi in Hx. cbn [rmatch] in Hx.
      destruct (rest s) as [|y t]; [destruct Hx|].
      destruct (char_eqb (asciiUpper c) (asciiUpper y)) eqn:E; [|destruct Hx].
      destruct Hx as [<-|[]]. apply N.eqb_eq in E. exists y, t. auto. }
    destruct l as [|c' l'].
    + cbn [map seqs] in Hin. destruct (Hstep e Hin) as (y & t & Hs & He & Hu & Hc).
      exists [y]. rewrite Hs, He. cbn [map app]. rewrite Hu. auto.
    + change (seqs (map chi (c :: c' :: l')))
        with (RSeq (chi c) (seqs (map chi (c' :: l')))) in Hin.
      rewrite rmatch_seq in Hin. apply in_flat_map in Hin as (x & Hx & He).
      destruct (Hstep x Hx) as (y & t & Hs & Hxr & Hu & Hc).
      destruct (IH x e He) as (v & Hv & Hvu & Hvc).
      exists (y :: v). rewrite Hs. cbn [map app]. rewrite Hu, Hvu, Hvc, Hc.
      rewrite <- Hv, Hxr. auto.
Qed.

Lemma same_upper_lower (x y : char) :
  isLowerLetter y = true -> asciiUpper x = asciiUpper y ->
  asciiLower x = y /\ isAscii x.
Proof.
  unfold isLowerLetter, asciiUpper, asciiLower, isAscii. intros Hy.
  rewrite Hy. apply andb_true_iff in Hy as [H1 H2]. apply N.leb_le in H1, H2.
  destruct ((97 <=? x) && (x <=? 122))%N eqn:Hx;
    destruct ((65 <=? x) && (x <=? 90))%N eqn:Hx'; intros Heq;
    rewrite ?andb_true_iff, ?andb_false_iff, ?N.leb_le, ?N.leb_gt in *; lia.
Qed.

Lemma same_upper_lower_list (l : jsstring) :
  forallb isLowerLetter l = true ->
  forall v, map asciiUpper v = map asciiUpper l ->
            map asciiLower v = l /\ Forall isAscii v.
Proof.
  induction l as [|y l IH]; intros Hl v Hv.
  - destruct v; [split; [reflexivity | constructor] | discriminate].
  - destruct v as [|x v]; [discriminate|]. cbn [map] in Hv. injection Hv as Hx Hv.
    cbn [forallb] in Hl. apply andb_true_iff in Hl as [Hy Hl].
    destruct (same_upper_lower x y Hy Hx) as [H1 H2].
    destruct (IH Hl v Hv) as [H3 H4]. cbn [map]. rewrite H1, H3.
    split; [reflexivity | now constructor].
Qed.

(** What the level alternatives consume is one of the four levels, up to
    ASCII case. *)
Lemma rmatch_severityLevel (s e : mstate) :
  In e (rmatch Patterns.severityLevel s) ->
  exists v, rest s = v ++ rest e /\ caps e = caps s
            /\ In (map asciiLower v) severityLevels /\ Forall isAscii v.
Proof.
  intros Hin.
  change Patterns.severityLevel
    with (RAlt (seqs (map chi (js "critical")))
         (RAlt (seqs (map chi (js "high")))
         (RAlt (seqs (map chi (js "medium"))) (seqs (map chi (js "low")))))) in Hin.
  cbn [rmatch] in Hin.
  assert (Hone : forall l, forallb isLowerLetter l = true -> In l severityLevels ->
                   In e (rmatch (seqs (map chi l)) s) ->
                   exists v, rest s = v ++ rest e /\ caps e = caps s
                             /\ In (map asciiLower v) severityLevels /\ Forall isAscii v).
  { intros l Hl Hlev H. destruct (rmatch_liti l s e H) as (v & Hv & Hu & Hc).
    destruct (same_upper_lower_list l Hl v Hu) as [Hlow Hascii].
    exists v. rewrite Hlow. auto. }
  apply in_app_or in Hin as [H|Hin]; [apply (Hone (js "critical")); auto; now left|].
  apply in_app_or in Hin as [H|Hin];
    [apply (Hone (js "high")); auto; right; now left|].
  apply in_app_or in Hin as [H|H].
  - apply (Hone (js "medium")); auto. right; right; now left.
  - apply (Hone (js "low")); auto. right; right; right; now left.
Qed.

(** A pattern of the shape [A (level) B], with no other group: group 1 of
    any match is one of the four levels, up to ASCII case. *)
Lemma level_group (A B : regex) (s e : mstate) :
  groupFree A = true -> groupFree B = true ->
  In e (rmatch (RSeq A (RSeq (RGroup 1 Patterns.severityLevel) B)) s) ->
  exists v, lookupCap 1 (caps e) = Some v
            /\ In (map asciiLower v) severityLevels /\ Forall isAscii v.
Proof.
  intros HA HB Hin. rewrite rmatch_seq in Hin.
  apply in_flat_map in Hin as (x & Hx & Hin). rewrite rmatch_seq in Hin.
  apply in_flat_map in Hin as (y & Hy & He).
  cbn [rmatch] in Hy. apply in_map_iff in Hy as (z & Hz & Hy).
  destruct (rmatch_severityLevel x z Hy) as (v & Hv & Hc & Hlev & Hascii).
  exists v. rewrite (rmatch_caps_groupFree B HB _ _ He), <- Hz.
  unfold setCap. cbn [caps lookupCap Nat.eqb]. rewrite Hv, firstn_prefix. auto.
Qed.

Lemma search_in (r : regex) (input : jsstring) :
  forall b f, search r b input = Some f ->
              exists b' suffix, In (f_end f) (rmatch r (start b' suffix)).
Proof.
  induction input as [|c t IH]; intros b f Hf; cbn [search] in Hf.
  - destruct (rmatch r (start b [])) as [|e l] eqn:E; [discriminate|].
    injection Hf as <-. exists b, []. rewrite E. now left.
  - destruct (rmatch r (start b (c :: t))) as [|e l] eqn:E.
    + destruct (search r (Some c) t) as [f'|] eqn:E'; [|discriminate].
      injection Hf as <-. cbn [f_end]. exact (IH _ _ E').
    + injection Hf as <-. exists b, (c :: t). rewrite E. now left.
Qed.

Section InlineSeverity.

Variable toLowerCase : jsstring -> jsstring.
Hypothesis toLowerCase_ascii :
  forall s, Forall isAscii s -> toLowerCase s = map asciiLower s.

(** Without an explicit section, the severity is absent or one of critical,
    high, medium and low: the inline patterns only capture those. *)
Lemma inline_severity_levels (markdown : jsstring) :
  matchOf Patterns.explicitSeverity markdown = None ->
  extractSeverity toLowerCase markdown = None
  \/ exists level, In level severityLevels
                   /\ extractSeverity toLowerCase markdown = Some level.
Proof.
  intros Hnone. unfold extractSeverity. rewrite Hnone.
  assert (Hlevel : forall r f,
             (forall s e, In e (rmatch r s) ->
                          exists v, lookupCap 1 (caps e) = Some v
                                    /\ In (map asciiLower v) severityLevels
                                    /\ Forall isAscii v) ->
             matchOf r markdown = Some f ->
             In (toLowerCase (groupText 1 f)) severityLevels).
  { intros r f Hr Hf. destruct (search_in r markdown None f Hf) as (b' & suffix & Hin).
    destruct (Hr _ _ Hin) as (v & Hcap & Hlev & Hascii).
    unfold groupText, group. rewrite Hcap, (toLowerCase_ascii v Hascii). exact Hlev. }
  assert (H1 : forall s e, In e (rmatch Patterns.levelThenNoun s) ->
                 exists v, lookupCap 1 (caps e) = Some v
                           /\ In (map asciiLower v) severityLevels /\ Forall isAscii v).
  { intros s e Hin.
    apply (level_group RWordB
             (RSeq (plus ws) (RSeq Patterns.severityNoun RWordB)) s e);
      [reflexivity | reflexivity | exact Hin]. }
  assert (H2 : forall s e, In e (rmatch Patterns.nounThenLevel s) ->
                 exists v, lookupCap 1 (caps e) = Some v
                           /\ In (map asciiLower v) severityLevels /\ Forall isAscii v).
  { intros s e Hin.
    apply (level_group (RSeq (RSeq Patterns.severityNoun (plus colonOrWs)) RWordB)
             RWordB s e); [reflexivity | reflexivity |].
    rewrite !rmatch_seq_assoc. exact Hin. }
  destruct (matchOf Patterns.levelThenNoun markdown) as [f|] eqn:E1; cbn [orMatch].
  - right. eexists. split; [|reflexivity]. exact (Hlevel _ f H1 E1).
  - destruct (matchOf Patterns.nounThenLevel markdown) as [f|] eqn:E2.
    + right. eexists. split; [|reflexivity]. exact (Hlevel _ f H2 E2).
    + left. reflexivity.
Qed.

End InlineSeverity.

(** ** Severity *)

Section Severity.

Variable toLowerCase : jsstring -> jsstring.
Hypothesis toLowerCase_ascii :
  forall s, Forall isAscii s -> toLowerCase s = map asciiLower s.

(** C3: whatever word opens the [## Impact] section, the severity is that
    word, lower-cased: the explicit-section pattern captures any word.  So
    the severity of a report whose section starts with [Attackers] is
    [attackers], which is none of critical, high, medium and low.  Without
    an explicit section the severity is absent or one of the four levels.
    The two examples of the claim hold: [## Severity] followed by [High]
    gives [high], and a report with no section and no keyword phrase gives
    no severity. *)
Theorem severity_explicit_section_any_word (nowIso : jsstring) (source : option jsstring) :
  let severityOf markdown :=
    severity (metadata (parseReport toLowerCase nowIso markdown source)) in
  (forall c w tail,
     isWord c = true -> forallb isWord w = true -> noWordStart tail = true ->
     severityOf (js "## Impact" ++ [LF] ++ c :: w ++ tail) = Some (toLowerCase (c :: w)))
  /\ severityOf impactReport = Some (js "attackers")
  /\ (forall markdown,
        matchOf Patterns.explicitSeverity markdown = None ->
        severityOf markdown = None
        \/ exists level, In level severityLevels /\ severityOf markdown = Some level)
  /\ severityOf severityReport = Some (js "high")
  /\ severityOf plainReport = None.
Proof.
  intros severityOf. unfold severityOf, parseReport. cbn [metadata severity].
  split; [|split; [|split; [exact (inline_severity_levels toLowerCase toLowerCase_ascii)|]]];
    unfold extractSeverity; [| |split].
  - intros c w tail Hc Hw Htail.
    destruct (explicitSeverity_any_word c w tail Hc Hw Htail) as (e & He & Hcap).
    destruct (search_first _ _ _ _ He) as (f & Hf & Hend).
    unfold matchOf. change (js "## Impact" ++ [LF] ++ c :: w ++ tail)
      with (js "## Impact" ++ LF :: c :: w ++ tail).
    rewrite Hf. unfold groupText, group. rewrite Hend, Hcap. reflexivity.
  - replace (matchOf Patterns.explicitSeverity impactReport)
      with (Some {| f_pre := []; f_text := js "## Impact" ++ [LF] ++ js "Attackers";
                    f_end := {| before := Some 115%N;
                                rest := js " can drain the vault";
                                caps := [(1%nat, js "Attackers")] |} |})
      by (vm_compute; reflexivity).
    unfold groupText, group. cbn [f_end caps lookupCap Nat.eqb].
    rewrite toLowerCase_ascii by (repeat constructor). reflexivity.
  - replace (matchOf Patterns.explicitSeverity severityReport)
      with (Some {| f_pre := []; f_text := js "## Severity" ++ [LF] ++ js "High";
                    f_end := {| before := Some 104%N;
                                rest := [];
                                caps := [(1%nat, js "High")] |} |})
      by (vm_compute; reflexivity).
    unfold groupText, group. cbn [f_end caps lookupCap Nat.eqb].
    rewrite toLowerCase_ascii by (repeat constructor). reflexivity.
  - replace (matchOf Patterns.explicitSeverity plainReport) with (@None found)
      by (vm_compute; reflexivity).
    replace (matchOf Patterns.levelThenNoun plainReport) with (@None found)
      by (vm_compute; reflexivity).
    replace (matchOf Patterns.nounThenLevel plainReport) with (@None found)
      by (vm_compute; reflexivity).
    reflexivity.
Qed.

End Severity.

Lemma severity_explicit_section_any_word_witness :
  severity (metadata (parseReport asciiToLowerCase [] impactReport None))
  = Some (js "attackers")
  /\ severity (metadata (parseReport asciiToLowerCase [] severityReport None))
     = Some (js "high").
Proof.
  destruct (severity_explicit_section_any_word asciiToLowerCase) with (nowIso := @nil char)
    (source := @None jsstring) as (_ & H1 & _ & H2 & _).
  - intros s _. reflexivity.
  - split; [exact H1 | exact H2].
Defined.


(** ** White space: [trim] and [normalizeWhitespace] *)

Lemma trimStart_span (s : jsstring) : trimStart s = snd (spanClass isSpace s).
Proof.
  induction s as [|c t IH]; [reflexivity|].
  cbn [trimStart spanClass]. destruct (isSpace c); [exact IH | reflexivity].
Qed.

Lemma trimStart_split (s : jsstring) :
  exists sp, s = sp ++ trimStart s /\ forallb isSpace sp = true.
Proof.
  exists (fst (spanClass isSpace s)). rewrite trimStart_span. apply spanClass_app.
Qed.

Lemma trimStart_head (s : jsstring) :
  match trimStart s with c :: _ => isSpace c = false | [] => True end.
Proof.
  induction s as [|c t IH]; [exact I|]. cbn [trimStart].
  destruct (isSpace c) eqn:E; [exact IH | exact E].
Qed.

Lemma forallb_rev (p : char -> bool) (s : jsstring) : forallb p (rev s) = forallb p s.
Proof.
  induction s as [|c t IH]; [reflexivity|].
  cbn [rev forallb]. rewrite forallb_app, IH. cbn [forallb].
  rewrite andb_true_r. apply andb_comm.
Qed.

Lemma trimEnd_split (s : jsstring) :
  exists sp, s = trimEnd s ++ sp /\ forallb isSpace sp = true.
Proof.
  destruct (trimStart_split (rev s)) as [sp [H1 H2]].
  exists (rev sp). split.
  - unfold trimEnd. rewrite <- rev_app_distr, <- H1. symmetry. apply rev_involutive.
  - now rewrite forallb_rev.
Qed.

Lemma trimEnd_last (s : jsstring) :
  trimEnd s = [] \/ exists m d, trimEnd s = m ++ [d] /\ isSpace d = false.
Proof.
  unfold trimEnd. pose proof (trimStart_head (rev s)) as H.
  destruct (trimStart (rev s)) as [|c r]; [now left|].
  right. exists (rev r), c. split; [reflexivity | exact H].
Qed.

Lemma trimStart_clean (s : jsstring) :
  match s with c :: _ => isSpace c = false | [] => True end -> trimStart s = s.
Proof. destruct s as [|c t]; [reflexivity|]. cbn [trimStart]. now intros ->. Qed.

Lemma trimEnd_head (s : jsstring) :
  match s with c :: _ => isSpace c = false | [] => True end ->
  match trimEnd s with c :: _ => isSpace c = false | [] => True end.
Proof.
  destruct s as [|c t]; intros H.
  - exact I.
  - rewrite (trimEnd_cons_keep c t H). exact H.
Qed.

(** [trim] leaves a string that starts and ends with a character that is
    not white space, or nothing. *)
Lemma trim_ends (s : jsstring) :
  trim s = []
  \/ exists c m d, (trim s = c :: m ++ [d] \/ (trim s = [c] /\ c = d /\ m = []))
                   /\ isSpace c = false /\ isSpace d = false.
Proof.
  unfold trim. pose proof (trimStart_head s) as Hh.
  pose proof (trimEnd_head (trimStart s) Hh) as Hh'.
  destruct (trimEnd_last (trimStart s)) as [E | [m [d [E Hd]]]]; [now left|].
  right. rewrite E in *. destruct m as [|c m'].
  - exists d, [], d. cbn [app]. auto.
  - exists c, m', d. cbn [app] in *. auto.
Qed.

Lemma trim_trimmed (s : jsstring) : trimmed (trim s).
Proof.
  unfold trimmed. destruct (trim_ends s) as [E | [c [m [d [[E | [E [-> ->]]] [Hc Hd]]]]]];
    rewrite E.
  - reflexivity.
  - now apply trim_id_ends.
  - unfold trim. cbn [trimStart]. rewrite Hd. now apply (trimEnd_snoc_keep [] d).
Qed.

Lemma trim_split (s : jsstring) :
  exists pre post,
    s = pre ++ trim s ++ post
    /\ forallb isSpace pre = true /\ forallb isSpace post = true.
Proof.
  destruct (trimStart_split s) as [pre [H1 H2]].
  destruct (trimEnd_split (trimStart s)) as [post [H3 H4]].
  exists pre, post. unfold trim. rewrite <- H3. auto.
Qed.

Lemma trim_all_space (s : jsstring) : trim s = [] <-> forallb isSpace s = true.
Proof.
  split.
  - intros E. destruct (trim_split s) as [pre [post [H [H1 H2]]]].
    rewrite E in H. rewrite H. cbn [app]. now rewrite forallb_app, H1, H2.
  - intros H. unfold trim. rewrite trimStart_span.
    now rewrite (spanClass_all isSpace s H).
Qed.

Lemma filter_all_space (s : jsstring) :
  forallb isSpace s = true -> filter (fun c => negb (isSpace c)) s = [].
Proof.
  induction s as [|c t IH]; [reflexivity|]. cbn [forallb filter].
  intros H. apply andb_true_iff in H as [Hc Ht]. rewrite Hc. cbn [negb]. auto.
Qed.

Lemma trim_keeps_text (s : jsstring) :
  filter (fun c => negb (isSpace c)) (trim s) = filter (fun c => negb (isSpace c)) s.
Proof.
  destruct (trim_split s) as [pre [post [H [H1 H2]]]].
  rewrite H at 2. rewrite !filter_app.
  rewrite (filter_all_space pre H1), (filter_all_space post H2).
  cbn [app]. now rewrite app_nil_r.
Qed.

(** *** Steps of a global [replace] *)

Lemma replaceFrom_match (r : regex) (replacement : jsstring) (b : option char)
    (c : char) (t : jsstring) (e : mstate) (l : list mstate) (k : nat) :
  rmatch r (start b (c :: t)) = e :: l ->
  (length (c :: t) - length (rest e))%nat = S k ->
  replaceFrom r replacement 0 b (c :: t)
  = replacement ++ replaceFrom r replacement k (Some c) t.
Proof. intros He Hk. cbn [replaceFrom]. rewrite He, Hk. reflexivity. Qed.

Lemma replaceFrom_nomatch (r : regex) (replacement : jsstring) (b : option char)
    (c : char) (t : jsstring) :
  rmatch r (start b (c :: t)) = [] ->
  replaceFrom r replacement 0 b (c :: t) = c :: replaceFrom r replacement 0 (Some c) t.
Proof. intros He. cbn [replaceFrom]. rewrite He. reflexivity. Qed.

(** *** [replace(/\s+/g, ' ')] *)

Lemma plus_class_first (p : char -> bool) (b : option char) (c : char) (t : jsstring) :
  p c = true ->
  exists b', firstIs (RSeq (RChar p) (RStar true (RChar p))) (start b (c :: t))
                     {| before := b'; rest := snd (spanClass p t); caps := [] |}.
Proof.
  intros Hc. destruct (firstIs_star_class p (Some c) t []) as [b' Hs].
  exists b'. eapply firstIs_seq; [|exact Hs].
  unfold start. now apply firstIs_char.
Qed.

Lemma plus_class_none (p : char -> bool) (b : option char) (input : jsstring) :
  match input with c :: _ => p c = false | [] => True end ->
  rmatch (RSeq (RChar p) (RStar true (RChar p))) (start b input) = [].
Proof.
  intros H. rewrite rmatch_seq, rmatch_char. unfold start. cbn [rest].
  destruct input as [|c t]; [reflexivity|]. now rewrite H.
Qed.

Lemma span_length (p : char -> bool) (s : jsstring) :
  (length s - length (snd (spanClass p s)))%nat = length (fst (spanClass p s)).
Proof.
  destruct (spanClass_app p s) as [H _]. rewrite H at 1. rewrite length_app. lia.
Qed.

Lemma replace_spaces (input : jsstring) :
  (forall b, replaceFrom (plus ws) (js " ") 0 b input = collapseSpaces false input)
  /\ (forall b, replaceFrom (plus ws) (js " ") (length (fst (spanClass isSpace input))) b input
                = collapseSpaces true input).
Proof.
  induction input as [|c t [IHA IHB]].
  - split; intros b; cbn [spanClass fst length replaceFrom];
      change (plus ws) with (RSeq (RChar isSpace) (RStar true (RChar isSpace)));
      now rewrite (plus_class_none isSpace b [] I).
  - destruct (isSpace c) eqn:Hc.
    + split; intros b.
      * destruct (plus_class_first isSpace b c t Hc) as [b' [l Hl]].
        cbn [replaceFrom]. change (plus ws) with (RSeq (RChar isSpace) (RStar true (RChar isSpace))).
        rewrite Hl. cbn [rest]. cbn [collapseSpaces]. rewrite Hc.
        replace (length (c :: t) - length (snd (spanClass isSpace t)))%nat
          with (S (length (fst (spanClass isSpace t)))).
        2:{ cbn [length]. pose proof (span_length isSpace t).
            pose proof (spanClass_shorter isSpace t). lia. }
        change (js " ") with [32%N]. cbn [app]. f_equal. apply IHB.
      * cbn [spanClass]. rewrite Hc. cbn [fst length replaceFrom collapseSpaces].
        rewrite Hc. apply IHB.
    + assert (Hn : rmatch (RSeq (RChar isSpace) (RStar true (RChar isSpace))) = rmatch (plus ws))
        by reflexivity.
      split; intros b.
      * cbn [replaceFrom]. rewrite <- Hn, (plus_class_none isSpace b (c :: t) Hc).
        cbn [collapseSpaces]. rewrite Hc. f_equal. apply IHA.
      * cbn [spanClass]. rewrite Hc. cbn [fst length replaceFrom].
        rewrite <- Hn, (plus_class_none isSpace b (c :: t) Hc).
        cbn [collapseSpaces]. rewrite Hc. f_equal. apply IHA.
Qed.

Lemma normalizeWhitespace_collapse (text : jsstring) :
  normalizeWhitespace text = trim (collapseSpaces false text).
Proof.
  unfold normalizeWhitespace, replaceAll. now rewrite (proj1 (replace_spaces text)).
Qed.

Lemma collapse_true_head (s : jsstring) :
  match collapseSpaces true s with x :: _ => negb (isSpace x) = true | [] => True end.
Proof.
  induction s as [|c t IH]; [exact I|]. cbn [collapseSpaces].
  destruct (isSpace c) eqn:E; [exact IH|]. now rewrite E.
Qed.

Lemma collapse_spaced (s : jsstring) : forall inRun, spaced (collapseSpaces inRun s) = true.
Proof.
  induction s as [|c t IH]; intros inRun; [reflexivity|]. cbn [collapseSpaces].
  destruct (isSpace c) eqn:E.
  - destruct inRun; [apply IH|]. cbn [spaced]. rewrite (IH true).
    pose proof (collapse_true_head t) as H.
    destruct (collapseSpaces true t) as [|x r]; [reflexivity|]. now rewrite H.
  - cbn [spaced]. rewrite E. apply IH.
Qed.

Lemma spaced_tail (c : char) (t : jsstring) : spaced (c :: t) = true -> spaced t = true.
Proof. cbn [spaced]. intros H. now apply andb_true_iff in H as [_ H]. Qed.

Lemma spaced_trimStart (s : jsstring) : spaced s = true -> spaced (trimStart s) = true.
Proof.
  induction s as [|c t IH]; intros H; [reflexivity|]. cbn [trimStart].
  destruct (isSpace c); [apply IH, (spaced_tail c t H) | exact H].
Qed.

Lemma trimEnd_cons (c : char) (t : jsstring) :
  trimEnd (c :: t)
  = match trimEnd t with
    | [] => if isSpace c then [] else [c]
    | r => c :: r
    end.
Proof.
  change (c :: t) with ([c] ++ t). rewrite trimEnd_app.
  destruct (trimEnd t); [|reflexivity]. unfold trimEnd. cbn [rev app trimStart].
  now destruct (isSpace c).
Qed.

Lemma trimEnd_same_head (t : jsstring) (x : char) (r : jsstring) :
  trimEnd t = x :: r -> exists t', t = x :: t'.
Proof.
  intros E. destruct (trimEnd_split t) as [sp [H _]]. rewrite E in H.
  exists (r ++ sp). exact H.
Qed.

Lemma spaced_trimEnd (s : jsstring) : spaced s = true -> singleSpaced (trimEnd s) = true.
Proof.
  induction s as [|c t IH]; intros H; [reflexivity|].
  rewrite trimEnd_cons. pose proof (IH (spaced_tail c t H)) as IHt.
  destruct (trimEnd t) as [|x r] eqn:E.
  - destruct (isSpace c) eqn:Ec; [reflexivity|]. cbn [singleSpaced]. now rewrite Ec.
  - cbn [singleSpaced]. cbn [singleSpaced] in IHt. rewrite IHt, andb_true_r.
    destruct (isSpace c) eqn:Ec; [|reflexivity].
    destruct (trimEnd_same_head t x r E) as [t' ->].
    cbn [spaced] in H. rewrite Ec in H.
    apply andb_true_iff in H as [H _]. exact H.
Qed.

Lemma singleSpaced_collapse (s : jsstring) :
  singleSpaced s = true ->
  forall inRun, (inRun = true -> startsClean s = true) ->
  collapseSpaces inRun s = s.
Proof.
  induction s as [|c t IH]; intros H inRun Hrun; [reflexivity|].
  cbn [singleSpaced] in H. apply andb_true_iff in H as [Hc Ht].
  cbn [collapseSpaces]. destruct (isSpace c) eqn:Ec.
  - apply andb_true_iff in Hc as [H32 Hnext]. apply N.eqb_eq in H32.
    destruct inRun.
    + specialize (Hrun eq_refl). cbn [startsClean] in Hrun. now rewrite Ec in Hrun.
    + rewrite (IH Ht true); [now rewrite H32|].
      intros _. destruct t as [|x t']; [discriminate | exact Hnext].
  - f_equal. apply (IH Ht false). discriminate.
Qed.

Lemma singleSpaced_trimEnd (s : jsstring) : singleSpaced s = true -> trimEnd s = s.
Proof.
  induction s as [|c t IH]; intros H; [reflexivity|].
  cbn [singleSpaced] in H. apply andb_true_iff in H as [Hc Ht].
  rewrite trimEnd_cons, (IH Ht). destruct t as [|x t']; [|reflexivity].
  destruct (isSpace c); [|reflexivity].
  apply andb_true_iff in Hc as [_ Hc]. discriminate.
Qed.

Lemma collapse_keeps_text (s : jsstring) :
  forall inRun,
    filter (fun c => negb (isSpace c)) (collapseSpaces inRun s)
    = filter (fun c => negb (isSpace c)) s.
Proof.
  induction s as [|c t IH]; intros inRun; [reflexivity|].
  cbn [collapseSpaces]. destruct (isSpace c) eqn:Ec.
  - destruct inRun; cbn [filter]; rewrite ?Ec; cbn [negb]; [apply IH|].
    change (isSpace 32%N) with true. cbn [negb]. apply IH.
  - cbn [filter]. rewrite Ec. cbn [negb]. f_equal. apply IH.
Qed.

Lemma normalizeWhitespace_startsClean (text : jsstring) :
  startsClean (normalizeWhitespace text) = true.
Proof.
  rewrite normalizeWhitespace_collapse. unfold trim.
  pose proof (trimStart_head (collapseSpaces false text)) as H.
  pose proof (trimEnd_head _ H) as H'. unfold startsClean.
  destruct (trimEnd (trimStart (collapseSpaces false text))); [reflexivity|].
  now rewrite H'.
Qed.

Lemma normalizeWhitespace_singleSpaced (text : jsstring) :
  singleSpaced (normalizeWhitespace text) = true.
Proof.
  rewrite normalizeWhitespace_collapse. unfold trim.
  apply spaced_trimEnd, spaced_trimStart, collapse_spaced.
Qed.

Lemma normalizeWhitespace_empty (text : jsstring) :
  normalizeWhitespace text = [] <-> forallb isSpace text = true.
Proof.
  rewrite normalizeWhitespace_collapse, trim_all_space. split; intros H.
  - pose proof (collapse_keeps_text text false) as K.
    rewrite (filter_all_space _ H) in K.
    clear H. induction text as [|c t IH]; [reflexivity|].
    cbn [filter] in K. cbn [forallb]. destruct (isSpace c); [|discriminate].
    cbn [negb] in K. cbn [andb]. apply IH. exact K.
  - pose proof (collapse_keeps_text text false) as K.
    rewrite (filter_all_space _ H) in K.
    generalize dependent (collapseSpaces false text). intros s K.
    induction s as [|c t IH]; [reflexivity|].
    cbn [filter] in K. cbn [forallb]. destruct (isSpace c); [|discriminate].
    cbn [negb] in K. cbn [andb]. apply IH. exact K.
Qed.

(** X1: [normalizeWhitespace] leaves white space only as single U+0020
    characters between other characters, keeps every other character in
    its place in the sequence, and changes nothing when applied again. *)
Theorem normalizeWhitespace_normal_form (text : jsstring) :
  singleSpaced (normalizeWhitespace text) = true
  /\ startsClean (normalizeWhitespace text) = true
  /\ filter (fun c => negb (isSpace c)) (normalizeWhitespace text)
     = filter (fun c => negb (isSpace c)) text
  /\ normalizeWhitespace (normalizeWhitespace text) = normalizeWhitespace text
  /\ (normalizeWhitespace text = [] <-> forallb isSpace text = true).
Proof.
  pose proof (normalizeWhitespace_singleSpaced text) as H1.
  pose proof (normalizeWhitespace_startsClean text) as H2.
  repeat split; try assumption.
  - rewrite normalizeWhitespace_collapse, trim_keeps_text. apply collapse_keeps_text.
  - rewrite (normalizeWhitespace_collapse (normalizeWhitespace text)).
    rewrite (singleSpaced_collapse _ H1 false) by discriminate.
    unfold trim. rewrite trimStart_clean.
    + now apply singleSpaced_trimEnd.
    + unfold startsClean in H2. destruct (normalizeWhitespace text); [exact I|].
      now apply negb_true_iff in H2.
  - apply normalizeWhitespace_empty.
  - apply normalizeWhitespace_empty.
Qed.

(** *** Template digest *)

Lemma slice0_firstn (s : jsstring) (n : Z) : 0 <= n -> slice0 s n = firstn (Z.to_nat n) s.
Proof. intros H. unfold slice0. destruct (n <? 0) eqn:E; [lia | reflexivity]. Qed.

(** X2: the entry of a template in the digest is its heading alone when the
    description is absent or holds white space only; otherwise a synopsis
    line follows, holding the normalized description, cut after 420
    characters and closed by an ellipsis when it is longer. *)
Theorem templateEntry_synopsis (template : GlideTemplate) :
  let normalized :=
    match t_description template with
    | Some description => normalizeWhitespace description
    | None => []
    end in
  let heading := js "### " ++ t_title template in
  (normalized = []
   <-> match t_description template with
       | Some description => forallb isSpace description = true
       | None => True
       end)
  /\ (normalized = [] -> templateEntry template = heading)
  /\ (normalized <> [] ->
      exists synopsis,
        templateEntry template = heading ++ [LF] ++ js "- Synopsis: " ++ synopsis
        /\ 1 <= len synopsis <= MAX_TEMPLATE_SUMMARY_LENGTH + 1
        /\ (len normalized <= MAX_TEMPLATE_SUMMARY_LENGTH -> synopsis = normalized)
        /\ (MAX_TEMPLATE_SUMMARY_LENGTH < len normalized ->
            synopsis = firstn 420 normalized ++ [ELLIPSIS])).
Proof.
  cbv zeta. unfold templateEntry, summarizeTemplate, MAX_TEMPLATE_SUMMARY_LENGTH.
  destruct (t_description template) as [description|].
  2:{ repeat split; auto. intros H. now contradiction H. }
  split; [apply normalizeWhitespace_empty|].
  destruct description as [|c d].
  { split; [reflexivity|]. intros H. now contradiction H. }
  cbn [truthy]. set (normalized := normalizeWhitespace (c :: d)).
  destruct (len normalized <=? 420) eqn:E.
  - apply Z.leb_le in E. split.
    + intros ->. reflexivity.
    + intros Hne. exists normalized. destruct normalized as [|x r] eqn:En; [now contradiction Hne|].
      cbn [truthy filterBoolean join]. repeat split; try reflexivity.
      * rewrite len_cons. pose proof (len_nonneg r). lia.
      * lia.
      * intros. lia.
  - apply Z.leb_gt in E. split.
    + intros H. rewrite H in E. discriminate.
    + intros Hne. exists (firstn 420 normalized ++ [ELLIPSIS]).
      rewrite slice0_firstn by lia. change (Z.to_nat 420) with 420%nat.
      assert (Hlen : len (firstn 420 normalized ++ [ELLIPSIS]) = 421).
      { rewrite len_app. unfold len in *. rewrite length_firstn. cbn [length]. lia. }
      destruct (firstn 420 normalized ++ [ELLIPSIS]) as [|x r] eqn:Ef.
      { destruct (firstn 420 normalized); discriminate. }
      cbn [truthy filterBoolean join]. repeat split; try reflexivity; try lia.
Qed.

(** ** The excerpt of the static document: [summarize] *)

(** [lastIndexOf] of a needle that is not empty: the index returned is that
    of an occurrence, and no occurrence starts after it. *)
Lemma lastIndexFrom_spec (c : char) (needle : jsstring) (s : jsstring) :
  forall i last,
    let r := lastIndexFrom (c :: needle) s i last in
    (r = last /\ forall k, isPrefix (c :: needle) (skipn k s) = false)
    \/ exists k : nat,
         r = i + Z.of_nat k /\ (k < length s)%nat
         /\ isPrefix (c :: needle) (skipn k s) = true
         /\ forall k', (k < k')%nat -> isPrefix (c :: needle) (skipn k' s) = false.
Proof.
  induction s as [|x t IH]; intros i last; cbv zeta.
  - left. cbn [lastIndexFrom isPrefix]. split; [reflexivity|].
    intros k. now destruct k.
  - cbn [lastIndexFrom].
    set (last' := if isPrefix (c :: needle) (x :: t) then i else last).
    destruct (IH (i + 1) last') as [[Hr Hno] | [k [Hr [Hk [Hat Hlast]]]]].
    + rewrite Hr. unfold last'. destruct (isPrefix (c :: needle) (x :: t)) eqn:E.
      * right. exists 0%nat. cbn [skipn length]. repeat split; [lia | lia | exact E |].
        intros k' Hk'. destruct k' as [|k'']; [lia|]. cbn [skipn]. apply Hno.
      * left. split; [reflexivity|]. intros k. destruct k as [|k']; [exact E|].
        cbn [skipn]. apply Hno.
    + right. exists (S k). cbn [skipn length]. repeat split; [lia | lia | exact Hat |].
      intros k' Hk'. destruct k' as [|k'']; [lia|]. cbn [skipn]. apply Hlast. lia.
Qed.

Lemma lastIndexOf_spec (c : char) (needle : jsstring) (s : jsstring) :
  let r := lastIndexOf s (c :: needle) in
  -1 <= r < len s
  /\ (0 <= r -> isPrefix (c :: needle) (skipn (Z.to_nat r) s) = true)
  /\ (forall j, r < j -> isPrefix (c :: needle) (skipn (Z.to_nat j) s) = false).
Proof.
  cbv zeta. unfold lastIndexOf, len.
  destruct (lastIndexFrom_spec c needle s 0 (-1)) as [[Hr Hno] | [k [Hr [Hk [Hat Hlast]]]]];
    cbv zeta in Hr; rewrite Hr.
  - repeat split; try lia. intros j _. apply Hno.
  - repeat split; try lia.
    + intros _. now replace (Z.to_nat (0 + Z.of_nat k)) with k by lia.
    + intros j Hj. apply Hlast. lia.
Qed.

Lemma isPrefix_head (c : char) (needle : jsstring) (k : nat) (s : jsstring) :
  isPrefix (c :: needle) (skipn k s) = true ->
  exists x, nth_error s k = Some x /\ char_eqb c x = true.
Proof.
  revert s. induction k as [|k IH]; intros s H.
  - destruct s as [|x t]; [discriminate|]. cbn [skipn isPrefix] in H.
    apply andb_true_iff in H as [H _]. exists x. now split.
  - destruct s as [|x t]; [discriminate|]. cbn [skipn] in H. cbn [nth_error]. now apply IH.
Qed.

Lemma isPrefix_single (c : char) (k : nat) (s : jsstring) (x : char) :
  nth_error s k = Some x -> isPrefix [c] (skipn k s) = char_eqb c x.
Proof.
  revert s. induction k as [|k IH]; intros s H.
  - destruct s as [|y t]; [discriminate|]. cbn [nth_error] in H. injection H as ->.
    cbn [skipn isPrefix]. apply andb_true_r.
  - destruct s as [|y t]; [discriminate|]. cbn [nth_error] in H. cbn [skipn]. now apply IH.
Qed.

Lemma charAt_firstn (s : jsstring) (n : nat) (j : Z) :
  j < Z.of_nat n -> charAt (firstn n s) j = charAt s j.
Proof.
  intros H. unfold charAt. destruct (j <? 0) eqn:E; [reflexivity|].
  rewrite nth_error_firstn.
  destruct (Nat.ltb_spec (Z.to_nat j) n); [reflexivity | lia].
Qed.

(** The last full stop or line feed of a string: what the three
    [lastIndexOf] calls of [summarize] find together. *)
Lemma lastExtent_spec (s : jsstring) :
  let lastExtent :=
    Z.max (Z.max (lastIndexOf s (js ".")) (lastIndexOf s [LF; LF])) (lastIndexOf s [LF]) in
  -1 <= lastExtent < Z.max 0 (len s)
  /\ (0 <= lastExtent -> exists c, charAt s lastExtent = Some c /\ isBreak c = true)
  /\ (forall j c, lastExtent < j -> charAt s j = Some c -> isBreak c = false).
Proof.
  cbv zeta. change (js ".") with (@cons char 46%N (@nil char)).
  destruct (lastIndexOf_spec 46%N [] s) as [D1 [D2 D3]].
  destruct (lastIndexOf_spec LF [LF] s) as [P1 [P2 P3]].
  destruct (lastIndexOf_spec LF [] s) as [L1 [L2 L3]].
  cbv zeta in D1, D2, D3, P1, P2, P3, L1, L2, L3.
  generalize dependent (lastIndexOf s (@cons char 46%N (@nil char))). intros d D1 D2 D3.
  generalize dependent (lastIndexOf s [LF; LF]). intros p P1 P2 P3.
  generalize dependent (lastIndexOf s [LF]). intros l L1 L2 L3.
  split; [lia|]. split.
  - intros H0.
    assert (Hcase : Z.max (Z.max d p) l = d \/ Z.max (Z.max d p) l = p \/ Z.max (Z.max d p) l = l)
      by lia.
    unfold charAt. destruct (Z.max (Z.max d p) l <? 0) eqn:E; [lia|].
    destruct Hcase as [Hm | [Hm | Hm]]; rewrite Hm in *.
    + destruct (isPrefix_head _ _ _ _ (D2 H0)) as [x [Hx Hc]].
      exists x. split; [exact Hx|]. unfold isBreak, isDot. now rewrite Hc.
    + destruct (isPrefix_head _ _ _ _ (P2 H0)) as [x [Hx Hc]].
      exists x. split; [exact Hx|]. unfold isBreak, isLF. rewrite Hc. apply orb_true_r.
    + destruct (isPrefix_head _ _ _ _ (L2 H0)) as [x [Hx Hc]].
      exists x. split; [exact Hx|]. unfold isBreak, isLF. rewrite Hc. apply orb_true_r.
  - intros j c Hj Hc. unfold charAt in Hc. destruct (j <? 0) eqn:E; [discriminate|].
    unfold isBreak, isDot, isLF.
    rewrite <- (isPrefix_single 46%N _ _ _ Hc), <- (isPrefix_single LF _ _ _ Hc).
    rewrite (D3 j), (L3 j) by lia. reflexivity.
Qed.

Lemma firstn_firstn_le (s : jsstring) (a b : nat) :
  (a <= b)%nat -> firstn a (firstn b s) = firstn a s.
Proof. intros H. rewrite firstn_firstn. now rewrite Nat.min_l. Qed.

(** X3: [summarize] returns the trimmed text when it fits.  A longer text
    is cut and closed by an ellipsis: at its last full stop or line feed
    before [maxLength] when that lies beyond index 200, at [maxLength]
    otherwise.  The result is never longer than [maxLength + 1], and it is
    empty only for a text of white space that fits. *)
Theorem summarize_cut (text : jsstring) (maxLength : Z) :
  0 <= maxLength ->
  (len text <= maxLength -> summarize text maxLength = trim text)
  /\ (maxLength < len text ->
      exists cut,
        summarize text maxLength = trim (firstn (Z.to_nat cut) text) ++ [ELLIPSIS]
        /\ (cut = maxLength
            \/ 200 < cut < maxLength
               /\ exists c, charAt text cut = Some c /\ isBreak c = true)
        /\ (forall j c,
              200 < j < maxLength -> cut < j \/ cut = maxLength ->
              charAt text j = Some c -> isBreak c = false))
  /\ len (summarize text maxLength) <= maxLength + 1
  /\ (summarize text maxLength = [] <-> len text <= maxLength /\ forallb isSpace text = true).
Proof.
  intros Hmax. unfold summarize.
  destruct (len text <=? maxLength) eqn:E.
  - apply Z.leb_le in E. repeat split; try lia.
    + pose proof (trim_len text). lia.
    + now apply trim_all_space.
    + intros [_ H]. now apply trim_all_space.
  - apply Z.leb_gt in E. rewrite (slice0_firstn text maxLength Hmax).
    set (truncated := firstn (Z.to_nat maxLength) text).
    assert (Hlen : len truncated = maxLength).
    { unfold truncated, len in *. rewrite length_firstn. lia. }
    destruct (lastExtent_spec truncated) as [B1 [B2 B3]]. cbv zeta in B1, B2, B3.
    set (lastExtent := Z.max (Z.max (lastIndexOf truncated (js ".")) (lastIndexOf truncated [LF; LF]))
                             (lastIndexOf truncated [LF])) in *.
    set (safeCut := if lastExtent >? 200 then lastExtent else maxLength).
    assert (Hcut : 0 <= safeCut <= maxLength).
    { unfold safeCut. destruct (lastExtent >? 200) eqn:G; lia. }
    assert (Hslice : slice0 truncated safeCut = firstn (Z.to_nat safeCut) text).
    { rewrite (slice0_firstn _ _ (proj1 Hcut)). unfold truncated.
      apply firstn_firstn_le. lia. }
    rewrite Hslice.
    assert (Hbound : len (trim (firstn (Z.to_nat safeCut) text) ++ [ELLIPSIS]) <= maxLength + 1).
    { rewrite len_app. pose proof (trim_len (firstn (Z.to_nat safeCut) text)) as T.
      unfold len in *. rewrite length_firstn in T. cbn [length]. lia. }
    split; [lia|]. split; [|split; [exact Hbound|]].
    + intros _. exists safeCut. split; [reflexivity|]. unfold safeCut.
      destruct (lastExtent >? 200) eqn:G.
      * apply Z.gtb_lt in G. split.
        -- right. split; [lia|]. destruct (B2 ltac:(lia)) as [c [Hc Hb]].
           exists c. split; [|exact Hb]. rewrite <- Hc. symmetry.
           apply charAt_firstn. lia.
        -- intros j c Hj [Hlt | Heq]; [|lia]. intros Hc. apply (B3 j c Hlt).
           unfold truncated. rewrite charAt_firstn by lia. exact Hc.
      * assert (G' : lastExtent <= 200) by (destruct (Z.gtb_spec lastExtent 200); [discriminate | lia]).
        split; [now left|]. intros j c Hj _ Hc. apply (B3 j c ltac:(lia)).
        unfold truncated. rewrite charAt_firstn by lia. exact Hc.
    + split.
      * intros H. destruct (trim (firstn (Z.to_nat safeCut) text)); discriminate.
      * intros [H _]. lia.
Qed.

Lemma summarize_cut_witness :
  summarize (js "  The vault can be drained. ") FALLBACK_SUMMARY_LENGTH
  = js "The vault can be drained.".
Proof.
  destruct (summarize_cut (js "  The vault can be drained. ") FALLBACK_SUMMARY_LENGTH) as [H _].
  - unfold FALLBACK_SUMMARY_LENGTH. lia.
  - rewrite H; [reflexivity|]. unfold FALLBACK_SUMMARY_LENGTH. vm_compute. discriminate.
Defined.

(** ** What [sanitizeModelResponse] returns *)

Lemma leadingLF_span (s : jsstring) : leadingLF s = length (fst (spanClass isLF s)).
Proof.
  induction s as [|c t IH]; [reflexivity|]. cbn [leadingLF spanClass].
  destruct (isLF c); cbn [fst length]; [now rewrite IH | reflexivity].
Qed.

Lemma isLF_eq (c : char) : isLF c = true -> c = LF.
Proof. unfold isLF. intros H. apply N.eqb_eq in H. now symmetry. Qed.

(** Three line feeds or more: the pattern takes the whole run. *)
Lemma blankRun_first (b : option char) (t : jsstring) :
  exists b',
    firstIs Sanitize.blankRun (start b (LF :: LF :: LF :: t))
            {| before := b'; rest := snd (spanClass isLF t); caps := [] |}.
Proof.
  destruct (firstIs_star_class isLF (Some LF) t []) as [b' Hs]. exists b'.
  change Sanitize.blankRun
    with (RSeq (RChar isLF) (RSeq (RChar isLF) (RSeq (RChar isLF) (RStar true (RChar isLF))))).
  unfold start.
  eapply firstIs_seq; [now apply firstIs_char|].
  eapply firstIs_seq; [now apply firstIs_char|].
  eapply firstIs_seq; [now apply firstIs_char|]. exact Hs.
Qed.

(** Fewer than three: no match here. *)
Lemma blankRun_none (b : option char) (input : jsstring) :
  (leadingLF input < 3)%nat -> rmatch Sanitize.blankRun (start b input) = [].
Proof.
  intros H.
  change Sanitize.blankRun
    with (RSeq (RChar isLF) (RSeq (RChar isLF) (RSeq (RChar isLF) (RStar true (RChar isLF))))).
  unfold start. rewrite rmatch_seq, rmatch_char. cbn [rest].
  destruct input as [|c1 t1]; [reflexivity|]. cbn [leadingLF] in H.
  destruct (isLF c1); [|reflexivity]. cbn [flat_map]. rewrite app_nil_r.
  rewrite rmatch_seq, rmatch_char. unfold stepOver. cbn [rest].
  destruct t1 as [|c2 t2]; [reflexivity|]. cbn [leadingLF] in H.
  destruct (isLF c2); [|reflexivity]. cbn [flat_map]. rewrite app_nil_r.
  rewrite rmatch_seq, rmatch_char. unfold stepOver. cbn [rest].
  destruct t2 as [|c3 t3]; [reflexivity|]. cbn [leadingLF] in H.
  destruct (isLF c3); [lia | reflexivity].
Qed.

Lemma replace_blank (input : jsstring) :
  (forall b m, (m = 0 \/ m + leadingLF input <= 2)%nat ->
               replaceFrom Sanitize.blankRun [LF; LF] 0 b input = squeezeBlank m input)
  /\ (forall b, replaceFrom Sanitize.blankRun [LF; LF] (leadingLF input) b input
                = squeezeBlank 2 input).
Proof.
  induction input as [|c t [IHA IHB]].
  - split; intros; cbn [leadingLF replaceFrom]; now rewrite (blankRun_none _ []) by (cbn; lia).
  - assert (A : forall b m, (m = 0 \/ m + leadingLF (c :: t) <= 2)%nat ->
                replaceFrom Sanitize.blankRun [LF; LF] 0 b (c :: t) = squeezeBlank m (c :: t)).
    { intros b m Hm. destruct (Nat.ltb_spec (leadingLF (c :: t)) 3) as [Hlt | Hge].
      - cbn [replaceFrom]. rewrite (blankRun_none b (c :: t) Hlt).
        cbn [squeezeBlank]. cbn [leadingLF] in Hm, Hlt. destruct (isLF c) eqn:Ec.
        + assert (Hm2 : (m <? 2)%nat = true) by (apply Nat.ltb_lt; lia).
          rewrite Hm2, (isLF_eq c Ec). f_equal. apply IHA. lia.
        + f_equal. apply IHA. now left.
      - destruct Hm as [-> | Hm]; [|lia].
        cbn [leadingLF] in Hge. destruct (isLF c) eqn:E1; [|lia].
        destruct t as [|c2 t2]; [cbn in Hge; lia|]. cbn [leadingLF] in Hge.
        destruct (isLF c2) eqn:E2; [|lia].
        destruct t2 as [|c3 t3]; [cbn in Hge; lia|]. cbn [leadingLF] in Hge.
        destruct (isLF c3) eqn:E3; [|lia].
        rewrite (isLF_eq c E1), (isLF_eq c2 E2), (isLF_eq c3 E3) in *.
        destruct (blankRun_first b t3) as [b' [l Hl]].
        rewrite (replaceFrom_match _ _ _ _ _ _ _ (leadingLF (LF :: LF :: t3)) Hl).
        2:{ cbn [rest leadingLF length]. change (isLF LF) with true. cbv iota.
            rewrite leadingLF_span. pose proof (span_length isLF t3).
            pose proof (spanClass_shorter isLF t3). lia. }
        rewrite IHB. cbn [app squeezeBlank]. change (isLF LF) with true. cbv iota.
        reflexivity. }
    split; [exact A|]. intros b. cbn [leadingLF]. destruct (isLF c) eqn:Ec.
    + cbn [replaceFrom squeezeBlank]. rewrite Ec. apply IHB.
    + apply A. right. cbn [leadingLF]. rewrite Ec. lia.
Qed.

Lemma squeeze_leading (s : jsstring) :
  forall m, (m <= 2)%nat -> (leadingLF (squeezeBlank m s) + m <= 2)%nat.
Proof.
  induction s as [|c t IH]; intros m Hm; [cbn; lia|]. cbn [squeezeBlank].
  destruct (isLF c) eqn:Ec.
  - destruct (Nat.ltb_spec m 2) as [H | H].
    + cbn [leadingLF]. change (isLF LF) with true. cbv iota.
      pose proof (IH (S m) ltac:(lia)). lia.
    + apply IH. lia.
  - cbn [leadingLF]. rewrite Ec. lia.
Qed.

Lemma squeeze_noBlankRun (s : jsstring) :
  forall m, (m <= 2)%nat -> noBlankRun (squeezeBlank m s).
Proof.
  induction s as [|c t IH]; intros m Hm pre post E.
  - destruct pre; discriminate.
  - destruct pre as [|x pre'].
    + pose proof (squeeze_leading (c :: t) m Hm) as H. rewrite E in H.
      cbn [app leadingLF] in H. change (isLF LF) with true in H. cbv iota in H. lia.
    + cbn [squeezeBlank] in E. destruct (isLF c) eqn:Ec.
      * destruct (Nat.ltb_spec m 2) as [H | H].
        -- cbn [app] in E. injection E as _ E. exact (IH (S m) ltac:(lia) pre' post E).
        -- exact (IH m Hm (x :: pre') post E).
      * cbn [app] in E. injection E as _ E. exact (IH 0%nat ltac:(lia) pre' post E).
Qed.

Lemma noBlankRun_inside (pre s post : jsstring) :
  noBlankRun (pre ++ s ++ post) -> noBlankRun s.
Proof.
  intros H a b E. apply (H (pre ++ a) (b ++ post)). rewrite E.
  now rewrite <- !app_assoc.
Qed.

Lemma trim_noBlankRun (s : jsstring) : noBlankRun s -> noBlankRun (trim s).
Proof.
  intros H. destruct (trim_split s) as [pre [post [E _]]].
  apply (noBlankRun_inside pre (trim s) post). now rewrite <- E.
Qed.

(** X4: whatever the model answered, the sanitized text has no white space
    at either end and no three line feeds in a row. *)
Theorem sanitize_output_shape (text : jsstring) :
  trimmed (sanitizeModelResponse text)
  /\ noBlankRun (sanitizeModelResponse text)
  /\ match sanitizeModelResponse text with
     | c :: _ => isSpace c = false
     | [] => True
     end.
Proof.
  unfold sanitizeModelResponse. cbv zeta. split; [apply trim_trimmed|]. split.
  - apply trim_noBlankRun. unfold replaceAll.
    rewrite (proj1 (replace_blank _) None 0%nat) by now left.
    apply squeeze_noBlankRun. lia.
  - match goal with |- match trim ?s with _ => _ end => 
      destruct (trim_ends s) as [E | [c [m [d [[E | [E _]] [Hc _]]]]]]; rewrite E
    end; auto.
Qed.

(** ** The local endpoint, a successful tier and the request boundary *)

Lemma dropTrailingSlash_slash (url : jsstring) : dropTrailingSlash (url ++ js "/") = url.
Proof.
  induction url as [|c t IH]; [reflexivity|].
  cbn [app dropTrailingSlash]. rewrite IH.
  destruct (t ++ js "/") eqn:E; [|reflexivity]. destruct t; discriminate.
Qed.

Lemma dropTrailingSlash_other (url : jsstring) (c : char) :
  char_eqb c 47%N = false -> dropTrailingSlash (url ++ [c]) = url ++ [c].
Proof.
  intros Hc. induction url as [|x t IH].
  - cbn [app dropTrailingSlash]. now rewrite Hc.
  - cbn [app dropTrailingSlash]. rewrite IH.
    destruct (t ++ [c]) eqn:E; [|reflexivity]. destruct t; discriminate.
Qed.

Lemma truthy_trim (s : jsstring) : truthy (trim s) = true <-> trim s <> [].
Proof. destruct (trim s); cbn [truthy]; split; congruence. Qed.

(** X6: a call of the local model posts once to the endpoint, a single
    trailing slash of the configured URL being dropped.  It returns the
    [response] field exactly when the HTTP status is a success, the payload
    carries no error text and the field holds more than white space; a
    failure status is thrown with the status and the body of the answer. *)
Theorem callLocalModel_outcome (w : World) (prompt : jsstring) (t : Trace) :
  let endpoint := dropTrailingSlash (LOCAL_LLM_URL w) ++ js "/api/generate" in
  let answer := fetchLocal w t endpoint (LOCAL_LLM_MODEL w) prompt in
  snd (callLocalModel w prompt t) = t ++ [EvLocalFetch endpoint (LOCAL_LLM_MODEL w) prompt]
  /\ (forall output,
        fst (callLocalModel w prompt t) = Ok output
        <-> exists response payload,
              answer = Ok response /\ resp_ok response = true
              /\ resp_json response = Ok payload
              /\ (p_error payload = None \/ p_error payload = Some [])
              /\ p_response payload = Some output
              /\ trim output <> [])
  /\ (forall response,
        answer = Ok response -> resp_ok response = false ->
        fst (callLocalModel w prompt t)
        = Throw (JsError (js "Local model request failed (" ++ decimal (resp_status response)
                          ++ js "): "
                          ++ match resp_text response with Ok b => b | Throw _ => [] end)))
  /\ (forall url, dropTrailingSlash (url ++ js "/") = url)
  /\ (forall url c, char_eqb c 47%N = false -> dropTrailingSlash (url ++ [c]) = url ++ [c]).
Proof.
  cbv zeta. unfold callLocalModel, bind, call, liftOutcome, ret, throw.
  set (endpoint := dropTrailingSlash (LOCAL_LLM_URL w) ++ js "/api/generate").
  split; [|split; [|split; [|split]]].
  - destruct (fetchLocal w t endpoint (LOCAL_LLM_MODEL w) prompt) as [response|e];
      [|reflexivity].
    destruct (resp_ok response); cbn [negb]; [|reflexivity].
    destruct (resp_json response) as [payload|e]; [|reflexivity].
    destruct (p_error payload) as [[|c e]|]; try reflexivity;
      destruct (truthy (trim (nullish (p_response payload) []))); reflexivity.
  - intros output.
    destruct (fetchLocal w t endpoint (LOCAL_LLM_MODEL w) prompt) as [response|e].
    2:{ cbn [fst]. split; [discriminate|]. intros (r & p & H & _). discriminate. }
    destruct (resp_ok response) eqn:Eok; cbn [negb].
    2:{ cbn [fst]. split; [discriminate|]. intros (r & p & H & Hok & _).
        injection H as <-. congruence. }
    destruct (resp_json response) as [payload|e] eqn:Ej.
    2:{ cbn [fst]. split; [discriminate|]. intros (r & p & H & _ & Hj & _).
        injection H as <-. congruence. }
    assert (Hmain :
      fst ((if truthy (trim (nullish (p_response payload) []))
            then fun t0 : Trace => (Ok (nullish (p_response payload) []), t0)
            else fun t0 : Trace =>
                   (@Throw jsstring (JsError (js "Local model returned an empty response.")), t0))
             (t ++ [EvLocalFetch endpoint (LOCAL_LLM_MODEL w) prompt])) = Ok output
      <-> p_response payload = Some output /\ trim output <> []).
    { destruct (truthy (trim (nullish (p_response payload) []))) eqn:Et; cbn [fst].
      - apply truthy_trim in Et. split.
        + intros H. injection H as <-. destruct (p_response payload) as [o|]; cbn [nullish] in *.
          * now split.
          * now contradiction Et.
        + intros [H1 _]. rewrite H1. reflexivity.
      - split; [discriminate|]. intros [H1 H2]. rewrite H1 in Et. cbn [nullish] in Et.
        apply truthy_trim in H2. congruence. }
    destruct (p_error payload) as [[|c e]|] eqn:Ee.
    + rewrite Hmain. split.
      * intros [H1 H2]. exists response, payload. repeat split; auto.
      * intros (r & p & H & _ & Hj & _ & H1 & H2). injection H as <-.
        rewrite Ej in Hj. injection Hj as <-. now split.
    + cbn [fst]. split; [discriminate|].
      intros (r & p & H & _ & Hj & [He | He] & _); injection H as <-;
        rewrite Ej in Hj; injection Hj as <-; congruence.
    + rewrite Hmain. split.
      * intros [H1 H2]. exists response, payload. repeat split; auto.
      * intros (r & p & H & _ & Hj & _ & H1 & H2). injection H as <-.
        rewrite Ej in Hj. injection Hj as <-. now split.
  - intros response Ha Hok. rewrite Ha, Hok. reflexivity.
  - apply dropTrailingSlash_slash.
  - apply dropTrailingSlash_other.
Qed.

(** What [tryGenerateMarkdown] returns is the sanitized answer. *)
Lemma tryGenerateMarkdown_sanitized (w : World) (context : BreakdownGenerationContext)
    (modelId : jsstring) (t : Trace) (markdown : jsstring) (t' : Trace) :
  tryGenerateMarkdown w context modelId t = (Ok markdown, t') ->
  markdown <> [] /\ exists raw, raw <> [] /\ markdown = sanitizeModelResponse raw.
Proof.
  unfold tryGenerateMarkdown, callLocalModel, bind, call, liftOutcome, ret, throw.
  destruct (LOCAL_LLM_ENABLED w).
  - destruct (fetchLocal w t _ _ _) as [response|e]; [|discriminate].
    destruct (negb (resp_ok response)); [discriminate|].
    destruct (resp_json response) as [payload|e]; [|discriminate].
    set (output := nullish (p_response payload) []).
    destruct (p_error payload) as [[|c e]|]; try discriminate;
      destruct (truthy (trim output)) eqn:Et; try discriminate;
      destruct (sanitizeModelResponse output) as [|x r] eqn:Es; cbn [truthy];
      try discriminate;
      intros H; injection H as <- _; (split; [discriminate|]);
      exists output; (split; [|now rewrite Es]);
      intros E0; rewrite E0 in Et; discriminate.
  - destruct (generateText w t modelId (buildPrompt context)) as [text|e]; [|discriminate].
    destruct text as [|c0 text']; cbn [truthy]; [discriminate|].
    destruct (sanitizeModelResponse (c0 :: text')) as [|x r] eqn:Es; cbn [truthy];
      [discriminate|].
    intros H. injection H as <- _. split; [discriminate|].
    exists (c0 :: text'). split; [discriminate | now rewrite Es].
Qed.

(** X7: the text a tier hands on is never empty, has no white space at
    either end and no three line feeds in a row; the document built from
    it is that text, unchanged, followed by the boilerplate section. *)
Theorem successful_tier_document (w : World) (context : BreakdownGenerationContext)
    (modelId : jsstring) (t : Trace) (markdown : jsstring) (t' : Trace) :
  tryGenerateMarkdown w context modelId t = (Ok markdown, t') ->
  markdown <> [] /\ trimmed markdown /\ noBlankRun markdown
  /\ generateBreakdownDocument w context (Some modelId) t
     = (Ok (markdown ++ [LF; LF] ++ js "## Boilerplate Glider Skeleton" ++ [LF; LF]
            ++ js "Use this scaffold as a starting point while following official Glider examples."
            ++ [LF; LF] ++ fencedSkeleton buildGliderSkeleton ++ [LF]),
        t').
Proof.
  intros H. destruct (tryGenerateMarkdown_sanitized w context modelId t markdown t' H)
    as [Hne [raw [_ Hraw]]].
  destruct (sanitize_output_shape raw) as [Htrim [Hblank Hhead]].
  rewrite <- Hraw in Htrim, Hblank, Hhead.
  repeat split; try assumption.
  pose proof (generateBreakdownDocument_tiers w context (Some modelId) t) as Hg.
  cbv zeta in Hg. cbn [nullish] in Hg. rewrite H in Hg. rewrite Hg. f_equal. f_equal.
  unfold finish. rewrite assemble_shape. unfold trimmed in Htrim. rewrite Htrim.
  destruct (fencedSkeleton_ends buildGliderSkeleton) as [m Hm]. rewrite Hm.
  destruct markdown as [|c r]; [now contradiction Hne|].
  replace ((c :: r) ++ [LF; LF] ++ js "## Boilerplate Glider Skeleton" ++ [LF; LF]
           ++ js "Use this scaffold as a starting point while following official Glider examples."
           ++ [LF; LF] ++ 96%N :: m ++ [96%N])
    with (c :: (r ++ [LF; LF] ++ js "## Boilerplate Glider Skeleton" ++ [LF; LF]
                ++ js "Use this scaffold as a starting point while following official Glider examples."
                ++ [LF; LF] ++ 96%N :: m) ++ [96%N]).
  2:{ cbn [app]. f_equal. repeat rewrite <- app_assoc. cbn [app]. reflexivity. }
  rewrite (trim_id_ends c 96%N _ Hhead eq_refl).
  cbn [app]. f_equal. repeat rewrite <- app_assoc. cbn [app]. reflexivity.
Qed.

Lemma successful_tier_document_witness :
  generateBreakdownDocument (answeringWorld (js " Done. ")) sampleContext
    (Some DEFAULT_MODEL_ID) []
  = (Ok (js "Done." ++ [LF; LF] ++ js "## Boilerplate Glider Skeleton" ++ [LF; LF]
         ++ js "Use this scaffold as a starting point while following official Glider examples."
         ++ [LF; LF] ++ fencedSkeleton buildGliderSkeleton ++ [LF]),
     [primaryCall (answeringWorld (js " Done. ")) sampleContext DEFAULT_MODEL_ID]).
Proof.
  apply (successful_tier_document (answeringWorld (js " Done. ")) sampleContext
           DEFAULT_MODEL_ID [] (js "Done.")).
  reflexivity.
Defined.

(** X8: the handler always answers.  For a body of the declared shape the
    status is 500 only when the body could not be read, and then nothing
    else has been done; a failure of the model never reaches the caller as
    an error. *)
Theorem POST_always_answers (w : World) (toLowerCase : jsstring -> jsstring)
    (requestJson : outcome RequestBody) (t : Trace) :
  exists response t',
    POST w toLowerCase requestJson t = (Ok response, t')
    /\ (status response = 200 \/ status response = 400 \/ status response = 500)
    /\ (status response = 500 <-> exists e, requestJson = Throw e)
    /\ (forall e, requestJson = Throw e ->
          t' = t
          /\ body response
             = ErrorBody match e with
                         | JsError message => message
                         | JsOther => js "Generation failed. Please try again."
                         end
                         (Some GENERATION_FAILED_DETAILS))
    /\ (status response = 200 ->
        exists document, body response = DocumentBody document (js "vulnerability-breakdown.md")
                         /\ exists pre, document = pre ++ fencedSkeleton buildGliderSkeleton ++ [LF]).
Proof.
  destruct requestJson as [payload|e].
  - assert (Hread : ~ exists e, Ok payload = Throw e) by (intros [e He]; discriminate).
    unfold POST, tryCatch, bind, liftOutcome, ret.
    destruct (rq_markdown payload) as [[|c markdown]|] eqn:Em.
    + eexists. eexists. split; [reflexivity|]. cbn [status body].
      split; [lia|]. split; [split; [discriminate | intros H; now contradiction Hread]|].
      split; [intros e He; discriminate | discriminate].
    + unfold parseVulnerabilityReport, loadGliderTemplates, loadBreakdownReferences,
        call, bind, ret.
      match goal with
      | |- context [generateBreakdownDocument w ?ctx None ?tr] =>
          destruct (generateBreakdownDocument_trace w ctx None tr)
            as (o1 & doc & _ & Hg & Hdoc); rewrite Hg
      end.
      eexists. eexists. split; [reflexivity|]. cbn [status body].
      split; [lia|]. split; [split; [discriminate | intros H; now contradiction Hread]|].
      split; [intros e He; discriminate|].
      intros _. exists doc. split; [reflexivity|].
      cbv zeta in Hdoc. destruct o1 as [md|e1].
      * rewrite Hdoc. apply finish_assemble_ends.
      * destruct (secondTierEnabled w (nullish None DEFAULT_MODEL_ID)).
        -- match type of Hdoc with
           | match fst ?x with _ => _ end => destruct (fst x) as [md|e2]
           end; rewrite Hdoc; apply finish_assemble_ends.
        -- rewrite Hdoc. apply finish_assemble_ends.
    + eexists. eexists. split; [reflexivity|]. cbn [status body].
      split; [lia|]. split; [split; [discriminate | intros H; now contradiction Hread]|].
      split; [intros e He; discriminate | discriminate].
  - unfold POST, tryCatch, bind, liftOutcome, ret.
    eexists. eexists. split; [reflexivity|]. cbn [status body].
    split; [lia|]. split; [split; [intros _; now exists e | reflexivity]|].
    split; [|discriminate].
    intros e' He. injection He as <-. split; reflexivity.
Qed.

Lemma generateFromMarkdown_returns (w : World) (toLowerCase : jsstring -> jsstring)
    (markdown : jsstring) (t : Trace) :
  exists document calls,
    generateFromMarkdown w toLowerCase markdown t
    = (Ok document,
       t ++ EvNow :: EvLoadGliderTemplates :: EvLoadBreakdownReferences :: calls).
Proof.
  unfold generateFromMarkdown, buildGenerationContext, bind, ret, parseVulnerabilityReport,
    loadGliderTemplates, loadBreakdownReferences, call, bind, ret.
  match goal with
  | |- context [generateBreakdownDocument w ?ctx None ?tr] =>
      destruct (generateBreakdownDocument_trace w ctx None tr)
        as (o1 & doc & _ & Hg & _)
  end.
  rewrite Hg. repeat rewrite <- app_assoc. cbn [app]. eexists. eexists. reflexivity.
Qed.

(** X9: for markdown that is not empty, the service entry point returns the
    document the request handler returns for the same markdown without a
    source, after the same calls.  The entry point has no guard of its own:
    for empty markdown it runs the whole pipeline where the handler answers
    400 at once. *)
Theorem generateFromMarkdown_as_route (w : World) (toLowerCase : jsstring -> jsstring)
    (markdown : jsstring) (t : Trace) :
  exists document calls,
    generateFromMarkdown w toLowerCase markdown t
    = (Ok document,
       t ++ EvNow :: EvLoadGliderTemplates :: EvLoadBreakdownReferences :: calls)
    /\ calls <> []
    /\ POST w toLowerCase (Ok {| rq_markdown := Some markdown; rq_source := None |}) t
       = match markdown with
         | [] => (Ok missingMarkdownResponse, t)
         | _ :: _ =>
             (Ok {| status := 200;
                    body := DocumentBody document (js "vulnerability-breakdown.md") |},
              t ++ EvNow :: EvLoadGliderTemplates :: EvLoadBreakdownReferences :: calls)
         end.
Proof.
  unfold generateFromMarkdown, buildGenerationContext, POST, tryCatch, bind, liftOutcome,
    ret, parseVulnerabilityReport, loadGliderTemplates, loadBreakdownReferences,
    call, bind, ret.
  cbn [rq_markdown rq_source].
  match goal with
  | |- context [generateBreakdownDocument w ?ctx None ?tr] =>
      destruct (generateBreakdownDocument_trace w ctx None tr)
        as (o1 & doc & _ & Hg & _)
  end.
  destruct markdown as [|c rest0]; rewrite Hg; repeat rewrite <- app_assoc; cbn [app];
    (eexists; eexists; split; [reflexivity|]; split; [discriminate | reflexivity]).
Qed.

(** ** Title and artifacts of any report *)

(** A pattern that cannot start on a class of code units finds nothing in
    a text made of them. *)
Lemma search_none (r : regex) (p : char -> bool) :
  (forall b, rmatch r (start b []) = []) ->
  (forall b c t, p c = true -> rmatch r (start b (c :: t)) = []) ->
  forall input b, forallb p input = true -> search r b input = None.
Proof.
  intros Hnil Hcons. induction input as [|c t IH]; intros b H; cbn [search].
  - now rewrite Hnil.
  - cbn [forallb] in H. apply andb_true_iff in H as [Hc Ht].
    rewrite (Hcons b c t Hc), (IH (Some c) Ht). reflexivity.
Qed.

Lemma lastBefore_cons (b : option char) (c : char) (pre : jsstring) :
  lastBefore b (c :: pre) = lastBefore (Some c) pre.
Proof.
  unfold lastBefore. cbn [rev]. destruct (rev pre) as [|x l]; reflexivity.
Qed.

(** ... and in a longer text it finds what it finds after them. *)
Lemma search_skip (r : regex) (p : char -> bool) (s : jsstring) :
  (forall b c t, p c = true -> rmatch r (start b (c :: t)) = []) ->
  forall pre b, forallb p pre = true ->
    match search r (lastBefore b pre) s with
    | Some f => exists f', search r b (pre ++ s) = Some f' /\ f_end f' = f_end f
    | None => search r b (pre ++ s) = None
    end.
Proof.
  intros Hcons. induction pre as [|c t IH]; intros b H.
  - cbn [app]. unfold lastBefore. cbn [rev].
    destruct (search r b s) as [f|]; [|reflexivity]. exists f. now split.
  - cbn [forallb] in H. apply andb_true_iff in H as [Hc Ht].
    rewrite lastBefore_cons. specialize (IH (Some c) Ht).
    cbn [app search]. rewrite (Hcons b c (t ++ s) Hc).
    destruct (search r (lastBefore (Some c) t) s) as [f|].
    + destruct IH as (f' & Hf' & He). rewrite Hf'. eexists. split; [reflexivity|].
      exact He.
    + now rewrite IH.
Qed.

Lemma titleHeading_needs_hash (s : mstate) :
  match rest s with c :: _ => noHash c = true | [] => True end ->
  rmatch Patterns.titleHeading s = [].
Proof.
  intros H.
  change Patterns.titleHeading
    with (RSeq RBol (RSeq (ch HASH)
            (seqs [plus ws; RGroup 1 (plus dot); REol]))).
  rewrite rmatch_seq.
  assert (Hs : rmatch (RSeq (ch HASH) (seqs [plus ws; RGroup 1 (plus dot); REol])) s = []).
  { rewrite rmatch_seq, rmatch_ch. destruct (rest s) as [|c t]; [reflexivity|].
    unfold noHash in H. apply negb_true_iff in H. now rewrite H. }
  cbn [rmatch]. destruct (before s) as [x|]; [destruct (isLineTerminator x)|];
    cbn [flat_map]; rewrite ?app_nil_r; try reflexivity; exact Hs.
Qed.

Lemma summarySection_needs_hash (s : mstate) :
  match rest s with c :: _ => noHash c = true | [] => True end ->
  rmatch Patterns.summarySection s = [].
Proof.
  intros H.
  change Patterns.summarySection
    with (RSeq (RSeq (ch HASH) (ch HASH))
            (seqs [star ws; liti "Summary"; star ws; plus (ch LF); RGroup 1 (plus dot)])).
  rewrite rmatch_seq, rmatch_seq, rmatch_ch. destruct (rest s) as [|c t]; [reflexivity|].
  unfold noHash in H. apply negb_true_iff in H. now rewrite H.
Qed.

Lemma firstIs_bol (s : mstate) :
  match before s with Some x => isLineTerminator x = true | None => True end ->
  firstIs RBol s s.
Proof.
  intros H. exists []. cbn [rmatch]. destruct (before s) as [x|]; [now rewrite H | reflexivity].
Qed.

Lemma firstIs_eol (s : mstate) : atLineEnd (rest s) = true -> firstIs REol s s.
Proof.
  intros H. exists []. cbn [rmatch]. unfold atLineEnd in H.
  destruct (rest s) as [|x t]; [reflexivity | now rewrite H].
Qed.

(** A heading line: [#], white space, and a text that runs to the end of
    its line.  The pattern captures the text. *)
Lemma titleHeading_at (b : option char) (gap : jsstring) (c : char) (t after : jsstring) :
  match b with Some x => isLineTerminator x = true | None => True end ->
  gap <> [] -> forallb isSpace gap = true ->
  isSpace c = false -> forallb notLineTerminator t = true -> atLineEnd after = true ->
  exists e,
    firstIs Patterns.titleHeading (start b (HASH :: gap ++ c :: t ++ after)) e
    /\ lookupCap 1 (caps e) = Some (c :: t).
Proof.
  intros Hb Hgap Hsp Hc Ht Hafter.
  destruct gap as [|g gap']; [now contradiction Hgap|].
  cbn [forallb] in Hsp. apply andb_true_iff in Hsp as [Hg Hgap'].
  assert (Hclt : notLineTerminator c = true).
  { unfold notLineTerminator, isLineTerminator. unfold isSpace in Hc.
    apply negb_true_iff. rewrite !orb_false_iff in *. rewrite !N.eqb_neq.
    rewrite !andb_false_iff, !N.leb_gt, !N.eqb_neq in Hc. lia. }
  (* the white space after the hash *)
  destruct (firstIs_star_class isSpace (Some g) (gap' ++ c :: t ++ after) []) as [b2 H2].
  rewrite (spanClass_run isSpace gap' (c :: t ++ after) Hgap' Hc) in H2. cbn [snd] in H2.
  (* the text of the heading *)
  destruct (firstIs_star_class notLineTerminator (Some c) (t ++ after) []) as [b3 H3].
  assert (Hafter' : match after with x :: _ => notLineTerminator x = false | [] => True end).
  { destruct after as [|x r]; [exact I|]. unfold notLineTerminator.
    cbn [atLineEnd] in Hafter. now rewrite Hafter. }
  rewrite (spanClass_run notLineTerminator t after Ht Hafter') in H3. cbn [snd] in H3.
  set (s3 := {| before := b2; rest := c :: t ++ after; caps := [] |}).
  set (e3 := {| before := b3; rest := after; caps := [] |}).
  exists (setCap 1 s3 e3). split.
  - change Patterns.titleHeading
      with (RSeq RBol (RSeq (RChar (char_eqb HASH))
              (RSeq (RSeq (RChar isSpace) (RStar true (RChar isSpace)))
                 (RSeq (RGroup 1 (RSeq (RChar notLineTerminator)
                                       (RStar true (RChar notLineTerminator))))
                       REol)))).
    eapply firstIs_seq; [apply firstIs_bol; exact Hb|].
    eapply firstIs_seq; [unfold start; now apply firstIs_char|].
    eapply firstIs_seq.
    { eapply firstIs_seq; [cbn [app]; now apply firstIs_char | exact H2]. }
    eapply firstIs_seq.
    { apply firstIs_group. eapply firstIs_seq; [now apply firstIs_char | exact H3]. }
    apply firstIs_eol. exact Hafter.
  - unfold setCap, s3, e3. cbn [caps rest lookupCap Nat.eqb]. f_equal.
    change (c :: t ++ after) with ((c :: t) ++ after). apply firstn_prefix.
Qed.

Lemma groupText_of (f : found) (n : nat) (text : jsstring) :
  lookupCap n (caps (f_end f)) = Some text -> groupText n f = text.
Proof. unfold groupText, group. now intros ->. Qed.

Lemma titleHeading_found (pre gap : jsstring) (c : char) (t after : jsstring) :
  forallb noHash pre = true -> endsLine pre = true ->
  gap <> [] -> forallb isSpace gap = true ->
  isSpace c = false -> forallb notLineTerminator t = true ->
  atLineEnd after = true ->
  exists f,
    matchOf Patterns.titleHeading (pre ++ HASH :: gap ++ c :: t ++ after) = Some f
    /\ groupText 1 f = c :: t.
Proof.
  intros Hpre Hline Hgap Hsp Hc Ht Hafter. unfold matchOf.
  assert (Hb : match lastBefore None pre with
               | Some x => isLineTerminator x = true
               | None => True
               end).
  { unfold lastBefore, endsLine in *. destruct (rev pre); [exact I | exact Hline]. }
  destruct (titleHeading_at (lastBefore None pre) gap c t after Hb Hgap Hsp Hc Ht Hafter)
    as (e & He & Hcap).
  destruct (search_first _ _ _ _ He) as (f & Hf & Hend).
  pose proof (search_skip Patterns.titleHeading noHash (HASH :: gap ++ c :: t ++ after)
                (fun b x u Hx => titleHeading_needs_hash (start b (x :: u)) Hx)
                pre None Hpre) as Hskip.
  rewrite Hf in Hskip. destruct Hskip as (f' & Hf' & Hend').
  exists f'. split; [exact Hf'|]. apply groupText_of. now rewrite Hend', Hend.
Qed.

Lemma titleHeading_absent (text : jsstring) :
  forallb noHash text = true -> matchOf Patterns.titleHeading text = None.
Proof.
  intros H. unfold matchOf.
  apply (search_none Patterns.titleHeading noHash); try exact H; intros;
    now apply titleHeading_needs_hash.
Qed.

(** X10: a report without any [#] is titled "Unknown Vulnerability"; the
    title of a report whose first [#] opens a heading line is the text of
    that line, trimmed. *)
Theorem title_of_first_heading (toLowerCase : jsstring -> jsstring)
    (nowIso : jsstring) (source : option jsstring) :
  let titleOf markdown := title (metadata (parseReport toLowerCase nowIso markdown source)) in
  (forall markdown,
     forallb noHash markdown = true -> titleOf markdown = js "Unknown Vulnerability")
  /\ (forall pre gap c t after,
        forallb noHash pre = true -> endsLine pre = true ->
        gap <> [] -> forallb isSpace gap = true ->
        isSpace c = false -> forallb notLineTerminator t = true ->
        atLineEnd after = true ->
        titleOf (pre ++ HASH :: gap ++ c :: t ++ after) = trim (c :: t)).
Proof.
  cbv zeta. unfold parseReport. cbn [title metadata]. unfold extractTitle. split.
  - intros markdown H. rewrite (titleHeading_absent markdown H). unfold matchOf.
    rewrite (search_none Patterns.summarySection noHash) by
      (try exact H; intros; now apply summarySection_needs_hash).
    reflexivity.
  - intros pre gap c t after Hpre Hline Hgap Hsp Hc Ht Hafter.
    destruct (titleHeading_found pre gap c t after Hpre Hline Hgap Hsp Hc Ht Hafter)
      as (f & Hf & Hg).
    rewrite Hf. cbn [orMatch]. now rewrite Hg.
Qed.

(** *** Artifacts *)

Lemma isPrefix_longer (p s r : jsstring) :
  isPrefix p s = true -> isPrefix p (s ++ r) = true.
Proof.
  revert s. induction p as [|x p IH]; intros s H; [reflexivity|].
  destruct s as [|y s]; [discriminate|]. cbn [isPrefix app] in *.
  apply andb_true_iff in H as [Hxy H]. rewrite Hxy, (IH s H). reflexivity.
Qed.

(** The content of a block runs to the first fence after the line feed. *)
Lemma splitAtFence_reads (s : jsstring) :
  forall body after,
    splitAtFence s = Some (body, after) ->
    s = body ++ FENCE ++ after
    /\ containsFence body = false /\ endsWithBacktick body = false.
Proof.
  induction s as [|c t IH]; intros body after H; cbn [splitAtFence] in H.
  - cbn [isPrefix FENCE] in H. discriminate.
  - destruct (isPrefix FENCE (c :: t)) eqn:Hp.
    + injection H as <- <-. split; [|split; reflexivity].
      exact (isPrefix_fence (c :: t) Hp).
    + destruct (splitAtFence t) as [[a b]|] eqn:E; [|discriminate].
      injection H as <- <-. destruct (IH a b eq_refl) as (Ht & Hf & He).
      assert (Hp' : isPrefix FENCE (c :: a) = false).
      { destruct (isPrefix FENCE (c :: a)) eqn:Hq; [|reflexivity].
        apply (isPrefix_longer FENCE (c :: a) (FENCE ++ b)) in Hq.
        cbn [app] in Hq. rewrite <- Ht in Hq. congruence. }
      split; [cbn [app]; now rewrite <- Ht|]. split.
      * unfold containsFence in *. cbn [splitAtFence]. rewrite Hp'.
        destruct (splitAtFence a) as [[x y]|]; [discriminate | reflexivity].
      * destruct a as [|x a]; [|now rewrite endsWithBacktick_cons].
        unfold endsWithBacktick. cbn [rev app].
        destruct (char_eqb c BACKTICK) eqn:Ec; [|reflexivity].
        apply N.eqb_eq in Ec. subst c t. discriminate.
Qed.

(** A block that opens at the head of a text: the text is the fence, the tag,
    a line feed, the content, the closing fence and what follows. *)
Lemma fenceAt_reads (input tag body after : jsstring) :
  fenceAt input = Some (tag, body, after) ->
  input = FENCE ++ tag ++ [LF] ++ body ++ FENCE ++ after
  /\ forallb isWord tag = true
  /\ containsFence body = false /\ endsWithBacktick body = false.
Proof.
  unfold fenceAt. intros H.
  destruct (isPrefix FENCE input) eqn:Hp; [|discriminate].
  pose proof (isPrefix_fence input Hp) as Hin.
  pose proof (spanClass_app isWord (skipn 3 input)) as [Hs Hw].
  destruct (spanClass isWord (skipn 3 input)) as [tg afterTag]. cbn [fst snd] in Hs, Hw.
  destruct afterTag as [|x r]; [discriminate|].
  destruct (char_eqb LF x) eqn:Ex; [|discriminate].
  destruct (splitAtFence r) as [[bd af]|] eqn:E; [|discriminate].
  injection H as <- <- <-. apply N.eqb_eq in Ex. subst x.
  destruct (splitAtFence_reads r bd af E) as (Hr & Hf & He).
  split; [|split; [exact Hw | split; assumption]].
  rewrite Hin at 1. rewrite Hs, Hr. reflexivity.
Qed.

Lemma nextFence_reads (input : jsstring) :
  forall tag body after,
    nextFence input = Some (tag, body, after) ->
    (exists gap, input = gap ++ FENCE ++ tag ++ [LF] ++ body ++ FENCE ++ after)
    /\ forallb isWord tag = true
    /\ containsFence body = false /\ endsWithBacktick body = false.
Proof.
  induction input as [|c t IH]; intros tag body after H; cbn [nextFence] in H.
  - destruct (fenceAt []) as [[[x y] z]|] eqn:E; [|discriminate].
    injection H as -> -> ->. destruct (fenceAt_reads _ _ _ _ E) as (H1 & H2).
    split; [now exists [] | exact H2].
  - destruct (fenceAt (c :: t)) as [[[x y] z]|] eqn:E.
    + injection H as -> -> ->. destruct (fenceAt_reads _ _ _ _ E) as (H1 & H2).
      split; [now exists [] | exact H2].
    + destruct (IH _ _ _ H) as ([gap Hg] & H2).
      split; [|exact H2]. exists (c :: gap). rewrite <- app_comm_cons. f_equal. exact Hg.
Qed.

(** The loop appends the artifacts of the blocks that the scan reads. *)
Lemma codeBlockLoop_numbered (fuel : nat) :
  forall b input index acc,
    codeBlockLoop fuel b input index acc
    = acc ++ numbered index (fencedBlocks fuel input).
Proof.
  induction fuel as [|fuel IH]; intros b input index acc.
  - cbn [codeBlockLoop fencedBlocks numbered]. now rewrite app_nil_r.
  - cbn [fencedBlocks]. destruct (nextFence input) as [[[tag body] after]|] eqn:E.
    + rewrite (codeBlockLoop_step fuel b input index acc tag body after E), IH.
      cbn [numbered]. rewrite <- app_assoc. reflexivity.
    + rewrite (codeBlockLoop_stop (S fuel) b input index acc E).
      cbn [numbered]. now rewrite app_nil_r.
Qed.

(** With fuel beyond the length of the text the scan stops only where no
    block opens any more, and the blocks it read lie in the text in their
    order, one after the other. *)
Lemma fencedBlocks_weave (fuel : nat) :
  forall input, (length input < fuel)%nat ->
    exists gaps closing,
      length gaps = length (fencedBlocks fuel input)
      /\ input = weave gaps (fencedBlocks fuel input) closing
      /\ nextFence closing = None.
Proof.
  induction fuel as [|fuel IH]; intros input Hlen; [lia|].
  cbn [fencedBlocks]. destruct (nextFence input) as [[[tag body] after]|] eqn:E.
  - pose proof (nextFence_shorter input tag body after E) as Hs.
    destruct (IH after ltac:(lia)) as (gaps & closing & Hl & Hw & Hn).
    destruct (nextFence_reads input tag body after E) as ([gap Hg] & _).
    exists (gap :: gaps), closing. cbn [length weave].
    split; [now rewrite Hl|]. split; [now rewrite <- Hw | exact Hn].
  - exists [], input. cbn [length weave]. repeat split. exact E.
Qed.

Lemma fencedBlocks_shape (fuel : nat) :
  forall input,
    Forall (fun block =>
              forallb isWord (fst block) = true
              /\ containsFence (snd block) = false
              /\ endsWithBacktick (snd block) = false)
           (fencedBlocks fuel input).
Proof.
  induction fuel as [|fuel IH]; intros input; cbn [fencedBlocks]; [constructor|].
  destruct (nextFence input) as [[[tag body] after]|] eqn:E; [|constructor].
  constructor; [|apply IH].
  destruct (nextFence_reads input tag body after E) as (_ & H). exact H.
Qed.

(** X11: whatever the report, its artifacts are the fenced blocks that the
    scan reads from left to right, one artifact for each block and in their
    order: artifact number n, counting from 1, is labelled with n, carries
    the language in brackets exactly when the tag of block n is not empty,
    and its content is the content of block n, trimmed. A block opens at the
    first fence that is directly followed by a tag of word characters
    (possibly none) and a line feed and has a fence after it; its content
    runs to the first fence after the line feed, and the scan goes on after
    that fence. The blocks lie in the report in this order, one after the
    other, and no block opens in the text after the last one. *)
Theorem artifacts_numbered (toLowerCase : jsstring -> jsstring)
    (nowIso : jsstring) (source : option jsstring) (markdown : jsstring) :
  let blocks := blocksOf markdown in
  artifacts (parseReport toLowerCase nowIso markdown source) = numbered 0 blocks
  /\ (forall i tag body,
        nth_error blocks i = Some (tag, body) ->
        nth_error (artifacts (parseReport toLowerCase nowIso markdown source)) i
        = Some {| label := js "Code Snippet " ++ decimal (Z.of_nat i + 1)
                           ++ (if truthy tag then js " (" ++ tag ++ js ")" else []);
                  content := trim body |})
  /\ length (artifacts (parseReport toLowerCase nowIso markdown source)) = length blocks
  /\ Forall (fun block =>
               forallb isWord (fst block) = true
               /\ containsFence (snd block) = false
               /\ endsWithBacktick (snd block) = false) blocks
  /\ exists gaps closing,
       length gaps = length blocks
       /\ markdown = weave gaps blocks closing
       /\ nextFence closing = None.
Proof.
  intros blocks.
  assert (Ha : artifacts (parseReport toLowerCase nowIso markdown source)
               = numbered 0 blocks).
  { unfold parseReport. cbn [artifacts]. unfold extractArtifacts.
    now rewrite codeBlockLoop_numbered. }
  assert (Hn : forall l index i tag body,
             nth_error l i = Some (tag, body) ->
             nth_error (numbered index l) i
             = Some (artifactOf (index + Z.of_nat i + 1) tag body)).
  { induction l as [|[tg bd] l IHl]; intros index i tag body H; destruct i as [|i];
      try discriminate; cbn [nth_error numbered] in *.
    - injection H as -> ->. do 2 f_equal. lia.
    - rewrite (IHl (index + 1) i tag body H). do 2 f_equal. lia. }
  assert (Hlen : forall l index, length (numbered index l) = length l).
  { induction l as [|[tg bd] l IHl]; intros index; cbn [numbered length];
      [reflexivity | now rewrite IHl]. }
  split; [exact Ha|]. split; [|split; [|split]].
  - intros i tag body H. rewrite Ha, (Hn blocks 0 i tag body H). reflexivity.
  - rewrite Ha. apply Hlen.
  - apply fencedBlocks_shape.
  - apply fencedBlocks_weave. lia.
Qed.

(** ** Template loader *)

(** *** The order of [sort] *)

Lemma str_ltb_irrefl (a : jsstring) : str_ltb a a = false.
Proof.
  induction a as [|x a IH]; [reflexivity|]. cbn [str_ltb].
  rewrite N.ltb_irrefl, N.eqb_refl, IH. reflexivity.
Qed.

Lemma str_ltb_trans (a : jsstring) :
  forall b c, str_ltb a b = true -> str_ltb b c = true -> str_ltb a c = true.
Proof.
  induction a as [|x a IH]; intros b c Hab Hbc.
  - destruct b as [|y b]; [discriminate|]. destruct c as [|z c]; [discriminate | reflexivity].
  - destruct b as [|y b]; [discriminate|]. destruct c as [|z c]; [discriminate|].
    cbn [str_ltb] in *.
    apply orb_true_iff in Hab as [Hab | Hab]; apply orb_true_iff in Hbc as [Hbc | Hbc];
      rewrite ?andb_true_iff, ?N.ltb_lt, ?N.eqb_eq in *;
      apply orb_true_iff.
    + left. apply N.ltb_lt. lia.
    + left. apply N.ltb_lt. destruct Hbc. lia.
    + left. apply N.ltb_lt. destruct Hab. lia.
    + right. destruct Hab as [-> Hab], Hbc as [-> Hbc].
      rewrite N.eqb_refl. cbn [andb]. now apply (IH b c).
Qed.

Lemma str_ltb_total (a : jsstring) :
  forall b, str_ltb a b = false -> str_ltb b a = false -> a = b.
Proof.
  induction a as [|x a IH]; intros b Hab Hba.
  - destruct b; [reflexivity | discriminate].
  - destruct b as [|y b]; [discriminate|]. cbn [str_ltb] in *.
    apply orb_false_iff in Hab as [H1 H2]. apply orb_false_iff in Hba as [H3 H4].
    apply N.ltb_ge in H1, H3. assert (x = y) by lia. subst y.
    rewrite N.eqb_refl in H2, H4. cbn [andb] in H2, H4. f_equal. now apply IH.
Qed.

Lemma str_ltb_asym (a b : jsstring) : str_ltb a b = true -> str_ltb b a = false.
Proof.
  intros H. destruct (str_ltb b a) eqn:E; [|reflexivity].
  pose proof (str_ltb_trans a b a H E) as K. now rewrite str_ltb_irrefl in K.
Qed.

Lemma str_le_trans (a b c : jsstring) : str_le a b -> str_le b c -> str_le a c.
Proof.
  unfold str_le. intros Hab Hbc. destruct (str_ltb c a) eqn:E; [|reflexivity].
  destruct (str_ltb c b) eqn:E1; [discriminate|].
  destruct (str_ltb b c) eqn:E2.
  - pose proof (str_ltb_trans b c a E2 E). congruence.
  - rewrite (str_ltb_total b c E2 E1) in Hab. congruence.
Qed.

Lemma insertSorted_perm (x : jsstring) (l : list jsstring) :
  Permutation (x :: l) (insertSorted x l).
Proof.
  induction l as [|y l IH]; [apply Permutation_refl|]. cbn [insertSorted].
  destruct (str_ltb y x); [|apply Permutation_refl].
  eapply perm_trans; [apply perm_swap|]. now apply perm_skip.
Qed.

Lemma sort_perm (l : list jsstring) : Permutation l (sort l).
Proof.
  induction l as [|x l IH]; [apply perm_nil|]. cbn [sort].
  eapply perm_trans; [apply perm_skip, IH | apply insertSorted_perm].
Qed.

Lemma insertSorted_sorted (x : jsstring) (l : list jsstring) :
  StronglySorted str_le l -> StronglySorted str_le (insertSorted x l).
Proof.
  induction l as [|y l IH]; intros H.
  - cbn [insertSorted]. constructor; [constructor | constructor].
  - inversion H as [|? ? Hl Hy]; subst. cbn [insertSorted].
    destruct (str_ltb y x) eqn:E.
    + constructor; [now apply IH|].
      apply (Permutation_Forall (insertSorted_perm x l)). constructor; [|exact Hy].
      unfold str_le. now apply str_ltb_asym.
    + constructor; [exact H|]. constructor; [exact E|].
      eapply Forall_impl; [|exact Hy]. intros z Hz. now apply (str_le_trans x y z).
Qed.

Lemma sort_sorted (l : list jsstring) : StronglySorted str_le (sort l).
Proof.
  induction l as [|x l IH]; [constructor|]. cbn [sort]. now apply insertSorted_sorted.
Qed.

(** Two sorted lists with the same elements are the same list. *)
Lemma sorted_unique (l1 : list jsstring) :
  forall l2, StronglySorted str_le l1 -> StronglySorted str_le l2 ->
             Permutation l1 l2 -> l1 = l2.
Proof.
  induction l1 as [|x l1 IH]; intros l2 H1 H2 Hp.
  - apply Permutation_nil in Hp. now subst.
  - destruct l2 as [|y l2]; [apply Permutation_sym, Permutation_nil in Hp; discriminate|].
    inversion H1 as [|? ? Hs1 Hx]; subst. inversion H2 as [|? ? Hs2 Hy]; subst.
    assert (Hxy : x = y).
    { assert (Ix : In x (y :: l2)) by (apply (Permutation_in _ Hp); now left).
      assert (Iy : In y (x :: l1)) by (apply (Permutation_in _ (Permutation_sym Hp)); now left).
      destruct Ix as [-> | Ix]; [reflexivity|]. destruct Iy as [<- | Iy]; [reflexivity|].
      rewrite Forall_forall in Hx, Hy. symmetry.
      apply str_ltb_total; [apply (Hx y Iy) | apply (Hy x Ix)]. }
    subst y. f_equal. apply IH; try assumption. now apply Permutation_cons_inv in Hp.
Qed.

Lemma sort_permutation (l1 l2 : list jsstring) : Permutation l1 l2 -> sort l1 = sort l2.
Proof.
  intros Hp. apply sorted_unique; try apply sort_sorted.
  eapply perm_trans; [apply Permutation_sym, sort_perm|].
  eapply perm_trans; [exact Hp | apply sort_perm].
Qed.

Lemma filter_permutation {A} (p : A -> bool) (l1 l2 : list A) :
  Permutation l1 l2 -> Permutation (filter p l1) (filter p l2).
Proof.
  induction 1 as [|x l l' _ IH|x y l|l l' l'' _ IH1 _ IH2]; cbn [filter].
  - apply perm_nil.
  - destruct (p x); [now apply perm_skip | exact IH].
  - destruct (p x), (p y); try apply Permutation_refl. apply perm_swap.
  - eapply perm_trans; eassumption.
Qed.

(** *** File names and extensions *)

Lemma isPrefix_app (p s : jsstring) : isPrefix p s = true -> exists r, s = p ++ r.
Proof.
  revert s. induction p as [|x p IH]; intros s H.
  - now exists s.
  - destruct s as [|y s]; [discriminate|]. cbn [isPrefix] in H.
    apply andb_true_iff in H as [Hxy H]. apply N.eqb_eq in Hxy. subst y.
    destruct (IH s H) as [r ->]. now exists r.
Qed.

Lemma endsWith_app (suffix s : jsstring) :
  endsWith suffix s = true -> exists stem, s = stem ++ suffix.
Proof.
  unfold endsWith. intros H. destruct (isPrefix_app _ _ H) as [r Hr].
  exists (rev r). rewrite <- (rev_involutive s), Hr, rev_app_distr.
  now rewrite rev_involutive.
Qed.

(** A full stop, two letters in either case, and the end of the input:
    the pattern only matches a string of exactly these three. *)
Lemma extension_needs_three (x y : char) (b : option char) (s : jsstring) :
  length s <> 3%nat ->
  rmatch (RSeq (ch 46%N) (RSeq (RSeq (chi x) (chi y)) endOfInput)) (start b s) = [].
Proof.
  intros H. unfold start, chi, endOfInput, anychar.
  rewrite rmatch_seq, rmatch_ch. cbn [rest].
  destruct s as [|c1 s]; [reflexivity|]. destruct (char_eqb 46%N c1); [|reflexivity].
  cbn [flat_map]. rewrite app_nil_r, rmatch_seq, rmatch_seq, rmatch_char.
  unfold stepOver. cbn [rest].
  destruct s as [|c2 s]; [reflexivity|].
  destruct (char_eqb (asciiUpper x) (asciiUpper c2)); [|reflexivity].
  cbn [flat_map]. rewrite app_nil_r, rmatch_char. unfold stepOver. cbn [rest].
  destruct s as [|c3 s]; [reflexivity|].
  destruct (char_eqb (asciiUpper y) (asciiUpper c3)); [|reflexivity].
  cbn [flat_map]. rewrite app_nil_r. cbn [rmatch rest].
  destruct s as [|c4 s]; [now contradiction H | reflexivity].
Qed.

Lemma extension_search (x y : char) (extension stem : jsstring) :
  extension = [46%N; x; y] ->
  forall b,
    exists f,
      search (RSeq (ch 46%N) (RSeq (RSeq (chi x) (chi y)) endOfInput)) b
             (stem ++ extension) = Some f
      /\ f_pre f = stem /\ rest (f_end f) = [].
Proof.
  intros ->. induction stem as [|c t IH]; intros b.
  - cbn [app search]. unfold start, chi, endOfInput, anychar.
    rewrite rmatch_seq, rmatch_ch. cbn [rest]. change (char_eqb 46%N 46%N) with true.
    cbv iota. cbn [flat_map]. rewrite app_nil_r, rmatch_seq, rmatch_seq, rmatch_char.
    unfold stepOver. cbn [rest]. unfold char_eqb at 1. rewrite N.eqb_refl.
    cbn [flat_map]. rewrite app_nil_r, rmatch_char. unfold stepOver. cbn [rest].
    unfold char_eqb at 1. rewrite N.eqb_refl. cbn [flat_map rmatch rest app].
    eexists. split; [reflexivity|]. split; reflexivity.
  - cbn [app search]. rewrite extension_needs_three.
    2:{ cbn [length]. rewrite length_app. cbn [length]. lia. }
    destruct (IH (Some c)) as (f & Hf & Hpre & Hrest). rewrite Hf.
    eexists. split; [reflexivity|]. cbn [f_pre f_end]. split; [now rewrite Hpre | exact Hrest].
Qed.

Lemma strip_py (stem : jsstring) :
  replaceFirst TemplateLoader.pyExtension [] (stem ++ js ".py") = stem.
Proof.
  unfold replaceFirst.
  change TemplateLoader.pyExtension
    with (RSeq (ch 46%N) (RSeq (RSeq (chi 112%N) (chi 121%N)) endOfInput)).
  destruct (extension_search 112%N 121%N (js ".py") stem eq_refl None)
    as (f & Hf & Hpre & Hrest).
  rewrite Hf, Hpre, Hrest.
  cbn [app]. apply app_nil_r.
Qed.

Lemma strip_md (stem : jsstring) :
  replaceFirst TemplateLoader.mdExtension [] (stem ++ js ".md") = stem.
Proof.
  unfold replaceFirst.
  change TemplateLoader.mdExtension
    with (RSeq (ch 46%N) (RSeq (RSeq (chi 109%N) (chi 100%N)) endOfInput)).
  destruct (extension_search 109%N 100%N (js ".md") stem eq_refl None)
    as (f & Hf & Hpre & Hrest).
  rewrite Hf, Hpre, Hrest.
  cbn [app]. apply app_nil_r.
Qed.

(** *** Reading the files *)

Lemma readEach_ok {A} (fs : FileSystem) (directory : Directory)
    (build : jsstring -> jsstring -> A) (fileNames : list jsstring) :
  Forall (fun name => exists content, readFile fs directory name = Ok content) fileNames ->
  exists values,
    TemplateLoader.readEach fs directory build fileNames = Ok values
    /\ Forall2 (fun name value =>
                  exists content, readFile fs directory name = Ok content
                                  /\ value = build name content)
               fileNames values.
Proof.
  unfold TemplateLoader.readEach. induction 1 as [|name l [content Hc] _ IH].
  - exists []. split; [reflexivity | constructor].
  - destruct IH as (values & Hv & H2). cbn [map promiseAll]. rewrite Hc, Hv.
    exists (build name content :: values). split; [reflexivity|].
    constructor; [|exact H2]. now exists content.
Qed.

Lemma readEach_fail {A} (fs : FileSystem) (directory : Directory)
    (build : jsstring -> jsstring -> A) (fileNames : list jsstring) :
  Exists (fun name => exists e, readFile fs directory name = Throw e) fileNames ->
  exists e, TemplateLoader.readEach fs directory build fileNames = Throw e.
Proof.
  unfold TemplateLoader.readEach. induction 1 as [name l [e He] | name l _ [e IH]].
  - cbn [map promiseAll]. rewrite He. now exists e.
  - cbn [map promiseAll]. destruct (readFile fs directory name) as [content|e'].
    + rewrite IH. now exists e.
    + now exists e'.
Qed.

Lemma readEach_ext {A} (fs fs' : FileSystem) (directory : Directory)
    (build : jsstring -> jsstring -> A) (fileNames : list jsstring) :
  (forall name, readFile fs' directory name = readFile fs directory name) ->
  TemplateLoader.readEach fs' directory build fileNames
  = TemplateLoader.readEach fs directory build fileNames.
Proof.
  intros H. unfold TemplateLoader.readEach. f_equal. apply map_ext. intros name.
  now rewrite H.
Qed.

Lemma markdownFiles_in (entries : list Dirent) (name : jsstring) :
  In name (TemplateLoader.markdownFiles entries)
  <-> exists entry, In entry entries /\ d_name entry = name
                    /\ d_isFile entry = true /\ endsWith (js ".md") name = true.
Proof.
  unfold TemplateLoader.markdownFiles. split.
  - intros H. apply (Permutation_in _ (Permutation_sym (sort_perm _))) in H.
    apply in_map_iff in H as (entry & <- & H). apply filter_In in H as [Hin Hp].
    apply andb_true_iff in Hp as [Hf He]. now exists entry.
  - intros (entry & Hin & <- & Hf & He). apply (Permutation_in _ (sort_perm _)).
    apply in_map, filter_In. split; [exact Hin|]. now rewrite Hf, He.
Qed.

(** X12: the references come in the order of their file names, whatever
    the order of the directory listing; they are the regular files whose
    name ends in [.md], each under its name without the extension; and one
    file that cannot be read leaves no reference at all. *)
Theorem references_follow_file_names (fs : FileSystem) :
  match readdir fs BREAKDOWN_DIRECTORY with
  | Throw _ => TemplateLoader.loadBreakdownReferences fs = []
  | Ok entries =>
      let names := TemplateLoader.markdownFiles entries in
      StronglySorted str_le names
      /\ (forall name,
            In name names
            <-> exists entry, In entry entries /\ d_name entry = name
                              /\ d_isFile entry = true /\ endsWith (js ".md") name = true)
      /\ (Forall (fun name => exists content,
                    readFile fs BREAKDOWN_DIRECTORY name = Ok content) names ->
          Forall2 (fun name reference =>
                     r_id reference ++ js ".md" = name
                     /\ readFile fs BREAKDOWN_DIRECTORY name = Ok (r_content reference))
                  names (TemplateLoader.loadBreakdownReferences fs))
      /\ (Exists (fun name => exists e,
                    readFile fs BREAKDOWN_DIRECTORY name = Throw e) names ->
          TemplateLoader.loadBreakdownReferences fs = [])
      /\ (forall fs' entries',
            readdir fs' BREAKDOWN_DIRECTORY = Ok entries' ->
            Permutation entries entries' ->
            (forall name, readFile fs' BREAKDOWN_DIRECTORY name
                          = readFile fs BREAKDOWN_DIRECTORY name) ->
            TemplateLoader.loadBreakdownReferences fs'
            = TemplateLoader.loadBreakdownReferences fs)
  end.
Proof.
  unfold TemplateLoader.loadBreakdownReferences.
  destruct (readdir fs BREAKDOWN_DIRECTORY) as [entries|e] eqn:Ed; [|reflexivity].
  cbv zeta. split; [apply sort_sorted|]. split; [apply markdownFiles_in|].
  split; [|split].
  - intros Hall.
    destruct (readEach_ok fs BREAKDOWN_DIRECTORY TemplateLoader.breakdownReference _ Hall)
      as (values & -> & H2).
    assert (Hmd : Forall (fun name => endsWith (js ".md") name = true)
                         (TemplateLoader.markdownFiles entries)).
    { apply Forall_forall. intros name Hin. apply markdownFiles_in in Hin.
      now destruct Hin as (entry & _ & _ & _ & He). }
    clear Hall. induction H2 as [|name value names values (content & Hc & ->) _ IH];
      [constructor|].
    inversion Hmd as [|? ? Hname Hrest]; subst. constructor; [|now apply IH].
    destruct (endsWith_app _ _ Hname) as [stem ->].
    unfold TemplateLoader.breakdownReference. cbn [r_id r_content].
    rewrite strip_md. now split.
  - intros Hbad.
    destruct (readEach_fail fs BREAKDOWN_DIRECTORY TemplateLoader.breakdownReference _ Hbad)
      as [e ->]. reflexivity.
  - intros fs' entries' Hd' Hp Hsame. rewrite Hd'.
    rewrite (readEach_ext fs fs' BREAKDOWN_DIRECTORY _ _ Hsame).
    replace (TemplateLoader.markdownFiles entries') with (TemplateLoader.markdownFiles entries);
      [reflexivity|].
    unfold TemplateLoader.markdownFiles. apply sort_permutation.
    apply Permutation_map, filter_permutation, Hp.
Qed.

(** X13: the templates follow the directory listing, one for each name
    that ends in [.py], with the file as its code and the name without the
    extension as its id; and one file that cannot be read leaves no
    template at all. *)
Theorem glider_templates_all_or_nothing (fs : FileSystem) :
  match readdir fs GLIDER_DIRECTORY with
  | Throw _ => TemplateLoader.loadGliderTemplates fs = []
  | Ok entries =>
      let names := filter (endsWith (js ".py")) (map d_name entries) in
      (Forall (fun name => exists content,
                 readFile fs GLIDER_DIRECTORY name = Ok content) names ->
       Forall2 (fun name template =>
                  t_id template ++ js ".py" = name
                  /\ t_fileName template = Some name
                  /\ t_relativePath template = Some (js "templates/gliders/" ++ name)
                  /\ readFile fs GLIDER_DIRECTORY name = Ok (t_codeSnippet template))
               names (TemplateLoader.loadGliderTemplates fs))
      /\ (Exists (fun name => exists e,
                    readFile fs GLIDER_DIRECTORY name = Throw e) names ->
          TemplateLoader.loadGliderTemplates fs = [])
  end.
Proof.
  unfold TemplateLoader.loadGliderTemplates, TemplateLoader.pythonFiles.
  destruct (readdir fs GLIDER_DIRECTORY) as [entries|e] eqn:Ed; [|reflexivity].
  cbv zeta. split.
  - intros Hall.
    destruct (readEach_ok fs GLIDER_DIRECTORY TemplateLoader.gliderTemplate _ Hall)
      as (values & -> & H2).
    assert (Hpy : Forall (fun name => endsWith (js ".py") name = true)
                         (filter (endsWith (js ".py")) (map d_name entries))).
    { apply Forall_forall. intros name Hin. now apply filter_In in Hin. }
    clear Hall. induction H2 as [|name value names values (content & Hc & ->) _ IH];
      [constructor|].
    inversion Hpy as [|? ? Hname Hrest]; subst. constructor; [|now apply IH].
    destruct (endsWith_app _ _ Hname) as [stem ->].
    unfold TemplateLoader.gliderTemplate.
    cbn [t_id t_fileName t_relativePath t_codeSnippet].
    rewrite strip_py. auto.
  - intros Hbad.
    destruct (readEach_fail fs GLIDER_DIRECTORY TemplateLoader.gliderTemplate _ Hbad)
      as [e ->]. reflexivity.
Qed.

(** *** Docstrings *)

Lemma split_pieces (s : jsstring) :
  Forall (fun piece => forallb noComma piece = true) (split COMMA s).
Proof.
  induction s as [|c t IH]; [repeat constructor|]. cbn [split].
  destruct (char_eqb c COMMA) eqn:E.
  - constructor; [reflexivity | exact IH].
  - destruct (split COMMA t) as [|piece pieces].
    + constructor; [|constructor]. cbn [forallb]. unfold noComma. now rewrite E.
    + inversion IH as [|? ? Hp Hps]; subst. constructor; [|exact Hps].
      cbn [forallb]. unfold noComma at 1. now rewrite E.
Qed.

Lemma trim_forallb (p : char -> bool) (s : jsstring) :
  forallb p s = true -> forallb p (trim s) = true.
Proof.
  intros H. destruct (trim_split s) as (pre & post & E & _). rewrite E in H.
  rewrite !forallb_app in H. apply andb_true_iff in H as [_ H].
  now apply andb_true_iff in H as [H _].
Qed.

(** X14: the tags read from a docstring are the comma-separated pieces of
    the tag line, trimmed, the empty ones left out: no tag is empty, none
    starts or ends with white space, none holds a comma. *)
Theorem docstring_tags_clean (docstring : option jsstring) (tags : list jsstring) :
  TemplateLoader.m_tags (TemplateLoader.extractMetadataFromDocstring docstring) = Some tags ->
  Forall (fun tag => tag <> [] /\ trimmed tag /\ forallb noComma tag = true) tags.
Proof.
  unfold TemplateLoader.extractMetadataFromDocstring.
  destruct docstring as [[|c d]|]; cbn [TemplateLoader.m_tags]; try discriminate.
  destruct (matchOf TemplateLoader.tagsTag (c :: d)) as [m|]; [|discriminate].
  intros H. injection H as <-. change 44%N with COMMA.
  pose proof (split_pieces (groupText 1 m)) as Hs.
  induction Hs as [|piece pieces Hp _ IH]; [constructor|].
  cbn [map filter]. destruct (trim piece) as [|x r] eqn:E; cbn [truthy]; [exact IH|].
  constructor; [|exact IH]. rewrite <- E. split; [now rewrite E|].
  split; [apply trim_trimmed | now apply trim_forallb].
Qed.

Lemma docstring_tags_clean_witness :
  Forall (fun tag => tag <> [] /\ trimmed tag /\ forallb noComma tag = true)
         [js "dex"; js "price oracle"; js "swap"].
Proof.
  apply (docstring_tags_clean (Some (js "@tags: dex, , price oracle ,swap"))).
  reflexivity.
Defined.

Lemma tripleQuote_needs_quote (s : mstate) :
  match rest s with c :: _ => noQuote c = true | [] => True end ->
  rmatch TemplateLoader.TRIPLE_QUOTE_REGEX s = [].
Proof.
  intros H.
  change TemplateLoader.TRIPLE_QUOTE_REGEX
    with (RSeq (RSeq (ch DQUOTE) (RSeq (ch DQUOTE) (ch DQUOTE)))
               (seqs [RGroup 1 (lazystar anychar); seqs (map ch TemplateLoader.QUOTES)])).
  rewrite rmatch_seq, rmatch_seq, rmatch_ch. destruct (rest s) as [|c t]; [reflexivity|].
  unfold noQuote in H. apply negb_true_iff in H. now rewrite H.
Qed.

(** X15: a template file without a double quote has no docstring: its
    title is its file name without the extension, it has neither
    description nor tags, and its entry in the digest is the heading
    alone. *)
Theorem glider_template_without_docstring (stem content : jsstring) :
  forallb noQuote content = true ->
  let template := TemplateLoader.gliderTemplate (stem ++ js ".py") content in
  template
  = {| t_id := stem;
       t_title := stem;
       t_description := None;
       t_tags := None;
       t_codeSnippet := content;
       t_fileName := Some (stem ++ js ".py");
       t_relativePath := Some (js "templates/gliders/" ++ stem ++ js ".py") |}
  /\ templateEntry template = js "### " ++ stem.
Proof.
  intros H. cbv zeta. unfold TemplateLoader.gliderTemplate, matchOf.
  rewrite (search_none TemplateLoader.TRIPLE_QUOTE_REGEX noQuote) by
    (try exact H; intros; now apply tripleQuote_needs_quote).
  cbn [TemplateLoader.extractMetadataFromDocstring TemplateLoader.m_title TemplateLoader.m_description TemplateLoader.m_tags].
  rewrite strip_py. split; reflexivity.
Qed.

Lemma glider_template_without_docstring_witness :
  templateEntry (TemplateLoader.gliderTemplate (js "probe" ++ js ".py") (js "LIMIT = 1"))
  = js "### " ++ js "probe".
Proof.
  apply (glider_template_without_docstring (js "probe") (js "LIMIT = 1")). reflexivity.
Defined.

(** X16: a reference is titled by the heading line its first [#] opens,
    trimmed; a reference without any [#] is titled by its file name
    without the extension. *)
Theorem reference_title (stem : jsstring) :
  let titleOf content := r_title (TemplateLoader.breakdownReference (stem ++ js ".md") content) in
  (forall content, forallb noHash content = true -> titleOf content = stem)
  /\ (forall pre gap c t after,
        forallb noHash pre = true -> endsLine pre = true ->
        gap <> [] -> forallb isSpace gap = true ->
        isSpace c = false -> forallb notLineTerminator t = true ->
        atLineEnd after = true ->
        titleOf (pre ++ HASH :: gap ++ c :: t ++ after) = trim (c :: t)).
Proof.
  cbv zeta. unfold TemplateLoader.breakdownReference. cbn [r_title]. split.
  - intros content H. rewrite (titleHeading_absent content H). apply strip_md.
  - intros pre gap c t after Hpre Hline Hgap Hsp Hc Ht Hafter.
    destruct (titleHeading_found pre gap c t after Hpre Hline Hgap Hsp Hc Ht Hafter)
      as (f & Hf & Hg).
    now rewrite Hf, Hg.
Qed.

(** ** Reasoning spans *)

(** A literal under the [i] flag against a text that equals it up to case:
    it matches in one way and consumes the text. *)
Lemma liti_first (l : jsstring) :
  forall v, l <> [] -> sameFolded v l ->
  forall b u cs,
    rmatch (seqs (map chi l)) {| before := b; rest := v ++ u; caps := cs |}
    = [{| before := lastBefore b v; rest := u; caps := cs |}].
Proof.
  unfold sameFolded. induction l as [|c l IH]; intros v Hne Hv b u cs; [now contradiction Hne|].
  destruct v as [|x v]; [discriminate|]. cbn [map] in Hv. injection Hv as Hx Hv.
  assert (Hstep : rmatch (chi c) {| before := b; rest := (x :: v) ++ u; caps := cs |}
                  = [{| before := Some x; rest := v ++ u; caps := cs |}]).
  { unfold chi. rewrite rmatch_char. cbn [rest app]. unfold char_eqb.
    rewrite Hx, N.eqb_refl. reflexivity. }
  destruct l as [|c' l'].
  - destruct v; [|discriminate]. cbn [map seqs]. rewrite Hstep. reflexivity.
  - change (seqs (map chi (c :: c' :: l'))) with (RSeq (chi c) (seqs (map chi (c' :: l')))).
    rewrite rmatch_seq, Hstep. cbn [flat_map]. rewrite app_nil_r.
    rewrite (IH v ltac:(discriminate) Hv). now rewrite lastBefore_cons.
Qed.

Lemma liti_needs_first (c : char) (l : jsstring) (s : mstate) :
  match rest s with
  | x :: _ => char_eqb (asciiUpper c) (asciiUpper x) = false
  | [] => True
  end ->
  rmatch (seqs (map chi (c :: l))) s = [].
Proof.
  intros H.
  assert (Hc : rmatch (chi c) s = []).
  { unfold chi. rewrite rmatch_char. destruct (rest s); [reflexivity | now rewrite H]. }
  destruct l as [|c' l']; [exact Hc|].
  change (seqs (map chi (c :: c' :: l'))) with (RSeq (chi c) (seqs (map chi (c' :: l')))).
  now rewrite rmatch_seq, Hc.
Qed.

(** A lazy [[\s\S]*?] followed by something that can only start on a
    class of code units: over a text without any of them the star grows
    until the text is used up. *)
Lemma lazy_until (K : mstate -> list mstate) (stop : char -> bool)
    (tail : jsstring) (cs : list (nat * jsstring)) (e : mstate) :
  (forall s c t, rest s = c :: t -> stop c = false -> K s = []) ->
  (forall b, exists l, K {| before := b; rest := tail; caps := cs |} = e :: l) ->
  forall x b,
    forallb (fun c => negb (stop c)) x = true ->
    exists l,
      flat_map K (rmatch (RStar false (RChar (fun _ => true)))
                         {| before := b; rest := x ++ tail; caps := cs |})
      = e :: l.
Proof.
  intros Hstart Htail. induction x as [|c t IH]; intros b Hx.
  - cbn [app]. rewrite rmatch_star_char. cbn [rest].
    destruct (Htail b) as [l Hl]. destruct tail as [|c t].
    + cbn [flat_map]. rewrite Hl. eexists. reflexivity.
    + cbn [flat_map]. rewrite Hl. eexists. reflexivity.
  - cbn [forallb] in Hx. apply andb_true_iff in Hx as [Hc Ht]. apply negb_true_iff in Hc.
    cbn [app]. rewrite rmatch_star_char. cbn [rest flat_map].
    rewrite (Hstart {| before := b; rest := c :: t ++ tail; caps := cs |} c (t ++ tail)
               eq_refl Hc).
    cbn [app]. unfold stepOver. cbn [caps].
    apply IH. exact Ht.
Qed.

Lemma upper_less_than (x : char) :
  char_eqb (asciiUpper LESS_THAN) (asciiUpper x) = char_eqb LESS_THAN x.
Proof.
  change (asciiUpper LESS_THAN) with LESS_THAN. unfold char_eqb, asciiUpper, LESS_THAN.
  destruct ((97 <=? x) && (x <=? 122))%N eqn:E; [|reflexivity].
  apply andb_true_iff in E as [E1 E2]. apply N.leb_le in E1, E2.
  assert (H1 : (60 =? x - 32)%N = false) by (apply N.eqb_neq; lia).
  assert (H2 : (60 =? x)%N = false) by (apply N.eqb_neq; lia).
  now rewrite H1, H2.
Qed.

(** A reasoning span is matched from its opening tag to its closing tag. *)
Lemma thinkBlock_span (opening x closing after : jsstring) (b : option char) :
  sameFolded opening (js "<think>") -> sameFolded closing (js "</think>") ->
  forallb noLessThan x = true ->
  exists e l,
    rmatch Sanitize.thinkBlock (start b (opening ++ x ++ closing ++ after)) = e :: l
    /\ rest e = after.
Proof.
  intros Ho Hc Hx.
  change Sanitize.thinkBlock
    with (RSeq (seqs (map chi (js "<think>")))
               (RSeq (RStar false (RChar (fun _ => true)))
                     (seqs (map chi (js "</think>"))))).
  unfold start. rewrite rmatch_seq.
  rewrite (liti_first (js "<think>") opening ltac:(discriminate) Ho).
  cbn [flat_map]. rewrite app_nil_r, rmatch_seq.
  destruct (lazy_until (rmatch (seqs (map chi (js "</think>")))) (char_eqb LESS_THAN)
              (closing ++ after) []
              {| before := lastBefore None closing; rest := after; caps := [] |})
    with (x := x) (b := lastBefore b opening) as [l Hl].
  - intros s c t Hs Hc'. apply (liti_needs_first LESS_THAN (js "/think>")).
    rewrite Hs. now rewrite upper_less_than.
  - intros b'. rewrite (liti_first (js "</think>") closing ltac:(discriminate) Hc).
    exists []. f_equal. f_equal.
    unfold lastBefore. destruct (rev closing) eqn:E; [|reflexivity].
    destruct closing; [discriminate|]. cbn [rev] in E. destruct (rev closing); discriminate.
  - exact Hx.
  - rewrite Hl. eexists. eexists. split; reflexivity.
Qed.

Lemma replaceFrom_skip (r : regex) (replacement : jsstring) (u : jsstring) :
  forall b v,
    replaceFrom r replacement (length u) b (u ++ v)
    = replaceFrom r replacement 0 (lastBefore b u) v.
Proof.
  induction u as [|c u IH]; intros b v; [reflexivity|].
  cbn [length app replaceFrom]. rewrite IH. now rewrite lastBefore_cons.
Qed.

Lemma replaceFrom_think_copy (a : jsstring) :
  forallb noLessThan a = true ->
  forall b v,
    replaceFrom Sanitize.thinkBlock [] 0 b (a ++ v)
    = a ++ replaceFrom Sanitize.thinkBlock [] 0 (lastBefore b a) v.
Proof.
  induction a as [|c a IH]; intros H b v; [reflexivity|].
  cbn [forallb] in H. apply andb_true_iff in H as [Hc Ha]. apply negb_true_iff in Hc.
  cbn [app]. rewrite replaceFrom_nomatch by (apply thinkBlock_needs_lt; exact Hc).
  rewrite (IH Ha). now rewrite lastBefore_cons.
Qed.

(** X5: a reasoning span, its tags in any case, disappears with all it
    holds: the answer is sanitized as if the span had never been there. *)
Theorem think_span_vanishes (before0 opening x closing after : jsstring) :
  sameFolded opening (js "<think>") -> sameFolded closing (js "</think>") ->
  forallb noLessThan before0 = true -> forallb noLessThan x = true ->
  forallb noLessThan after = true ->
  sanitizeModelResponse (before0 ++ opening ++ x ++ closing ++ after)
  = sanitizeModelResponse (before0 ++ after).
Proof.
  intros Ho Hc Hb Hx Ha. unfold sanitizeModelResponse. cbv zeta. do 3 f_equal.
  unfold replaceAll.
  rewrite (replaceFrom_think_copy before0 Hb), (replaceFrom_think_copy before0 Hb).
  f_equal.
  rewrite (replaceFrom_think_id after Ha).
  destruct (thinkBlock_span opening x closing after (lastBefore None before0) Ho Hc Hx)
    as (e & l & He & Hrest).
  destruct opening as [|o opening']; [discriminate|].
  cbn [app] in He |- *.
  rewrite (replaceFrom_match _ _ _ _ _ _ _ (length (opening' ++ x ++ closing)) He).
  2:{ rewrite Hrest. cbn [length]. rewrite !length_app. lia. }
  cbn [app].
  replace (opening' ++ x ++ closing ++ after) with ((opening' ++ x ++ closing) ++ after)
    by now rewrite <- !app_assoc.
  rewrite replaceFrom_skip. apply replaceFrom_think_id, Ha.
Qed.

Lemma think_span_vanishes_witness :
  sanitizeModelResponse (js "Summary " ++ js "<Think>" ++ js "step one"
                         ++ js "</THINK>" ++ js " done")
  = sanitizeModelResponse (js "Summary " ++ js " done").
Proof.
  apply think_span_vanishes; reflexivity.
Defined.

(** ** Docstrings in the layout of the templates *)

Lemma sameSearch_refl (r : regex) (b : option char) (s : jsstring) : sameSearch r b s b s.
Proof.
  unfold sameSearch. destruct (search r b s) as [f|]; [|reflexivity]. now exists f.
Qed.

Lemma sameSearch_step (r : regex) (b : option char) (c : char) (s : jsstring)
    (b' : option char) (s' : jsstring) :
  rmatch r (start b (c :: s)) = [] ->
  sameSearch r (Some c) s b' s' -> sameSearch r b (c :: s) b' s'.
Proof.
  unfold sameSearch. intros Hno H. cbn [search]. rewrite Hno.
  destruct (search r b' s') as [f|].
  - destruct H as (f' & Hf' & He). rewrite Hf'. eexists. split; [reflexivity | exact He].
  - now rewrite H.
Qed.

Lemma sameSearch_class (r : regex) (p : char -> bool) (s : jsstring)
    (b' : option char) (s' : jsstring) :
  (forall b c t, p c = true -> rmatch r (start b (c :: t)) = []) ->
  forall pre b, forallb p pre = true ->
    sameSearch r (lastBefore b pre) s b' s' -> sameSearch r b (pre ++ s) b' s'.
Proof.
  intros Hclass. induction pre as [|c t IH]; intros b Hp H.
  - exact H.
  - cbn [forallb] in Hp. apply andb_true_iff in Hp as [Hc Ht]. cbn [app].
    apply sameSearch_step; [now apply Hclass|]. apply IH; [exact Ht|].
    rewrite (lastBefore_cons b c t) in H. exact H.
Qed.

Lemma sameSearch_found (r : regex) (b : option char) (whole : jsstring)
    (b' : option char) (s : jsstring) (e : mstate) :
  sameSearch r b whole b' s -> firstIs r (start b' s) e ->
  exists f, search r b whole = Some f /\ f_end f = e.
Proof.
  unfold sameSearch. intros H He. destruct (search_first _ _ _ _ He) as (f & Hf & Hend).
  rewrite Hf in H. destruct H as (f' & Hf' & He'). exists f'. split; [exact Hf'|].
  now rewrite He'.
Qed.

Lemma liti_mismatch (name : jsstring) :
  name <> [] ->
  forall s, foldedPrefix name (rest s) = false -> rmatch (seqs (map chi name)) s = [].
Proof.
  induction name as [|c name IH]; intros Hne s H; [now contradiction Hne|].
  destruct name as [|c' name'].
  - cbn [map seqs]. unfold chi. rewrite rmatch_char.
    destruct (rest s) as [|x t]; [reflexivity|]. cbn [foldedPrefix] in H.
    rewrite andb_true_r in H. now rewrite H.
  - change (seqs (map chi (c :: c' :: name')))
      with (RSeq (chi c) (seqs (map chi (c' :: name')))).
    rewrite rmatch_seq.
    change (rmatch (chi c) s)
      with (rmatch (RChar (fun x => char_eqb (asciiUpper c) (asciiUpper x))) s).
    rewrite rmatch_char.
    destruct (rest s) as [|x t] eqn:Hs; [reflexivity|].
    change (foldedPrefix (c :: c' :: name') (x :: t))
      with (char_eqb (asciiUpper c) (asciiUpper x) && foldedPrefix (c' :: name') t) in H.
    destruct (char_eqb (asciiUpper c) (asciiUpper x)); [|reflexivity].
    cbn [andb] in H. cbn [flat_map]. rewrite app_nil_r.
    apply IH; [discriminate | exact H].
Qed.

Lemma keyed_mismatch (name : jsstring) (k : regex) (s : mstate) :
  name <> [] -> foldedPrefix name (rest s) = false ->
  rmatch (RSeq (seqs (map chi name)) k) s = [].
Proof. intros Hne H. now rewrite rmatch_seq, (liti_mismatch name Hne s H). Qed.

Lemma upper_at (x : char) : char_eqb (asciiUpper AT) (asciiUpper x) = char_eqb AT x.
Proof.
  change (asciiUpper AT) with AT. unfold char_eqb, asciiUpper, AT.
  destruct ((97 <=? x) && (x <=? 122))%N eqn:E; [|reflexivity].
  apply andb_true_iff in E as [E1 E2]. apply N.leb_le in E1, E2.
  assert (H1 : (64 =? x - 32)%N = false) by (apply N.eqb_neq; lia).
  assert (H2 : (64 =? x)%N = false) by (apply N.eqb_neq; lia).
  now rewrite H1, H2.
Qed.

(** A pattern that starts with a literal whose first character is [@]
    cannot start elsewhere. *)
Lemma keyed_needs_at (name : jsstring) (k : regex) (b : option char) (c : char)
    (t : jsstring) :
  noAt c = true -> rmatch (RSeq (seqs (map chi (AT :: name))) k) (start b (c :: t)) = [].
Proof.
  intros H. apply keyed_mismatch; [discriminate|]. cbn [start rest foldedPrefix].
  rewrite upper_at. unfold noAt in H. apply negb_true_iff in H. now rewrite H.
Qed.

Lemma space_noAt (s : jsstring) : forallb isSpace s = true -> forallb noAt s = true.
Proof.
  induction s as [|c t IH]; [reflexivity|]. cbn [forallb]. intros H.
  apply andb_true_iff in H as [Hc Ht]. rewrite (IH Ht), andb_true_r.
  unfold noAt, char_eqb, AT. apply negb_true_iff, N.eqb_neq. intros <-. discriminate.
Qed.

(** *** A key followed by the rest of its line *)

Lemma keyed_line (name key gap : jsstring) (c : char) (t after : jsstring)
    (b : option char) :
  name <> [] -> sameFolded key name ->
  forallb isSpace gap = true -> textLine (c :: t) = true -> atLineEnd after = true ->
  exists e,
    firstIs (RSeq (seqs (map chi name))
                  (RSeq (RStar true (RChar isSpace))
                        (RGroup 1 (RSeq (RChar notLineTerminator)
                                        (RStar true (RChar notLineTerminator))))))
            (start b (key ++ gap ++ c :: t ++ after)) e
    /\ lookupCap 1 (caps e) = Some (c :: t).
Proof.
  intros Hne Hkey Hgap Hline Hafter. cbn [textLine] in Hline.
  apply andb_true_iff in Hline as [Hc Ht]. apply negb_true_iff in Hc.
  assert (Hclt : notLineTerminator c = true).
  { unfold notLineTerminator, isLineTerminator. unfold isSpace in Hc.
    apply negb_true_iff. rewrite !orb_false_iff in *. rewrite !N.eqb_neq.
    rewrite !andb_false_iff, !N.leb_gt, !N.eqb_neq in Hc. lia. }
  destruct (firstIs_star_class isSpace (lastBefore b key) (gap ++ c :: t ++ after) [])
    as [b2 H2].
  rewrite (spanClass_run isSpace gap (c :: t ++ after) Hgap Hc) in H2. cbn [snd] in H2.
  destruct (firstIs_star_class notLineTerminator (Some c) (t ++ after) []) as [b3 H3].
  assert (Hafter' : match after with x :: _ => notLineTerminator x = false | [] => True end).
  { destruct after as [|x r]; [exact I|]. unfold notLineTerminator.
    cbn [atLineEnd] in Hafter. now rewrite Hafter. }
  rewrite (spanClass_run notLineTerminator t after Ht Hafter') in H3. cbn [snd] in H3.
  set (s2 := {| before := b2; rest := c :: t ++ after; caps := [] |}).
  set (e3 := {| before := b3; rest := after; caps := [] |}).
  exists (setCap 1 s2 e3). split.
  - eapply firstIs_seq.
    { exists []. unfold start. apply (liti_first name key Hne Hkey). }
    eapply firstIs_seq; [exact H2|].
    apply firstIs_group. eapply firstIs_seq; [now apply firstIs_char | exact H3].
  - unfold setCap, s2, e3. cbn [caps rest lookupCap Nat.eqb]. f_equal.
    change (c :: t ++ after) with ((c :: t) ++ after). apply firstn_prefix.
Qed.

(** *** The description: lazy up to the next key or the end *)

Lemma star_class_results (p : char -> bool) (cs : list (nat * jsstring)) :
  forall input b e,
    In e (rmatch (RStar true (RChar p)) {| before := b; rest := input; caps := cs |}) ->
    exists sp, input = sp ++ rest e /\ forallb p sp = true.
Proof.
  induction input as [|c t IH]; intros b e H; rewrite rmatch_star_char in H; cbn [rest] in H.
  - destruct H as [<-|[]]. exists []. now split.
  - destruct (p c) eqn:Hc.
    + apply in_app_or in H as [H | [<-|[]]].
      * destruct (IH (Some c) e H) as (sp & Hsp & Hp). exists (c :: sp).
        cbn [app forallb]. rewrite Hc, Hp, <- Hsp. now split.
      * exists []. now split.
    + destruct H as [<-|[]]. exists []. now split.
Qed.

Lemma flat_map_nil {A B} (f : A -> list B) (l : list A) :
  (forall x, In x l -> f x = []) -> flat_map f l = [].
Proof.
  induction l as [|x l IH]; intros H; [reflexivity|]. cbn [flat_map].
  rewrite (H x (or_introl eq_refl)), IH; [reflexivity|]. intros y Hy. apply H. now right.
Qed.

(** After white space, a text that ends with a character that is not
    white space and holds no [@] does not lead to an [@]. *)
Lemma no_at_after_space (m : jsstring) (d : char) (tail : jsstring) :
  forallb noAt (m ++ [d]) = true -> isSpace d = false ->
  forall sp after, forallb isSpace sp = true -> (m ++ [d]) ++ tail = sp ++ after ->
                   exists y r, after = y :: r /\ noAt y = true.
Proof.
  intros Hat Hd. induction m as [|m0 m IH]; intros sp after Hsp E.
  - cbn [app forallb] in *. apply andb_true_iff in Hat as [Hat _].
    destruct sp as [|s0 sp'].
    + cbn [app] in E. exists d, tail. now split.
    + cbn [app forallb] in *. injection E as <- _.
      apply andb_true_iff in Hsp as [Hs _]. congruence.
  - cbn [app forallb] in Hat. apply andb_true_iff in Hat as [H0 Hat].
    destruct sp as [|s0 sp'].
    + cbn [app] in E. exists m0, ((m ++ [d]) ++ tail). now split.
    + cbn [app forallb] in *. injection E as _ E.
      apply andb_true_iff in Hsp as [_ Hsp]. now apply (IH Hat sp' after).
Qed.

Lemma split_last (s : jsstring) (d : char) (l : jsstring) :
  rev s = d :: l -> s = rev l ++ [d].
Proof. intros H. rewrite <- (rev_involutive s), H. reflexivity. Qed.

Lemma descriptionEnd_inside (v tail : jsstring) (b : option char)
    (cs : list (nat * jsstring)) :
  v <> [] -> forallb noAt v = true ->
  match rev v with d :: _ => isSpace d = false | [] => True end ->
  rmatch descriptionEnd {| before := b; rest := v ++ tail; caps := cs |} = [].
Proof.
  intros Hne Hat Hlast. destruct v as [|x v']; [now contradiction Hne|].
  unfold descriptionEnd, endOfInput, anychar. cbn [rmatch rest app].
  rewrite app_nil_r.
  change (rmatch (ch LF) {| before := b; rest := x :: v' ++ tail; caps := cs |})
    with (rmatch (RChar (char_eqb LF)) {| before := b; rest := x :: v' ++ tail; caps := cs |}).
  rewrite rmatch_char. cbn [rest]. destruct (char_eqb LF x) eqn:Ex; [|reflexivity].
  cbn [flat_map]. rewrite app_nil_r. unfold stepOver. cbn [caps].
  apply flat_map_nil. intros e He.
  destruct (star_class_results isSpace cs (v' ++ tail) (Some x) e He) as (sp & Hsp & Hp).
  apply N.eqb_eq in Ex. subst x.
  destruct (rev (LF :: v')) as [|d l] eqn:Er; [destruct v'; cbn in Er; [discriminate|];
    destruct (rev v' ++ [c]); discriminate|].
  pose proof (split_last _ _ _ Er) as Hv.
  destruct (rev l) as [|l0 l'] eqn:El.
  - cbn [app] in Hv. injection Hv as <- _. discriminate.
  - cbn [app] in Hv. injection Hv as _ Hv. subst v'.
    cbn [forallb] in Hat. apply andb_true_iff in Hat as [_ Hat].
    destruct (no_at_after_space l' d tail Hat Hlast sp (rest e) Hp Hsp) as (y & r & Hy & Hn).
    change (rmatch (ch AT) e) with (rmatch (RChar (char_eqb AT)) e).
    rewrite rmatch_char, Hy. unfold noAt in Hn. apply negb_true_iff in Hn. now rewrite Hn.
Qed.

Lemma descriptionEnd_at_key (indent more : jsstring) (s : mstate) :
  forallb isSpace indent = true ->
  rest s = LF :: indent ++ AT :: more ->
  exists b', firstIs descriptionEnd s {| before := b'; rest := more; caps := caps s |}.
Proof.
  intros Hin Hs. destruct s as [b0 r0 cs]. cbn [rest caps] in *. subst r0.
  destruct (firstIs_star_class isSpace (Some LF) (indent ++ AT :: more) cs) as [b2 H2].
  rewrite (spanClass_run isSpace indent (AT :: more) Hin eq_refl) in H2. cbn [snd] in H2.
  exists (Some AT). unfold descriptionEnd. apply firstIs_alt_left.
  eapply firstIs_seq; [unfold ch; now apply firstIs_char|].
  eapply firstIs_seq; [exact H2|]. unfold ch. now apply firstIs_char.
Qed.

Lemma rmatch_group (n : nat) (a : regex) (s : mstate) :
  rmatch (RGroup n a) s = map (setCap n s) (rmatch a s).
Proof. reflexivity. Qed.

(** The lazy [[\s\S]*?] of a group, followed by a pattern that fails all
    along a text: the group takes the whole text. *)
Lemma lazy_scan (K : mstate -> list mstate) (tail : jsstring)
    (cs : list (nat * jsstring)) (P : mstate -> Prop) :
  (forall b, exists e l, K {| before := b; rest := tail; caps := cs |} = e :: l /\ P e) ->
  forall x b,
    (forall u v b', x = u ++ v -> v <> [] ->
                    K {| before := b'; rest := v ++ tail; caps := cs |} = []) ->
    exists e l,
      flat_map K (rmatch (RStar false (RChar (fun _ => true)))
                         {| before := b; rest := x ++ tail; caps := cs |})
      = e :: l /\ P e.
Proof.
  intros Htail. induction x as [|c t IH]; intros b Hx.
  - cbn [app]. rewrite rmatch_star_char. cbn [rest].
    destruct (Htail b) as (e & l & Hl & HP).
    destruct tail as [|c t]; cbn [flat_map]; rewrite Hl; eexists; eexists;
      (split; [reflexivity | exact HP]).
  - cbn [app]. rewrite rmatch_star_char. cbn [rest flat_map].
    pose proof (Hx [] (c :: t) b eq_refl ltac:(discriminate)) as H0.
    cbn [app] in H0. rewrite H0. cbn [app].
    unfold stepOver. cbn [caps]. apply IH.
    intros u v b' E Hv. apply (Hx (c :: u) v b'); [now rewrite E | exact Hv].
Qed.

Lemma rev_suffix_last (u v : jsstring) :
  v <> [] ->
  match rev (u ++ v) with d :: _ => isSpace d = false | [] => True end ->
  match rev v with d :: _ => isSpace d = false | [] => True end.
Proof.
  intros Hv H. rewrite rev_app_distr in H.
  destruct (rev v) as [|d l] eqn:E; [exact I|]. exact H.
Qed.

Lemma forallb_suffix (p : char -> bool) (u v : jsstring) :
  forallb p (u ++ v) = true -> forallb p v = true.
Proof. rewrite forallb_app. intros H. now apply andb_true_iff in H as [_ H]. Qed.

(** The description group followed by its end: over a block of text
    without [@] that is followed by the next key. *)
Lemma description_group (block indent more : jsstring) (b : option char) :
  textBlock block = true -> forallb noAt block = true ->
  forallb isSpace indent = true ->
  exists e,
    firstIs (RSeq (RGroup 1 (RStar false (RChar (fun _ => true)))) descriptionEnd)
            {| before := b; rest := block ++ LF :: indent ++ AT :: more; caps := [] |} e
    /\ lookupCap 1 (caps e) = Some block.
Proof.
  intros Hblock Hat Hin.
  set (origin := {| before := b; rest := block ++ LF :: indent ++ AT :: more; caps := [] |}).
  assert (Hlast : match rev block with d :: _ => isSpace d = false | [] => True end).
  { unfold textBlock in Hblock. destruct block as [|c t]; [discriminate|].
    destruct (rev (c :: t)); [exact I|].
    apply andb_true_iff in Hblock as [_ H]. now apply negb_true_iff in H. }
  destruct (lazy_scan (fun st => rmatch descriptionEnd (setCap 1 origin st))
              (LF :: indent ++ AT :: more) []
              (fun e => lookupCap 1 (caps e) = Some block)) with (x := block) (b := b)
    as (e & l & Hl & HP).
  - intros b'.
    destruct (descriptionEnd_at_key indent more
                (setCap 1 origin {| before := b'; rest := LF :: indent ++ AT :: more;
                                    caps := [] |}) Hin eq_refl) as [b2 [l Hl]].
    eexists. eexists. split; [exact Hl|].
    unfold setCap, origin. cbn [caps rest lookupCap Nat.eqb]. f_equal. apply firstn_prefix.
  - intros u v b' E Hv. unfold setCap. cbn [before rest caps].
    apply descriptionEnd_inside; [exact Hv | |].
    + rewrite E in Hat. now apply forallb_suffix in Hat.
    + rewrite E in Hlast. now apply (rev_suffix_last u v Hv).
  - exists e. split; [|exact HP]. exists l. rewrite rmatch_seq.
    change (rmatch (RGroup 1 (RStar false (RChar (fun _ => true)))) origin)
      with (map (setCap 1 origin) (rmatch (RStar false (RChar (fun _ => true))) origin)).
    rewrite flat_map_map. exact Hl.
Qed.

Lemma textBlock_trimmed (block : jsstring) : textBlock block = true -> trim block = block.
Proof.
  unfold textBlock. destruct block as [|c t]; [discriminate|].
  destruct (rev (c :: t)) as [|d l] eqn:E; [discriminate|]. intros H.
  apply andb_true_iff in H as [Hc Hd]. apply negb_true_iff in Hc, Hd.
  pose proof (split_last _ _ _ E) as Hs. destruct (rev l) as [|x m].
  - cbn [app] in Hs. injection Hs as -> ->. unfold trim. cbn [trimStart]. rewrite Hd.
    now apply (trimEnd_snoc_keep [] d).
  - cbn [app] in Hs. injection Hs as -> ->. now apply trim_id_ends.
Qed.

Lemma textBlock_head (block : jsstring) :
  textBlock block = true ->
  match block with c :: _ => isSpace c = false | [] => True end.
Proof.
  unfold textBlock. destruct block as [|c t]; [discriminate|].
  destruct (rev (c :: t)); [discriminate|]. intros H.
  apply andb_true_iff in H as [H _]. now apply negb_true_iff.
Qed.

Lemma textBlock_stop (block tail : jsstring) :
  textBlock block = true ->
  match block ++ tail with x :: _ => isSpace x = false | [] => True end.
Proof.
  intros H. pose proof (textBlock_head block H) as Hh.
  destruct block as [|c t]; [discriminate H | exact Hh].
Qed.

Lemma extract_fields (c : char) (docstring : jsstring) :
  TemplateLoader.extractMetadataFromDocstring (Some (c :: docstring))
  = {| TemplateLoader.m_title :=
         match matchOf TemplateLoader.titleTag (c :: docstring) with
         | Some m => Some (trim (groupText 1 m))
         | None => None
         end;
       TemplateLoader.m_description :=
         match matchOf TemplateLoader.descriptionTag (c :: docstring) with
         | Some m => Some (trim (groupText 1 m))
         | None => None
         end;
       TemplateLoader.m_tags :=
         match matchOf TemplateLoader.tagsTag (c :: docstring) with
         | Some m => Some (filter truthy (map trim (split 44%N (groupText 1 m))))
         | None => None
         end |}.
Proof. reflexivity. Qed.

Section TemplateLayout.

Variables pre gap1 titleText indent2 gap2 descriptionText indent3 gap3 tagText after
  : jsstring.

Hypothesis pre_clean : forallb noAt pre = true.
Hypothesis gap1_space : forallb isSpace gap1 = true.
Hypothesis indent2_space : forallb isSpace indent2 = true.
Hypothesis gap2_space : forallb isSpace gap2 = true.
Hypothesis indent3_space : forallb isSpace indent3 = true.
Hypothesis gap3_space : forallb isSpace gap3 = true.
Hypothesis title_line : textLine titleText = true.
Hypothesis title_clean : forallb noAt titleText = true.
Hypothesis description_block : textBlock descriptionText = true.
Hypothesis description_clean : forallb noAt descriptionText = true.
Hypothesis tag_line : textLine tagText = true.
Hypothesis after_line : atLineEnd after = true.

Let docstring : jsstring :=
  templateDocstring pre gap1 titleText indent2 gap2 descriptionText indent3 gap3
                    tagText after.

(** The text between the [@] of the title key and the description key, and
    between the [@] of the description key and the tag key. *)
Let titlePart : jsstring := js "title:" ++ gap1 ++ titleText ++ [LF] ++ indent2.
Let descriptionPart : jsstring :=
  js "description:" ++ gap2 ++ descriptionText ++ [LF] ++ indent3.

Lemma titlePart_clean : forallb noAt titlePart = true.
Proof.
  unfold titlePart. rewrite !forallb_app, (space_noAt gap1 gap1_space), title_clean,
    (space_noAt indent2 indent2_space). reflexivity.
Qed.

Lemma descriptionPart_clean : forallb noAt descriptionPart = true.
Proof.
  unfold descriptionPart. rewrite !forallb_app, (space_noAt gap2 gap2_space),
    description_clean, (space_noAt indent3 indent3_space). reflexivity.
Qed.

Lemma docstring_parts :
  docstring
  = pre ++ AT :: titlePart ++ AT :: descriptionPart
    ++ js "@tags:" ++ gap3 ++ tagText ++ after.
Proof.
  unfold docstring, templateDocstring, titlePart, descriptionPart.
  change (js "@title:") with (AT :: js "title:").
  change (js "@description:") with (AT :: js "description:").
  repeat (rewrite <- app_assoc || rewrite <- app_comm_cons). reflexivity.
Qed.

Lemma layout_title :
  exists f, matchOf TemplateLoader.titleTag docstring = Some f
            /\ groupText 1 f = titleText.
Proof.
  unfold matchOf, docstring, templateDocstring.
  change TemplateLoader.titleTag
    with (RSeq (seqs (map chi (AT :: js "title:")))
            (RSeq (RStar true (RChar isSpace))
               (RGroup 1 (RSeq (RChar notLineTerminator)
                               (RStar true (RChar notLineTerminator)))))).
  set (r := RSeq (seqs (map chi (AT :: js "title:")))
              (RSeq (RStar true (RChar isSpace))
                 (RGroup 1 (RSeq (RChar notLineTerminator)
                                 (RStar true (RChar notLineTerminator)))))).
  set (following := [LF] ++ indent2 ++ js "@description:" ++ gap2 ++ descriptionText ++ [LF]
                    ++ indent3 ++ js "@tags:" ++ gap3 ++ tagText ++ after).
  destruct titleText as [|c t] eqn:Et; [discriminate title_line|].
  destruct (keyed_line (AT :: js "title:") (js "@title:") gap1 c t following
              (lastBefore None pre) ltac:(discriminate) eq_refl gap1_space title_line eq_refl)
    as (e & He & Hcap).
  assert (Hsame : sameSearch r None (pre ++ js "@title:" ++ gap1 ++ (c :: t) ++ following)
                             (lastBefore None pre)
                             (js "@title:" ++ gap1 ++ c :: t ++ following)).
  { apply (sameSearch_class r noAt _ _ _
             (fun b x u Hx => keyed_needs_at (js "title:") _ b x u Hx) pre None pre_clean).
    apply sameSearch_refl. }
  destruct (sameSearch_found _ _ _ _ _ _ Hsame He) as (f & Hf & Hend).
  exists f. split; [exact Hf|]. apply groupText_of. now rewrite Hend.
Qed.

Lemma layout_description :
  exists f, matchOf TemplateLoader.descriptionTag docstring = Some f
            /\ groupText 1 f = descriptionText.
Proof.
  unfold matchOf. rewrite docstring_parts.
  change TemplateLoader.descriptionTag
    with (RSeq (seqs (map chi (AT :: js "description:")))
            (RSeq (RStar true (RChar isSpace))
               (RSeq (RGroup 1 (RStar false (RChar (fun _ => true)))) descriptionEnd))).
  set (r := RSeq (seqs (map chi (AT :: js "description:")))
              (RSeq (RStar true (RChar isSpace))
                 (RSeq (RGroup 1 (RStar false (RChar (fun _ => true)))) descriptionEnd))).
  set (tagsPart := js "tags:" ++ gap3 ++ tagText ++ after).
  (* the match at the description key *)
  assert (Hmatch : forall b, exists e,
            firstIs r (start b (AT :: descriptionPart ++ js "@tags:" ++ gap3 ++ tagText ++ after)) e
            /\ lookupCap 1 (caps e) = Some descriptionText).
  { intros b. unfold descriptionPart.
    destruct (firstIs_star_class isSpace (lastBefore b (js "@description:"))
                (gap2 ++ descriptionText ++ LF :: indent3 ++ AT :: tagsPart) []) as [b2 H2].
    pose proof (textBlock_stop descriptionText (LF :: indent3 ++ AT :: tagsPart)
                  description_block) as Hstop.
    rewrite (spanClass_run isSpace gap2 _ gap2_space Hstop) in H2. cbn [snd] in H2.
    destruct (description_group descriptionText indent3 tagsPart b2
                description_block description_clean indent3_space) as (e & He & Hcap).
    exists e. split; [|exact Hcap]. unfold r.
    eapply firstIs_seq.
    { exists []. unfold start.
      replace (AT :: (js "description:" ++ gap2 ++ descriptionText ++ [LF] ++ indent3)
               ++ js "@tags:" ++ gap3 ++ tagText ++ after)
        with (js "@description:" ++ gap2 ++ descriptionText ++ LF :: indent3 ++ AT :: tagsPart).
      2:{ unfold tagsPart. change (js "@description:") with (AT :: js "description:").
          change (js "@tags:") with (AT :: js "tags:").
          repeat (rewrite <- app_assoc || rewrite <- app_comm_cons). reflexivity. }
      apply (liti_first (AT :: js "description:") (js "@description:")
               ltac:(discriminate) eq_refl). }
    eapply firstIs_seq; [exact H2 | exact He]. }
  destruct (Hmatch (lastBefore (Some AT) titlePart)) as (e & He & Hcap).
  assert (Hsame : sameSearch r None
            (pre ++ AT :: titlePart ++ AT :: descriptionPart
             ++ js "@tags:" ++ gap3 ++ tagText ++ after)
            (lastBefore (Some AT) titlePart)
            (AT :: descriptionPart ++ js "@tags:" ++ gap3 ++ tagText ++ after)).
  { apply (sameSearch_class r noAt _ _ _
             (fun b x u Hx => keyed_needs_at (js "description:") _ b x u Hx)
             pre None pre_clean).
    apply sameSearch_step.
    { apply keyed_mismatch; [discriminate | reflexivity]. }
    apply (sameSearch_class r noAt _ _ _
             (fun b x u Hx => keyed_needs_at (js "description:") _ b x u Hx)
             titlePart (Some AT) titlePart_clean).
    apply sameSearch_refl. }
  destruct (sameSearch_found _ _ _ _ _ _ Hsame He) as (f & Hf & Hend).
  exists f. split; [exact Hf|]. apply groupText_of. now rewrite Hend.
Qed.

Lemma layout_tags :
  exists f, matchOf TemplateLoader.tagsTag docstring = Some f
            /\ groupText 1 f = tagText.
Proof.
  unfold matchOf. rewrite docstring_parts.
  change TemplateLoader.tagsTag
    with (RSeq (seqs (map chi (AT :: js "tags:")))
            (RSeq (RStar true (RChar isSpace))
               (RGroup 1 (RSeq (RChar notLineTerminator)
                               (RStar true (RChar notLineTerminator)))))).
  set (r := RSeq (seqs (map chi (AT :: js "tags:")))
              (RSeq (RStar true (RChar isSpace))
                 (RGroup 1 (RSeq (RChar notLineTerminator)
                                 (RStar true (RChar notLineTerminator)))))).
  destruct tagText as [|c t] eqn:Et; [discriminate tag_line|].
  destruct (keyed_line (AT :: js "tags:") (js "@tags:") gap3 c t after
              (lastBefore (Some AT) descriptionPart) ltac:(discriminate) eq_refl
              gap3_space tag_line after_line)
    as (e & He & Hcap).
  assert (Hsame : sameSearch r None
            (pre ++ AT :: titlePart ++ AT :: descriptionPart
             ++ js "@tags:" ++ gap3 ++ (c :: t) ++ after)
            (lastBefore (Some AT) descriptionPart)
            (js "@tags:" ++ gap3 ++ c :: t ++ after)).
  { apply (sameSearch_class r noAt _ _ _
             (fun b x u Hx => keyed_needs_at (js "tags:") _ b x u Hx)
             pre None pre_clean).
    apply sameSearch_step.
    { apply keyed_mismatch; [discriminate | reflexivity]. }
    apply (sameSearch_class r noAt _ _ _
             (fun b x u Hx => keyed_needs_at (js "tags:") _ b x u Hx)
             titlePart (Some AT) titlePart_clean).
    apply sameSearch_step.
    { apply keyed_mismatch; [discriminate | reflexivity]. }
    apply (sameSearch_class r noAt _ _ _
             (fun b x u Hx => keyed_needs_at (js "tags:") _ b x u Hx)
             descriptionPart (Some AT) descriptionPart_clean).
    apply sameSearch_refl. }
  destruct (sameSearch_found _ _ _ _ _ _ Hsame He) as (f & Hf & Hend).
  exists f. split; [exact Hf|]. apply groupText_of. now rewrite Hend.
Qed.

Lemma layout_fields :
  TemplateLoader.extractMetadataFromDocstring (Some docstring)
  = {| TemplateLoader.m_title := Some (trim titleText);
       TemplateLoader.m_description := Some descriptionText;
       TemplateLoader.m_tags := Some (filter truthy (map trim (split COMMA tagText))) |}.
Proof.
  destruct layout_title as (f1 & H1 & G1). destruct layout_description as (f2 & H2 & G2).
  destruct layout_tags as (f3 & H3 & G3).
  destruct docstring as [|c d] eqn:Ed.
  { unfold matchOf in H1. rewrite docstring_parts in Ed.
    destruct pre; discriminate. }
  rewrite extract_fields, H1, H2, H3, G1, G2, G3.
  now rewrite (textBlock_trimmed descriptionText description_block).
Qed.

End TemplateLayout.

(** *** The docstring of a template file *)

Lemma quotes_first (b : option char) (u : jsstring) (cs : list (nat * jsstring)) :
  rmatch (seqs (map ch TemplateLoader.QUOTES))
         {| before := b; rest := TemplateLoader.QUOTES ++ u; caps := cs |}
  = [{| before := Some DQUOTE; rest := u; caps := cs |}].
Proof.
  change (seqs (map ch TemplateLoader.QUOTES))
    with (RSeq (ch DQUOTE) (RSeq (ch DQUOTE) (ch DQUOTE))).
  rewrite rmatch_seq, rmatch_ch. cbn [rest app TemplateLoader.QUOTES].
  change (char_eqb DQUOTE DQUOTE) with true. cbv iota. cbn [flat_map].
  rewrite app_nil_r, rmatch_seq, rmatch_ch. unfold stepOver. cbn [rest].
  change (char_eqb DQUOTE DQUOTE) with true. cbv iota. cbn [flat_map].
  rewrite app_nil_r, rmatch_ch. cbn [rest].
  change (char_eqb DQUOTE DQUOTE) with true. reflexivity.
Qed.

Lemma quotes_need_quote (s : mstate) :
  match rest s with c :: _ => noQuote c = true | [] => True end ->
  rmatch (seqs (map ch TemplateLoader.QUOTES)) s = [].
Proof.
  intros H.
  change (seqs (map ch TemplateLoader.QUOTES))
    with (RSeq (ch DQUOTE) (RSeq (ch DQUOTE) (ch DQUOTE))).
  rewrite rmatch_seq, rmatch_ch. destruct (rest s) as [|c t]; [reflexivity|].
  unfold noQuote in H. apply negb_true_iff in H. now rewrite H.
Qed.

Lemma tripleQuote_found (code docstring following : jsstring) :
  forallb noQuote code = true -> forallb noQuote docstring = true ->
  exists f,
    matchOf TemplateLoader.TRIPLE_QUOTE_REGEX
            (code ++ TemplateLoader.QUOTES ++ docstring ++ TemplateLoader.QUOTES ++ following)
    = Some f
    /\ groupText 1 f = docstring.
Proof.
  intros Hcode Hdoc. unfold matchOf.
  set (r := TemplateLoader.TRIPLE_QUOTE_REGEX).
  set (b := lastBefore None code).
  set (origin := {| before := Some DQUOTE;
                    rest := docstring ++ TemplateLoader.QUOTES ++ following; caps := [] |}).
  destruct (lazy_scan (fun st => rmatch (seqs (map ch TemplateLoader.QUOTES)) (setCap 1 origin st))
              (TemplateLoader.QUOTES ++ following) []
              (fun e => lookupCap 1 (caps e) = Some docstring))
    with (x := docstring) (b := Some DQUOTE) as (e & l & Hl & HP).
  - intros b'. unfold setCap. cbn [before rest caps]. rewrite quotes_first.
    eexists. eexists. split; [reflexivity|]. cbn [caps lookupCap Nat.eqb]. f_equal.
    unfold origin. cbn [rest]. apply firstn_prefix.
  - intros u v b' E Hv. apply quotes_need_quote. unfold setCap. cbn [rest].
    rewrite E in Hdoc. apply forallb_suffix in Hdoc.
    destruct v as [|y v']; [now contradiction Hv|]. cbn [app forallb] in *.
    now apply andb_true_iff in Hdoc as [Hdoc _].
  - assert (He : firstIs r (start b (TemplateLoader.QUOTES ++ docstring
                                     ++ TemplateLoader.QUOTES ++ following)) e).
    { exists l. unfold r.
      change TemplateLoader.TRIPLE_QUOTE_REGEX
        with (RSeq (seqs (map ch TemplateLoader.QUOTES))
                (RSeq (RGroup 1 (RStar false (RChar (fun _ => true))))
                      (seqs (map ch TemplateLoader.QUOTES)))).
      unfold start. rewrite rmatch_seq, quotes_first. cbn [flat_map]. rewrite app_nil_r.
      rewrite rmatch_seq, rmatch_group, flat_map_map. exact Hl. }
    assert (Hsame : sameSearch r None
              (code ++ TemplateLoader.QUOTES ++ docstring ++ TemplateLoader.QUOTES ++ following)
              b (TemplateLoader.QUOTES ++ docstring ++ TemplateLoader.QUOTES ++ following)).
    { apply (sameSearch_class r noQuote _ _ _
               (fun b0 x u Hx => tripleQuote_needs_quote (start b0 (x :: u)) Hx)
               code None Hcode).
      apply sameSearch_refl. }
    destruct (sameSearch_found _ _ _ _ _ _ Hsame He) as (f & Hf & Hend).
    exists f. split; [exact Hf|]. apply groupText_of. now rewrite Hend.
Qed.

(** X17: a docstring in the layout of the templates reads back as
    written: the title is the text of the title line, the description is
    the block under the description key up to the next key, the tags are
    the comma-separated pieces of the tag line; and so for the template
    built from a file that holds this docstring between its first two
    triple quotes. *)
Theorem template_docstring_reads_back (pre gap1 titleText indent2 gap2 descriptionText
    indent3 gap3 tagText after : jsstring) :
  forallb noAt pre = true ->
  forallb isSpace gap1 = true -> forallb isSpace indent2 = true ->
  forallb isSpace gap2 = true -> forallb isSpace indent3 = true ->
  forallb isSpace gap3 = true ->
  textLine titleText = true -> forallb noAt titleText = true ->
  textBlock descriptionText = true -> forallb noAt descriptionText = true ->
  textLine tagText = true -> atLineEnd after = true ->
  let docstring :=
    templateDocstring pre gap1 titleText indent2 gap2 descriptionText indent3 gap3
                      tagText after in
  let tags := filter truthy (map trim (split COMMA tagText)) in
  TemplateLoader.extractMetadataFromDocstring (Some docstring)
  = {| TemplateLoader.m_title := Some (trim titleText);
       TemplateLoader.m_description := Some descriptionText;
       TemplateLoader.m_tags := Some tags |}
  /\ forall stem code following,
       forallb noQuote code = true -> forallb noQuote docstring = true ->
       let template :=
         TemplateLoader.gliderTemplate (stem ++ js ".py")
           (code ++ TemplateLoader.QUOTES ++ docstring ++ TemplateLoader.QUOTES ++ following) in
       t_id template = stem
       /\ t_title template = trim titleText
       /\ t_description template = Some descriptionText
       /\ t_tags template = Some tags.
Proof.
  intros H1 H2 H3 H4 H5 H6 H7 H8 H9 H10 H11 H12. cbv zeta.
  pose proof (layout_fields pre gap1 titleText indent2 gap2 descriptionText indent3 gap3
                tagText after H1 H2 H3 H4 H5 H6 H7 H8 H9 H10 H11 H12) as Hfields.
  split; [exact Hfields|].
  intros stem code following Hcode Hdoc.
  destruct (tripleQuote_found code _ following Hcode Hdoc) as (f & Hf & Hg).
  unfold TemplateLoader.gliderTemplate. rewrite Hf, Hg, Hfields.
  cbn [t_id t_title t_description t_tags TemplateLoader.m_title
       TemplateLoader.m_description TemplateLoader.m_tags].
  rewrite strip_py. auto.
Qed.

Lemma template_docstring_reads_back_witness :
  TemplateLoader.extractMetadataFromDocstring
    (Some (templateDocstring (LF :: js "    ") (js " ") (js "Unchecked transfer")
             (js "    ") (LF :: js "      ")
             (js "Detects transfers" ++ LF :: js "      without checks.")
             (js "    ") (js " ") (js "erc20, transfer") (LF :: js "    ")))
  = {| TemplateLoader.m_title := Some (js "Unchecked transfer");
       TemplateLoader.m_description :=
         Some (js "Detects transfers" ++ LF :: js "      without checks.");
       TemplateLoader.m_tags := Some [js "erc20"; js "transfer"] |}.
Proof.
  apply (template_docstring_reads_back (LF :: js "    ") (js " ") (js "Unchecked transfer")
           (js "    ") (LF :: js "      ")
           (js "Detects transfers" ++ LF :: js "      without checks.")
           (js "    ") (js " ") (js "erc20, transfer") (LF :: js "    "));
    reflexivity.
Defined.

(** *** An empty description *)

Lemma descriptionEnd_not_here (c : char) (t : jsstring) (b : option char)
    (cs : list (nat * jsstring)) :
  isLF c = false ->
  rmatch descriptionEnd {| before := b; rest := c :: t; caps := cs |} = [].
Proof.
  intros Hc. unfold descriptionEnd, endOfInput, anychar. cbn [rmatch rest].
  rewrite app_nil_r.
  change (rmatch (ch LF) {| before := b; rest := c :: t; caps := cs |})
    with (rmatch (RChar (char_eqb LF)) {| before := b; rest := c :: t; caps := cs |}).
  rewrite rmatch_char. cbn [rest]. unfold isLF in Hc. now rewrite Hc.
Qed.

Lemma descriptionEnd_at_end (s : mstate) : rest s = [] -> firstIs descriptionEnd s s.
Proof.
  intros H. exists []. unfold descriptionEnd, endOfInput, anychar. cbn [rmatch].
  change (rmatch (ch LF) s) with (rmatch (RChar (char_eqb LF)) s).
  rewrite rmatch_char, H. reflexivity.
Qed.

(** X18: a description key with nothing after it takes the next key
    line as its text: when the key is followed by white space only and
    then by another key whose line ends the docstring, the description is
    that line. *)
Theorem empty_description_takes_next_key (pre gap line : jsstring) :
  forallb noAt pre = true -> forallb isSpace gap = true ->
  forallb (fun c => negb (isLF c)) line = true ->
  TemplateLoader.m_description
    (TemplateLoader.extractMetadataFromDocstring
       (Some (pre ++ js "@description:" ++ gap ++ AT :: line)))
  = Some (trim (AT :: line)).
Proof.
  intros Hpre Hgap Hline.
  set (r := RSeq (seqs (map chi (AT :: js "description:")))
              (RSeq (RStar true (RChar isSpace))
                 (RSeq (RGroup 1 (RStar false (RChar (fun _ => true)))) descriptionEnd))).
  assert (Hfound : exists f,
            matchOf TemplateLoader.descriptionTag
                    (pre ++ js "@description:" ++ gap ++ AT :: line) = Some f
            /\ groupText 1 f = AT :: line).
  { unfold matchOf. change TemplateLoader.descriptionTag with r.
    set (b := lastBefore None pre).
    destruct (firstIs_star_class isSpace (lastBefore b (js "@description:"))
                (gap ++ AT :: line) []) as [b2 H2].
    rewrite (spanClass_run isSpace gap (AT :: line) Hgap eq_refl) in H2. cbn [snd] in H2.
    set (origin := {| before := b2; rest := AT :: line; caps := [] |}).
    destruct (lazy_scan (fun st => rmatch descriptionEnd (setCap 1 origin st)) [] []
                (fun e => lookupCap 1 (caps e) = Some (AT :: line)))
      with (x := AT :: line) (b := b2) as (e & l & Hl & HP).
    - intros b'. destruct (descriptionEnd_at_end
                             (setCap 1 origin {| before := b'; rest := []; caps := [] |})
                             eq_refl) as [l Hl].
      eexists. eexists. split; [exact Hl|].
      unfold setCap, origin. cbn [caps rest lookupCap Nat.eqb]. f_equal.
      change (length (@nil char)) with 0%nat. rewrite Nat.sub_0_r. apply firstn_all.
    - intros u v b' E Hv. unfold setCap. cbn [before rest caps]. rewrite app_nil_r.
      destruct v as [|y v']; [now contradiction Hv|]. apply descriptionEnd_not_here.
      destruct u as [|u0 u'].
      + cbn [app] in E. injection E as <- _. reflexivity.
      + cbn [app] in E. injection E as _ E. rewrite E in Hline.
        apply forallb_suffix in Hline. cbn [forallb] in Hline.
        apply andb_true_iff in Hline as [Hy _]. now apply negb_true_iff in Hy.
    - assert (He : firstIs r (start b (js "@description:" ++ gap ++ AT :: line)) e).
      { unfold r. eapply firstIs_seq.
        { exists []. unfold start.
          apply (liti_first (AT :: js "description:") (js "@description:")
                   ltac:(discriminate) eq_refl). }
        eapply firstIs_seq; [exact H2|]. exists l.
        rewrite rmatch_seq, rmatch_group, flat_map_map.
        rewrite (app_nil_r (AT :: line)) in Hl. exact Hl. }
      assert (Hsame : sameSearch r None (pre ++ js "@description:" ++ gap ++ AT :: line)
                                 b (js "@description:" ++ gap ++ AT :: line)).
      { apply (sameSearch_class r noAt _ _ _
                 (fun b0 x u Hx => keyed_needs_at (js "description:") _ b0 x u Hx)
                 pre None Hpre).
        apply sameSearch_refl. }
      destruct (sameSearch_found _ _ _ _ _ _ Hsame He) as (f & Hf & Hend).
      exists f. split; [exact Hf|]. apply groupText_of. now rewrite Hend. }
  destruct Hfound as (f & Hf & Hg).
  destruct (pre ++ js "@description:" ++ gap ++ AT :: line) as [|c d] eqn:Ed.
  { destruct pre; discriminate. }
  rewrite extract_fields. cbn [TemplateLoader.m_description]. now rewrite Hf, Hg.
Qed.

Lemma empty_description_takes_next_key_witness :
  TemplateLoader.m_description
    (TemplateLoader.extractMetadataFromDocstring
       (Some ((js "Probe" ++ [LF]) ++ js "@description:" ++ (LF :: js "  ")
              ++ AT :: js "tags: dex, swap")))
  = Some (js "@tags: dex, swap").
Proof.
  apply (empty_description_takes_next_key (js "Probe" ++ [LF]) (LF :: js "  ")
           (js "tags: dex, swap")); reflexivity.
Defined.

(** ** Command line script *)

(** X19: a run of the script exits with 0 or 1.  Without an input path it
    reads, generates and writes nothing; an input that cannot be read
    stops it before any generation.  Otherwise it generates once and asks
    for exactly one write, of the generated document, and the exit code is
    1 only when that write fails: a failure of the model never is the
    reason. *)
Theorem cli_run (w : World) (toLowerCase : jsstring -> jsstring) (files : CliFiles)
    (inputPathArg : option jsstring) (t : Trace) :
  let run := main w toLowerCase files inputPathArg t in
  (exitCode run = 0 \/ exitCode run = 1)
  /\ (inputPathArg = None \/ inputPathArg = Some [] ->
      run = {| exitCode := 1; filesRead := []; writesAsked := []; pipelineCalls := t |})
  /\ (forall c inputPath,
        inputPathArg = Some (c :: inputPath) ->
        let resolvedInputPath := cli_resolve files (c :: inputPath) in
        filesRead run = [resolvedInputPath]
        /\ match cli_readFile files resolvedInputPath with
           | Throw _ => exitCode run = 1 /\ writesAsked run = [] /\ pipelineCalls run = t
           | Ok markdown =>
               exists document t',
                 generateFromMarkdown w toLowerCase markdown t = (Ok document, t')
                 /\ writesAsked run
                    = [(cli_resolve files (js "output.glide.py"), document)]
                 /\ pipelineCalls run = t'
                 /\ (exitCode run = 1
                     <-> exists e, cli_writeFile files
                                     (cli_resolve files (js "output.glide.py")) document
                                   = Throw e)
           end).
Proof.
  cbv zeta. split; [|split].
  - unfold main. destruct inputPathArg as [[|c p]|]; cbn [exitCode]; auto.
    destruct (cli_readFile files _) as [markdown|e]; cbn [exitCode]; auto.
    destruct (generateFromMarkdown w toLowerCase markdown t) as [[output|e] t'];
      cbn [exitCode]; auto.
    destruct (cli_writeFile files _ output); auto.
  - intros [-> | ->]; reflexivity.
  - intros c inputPath ->. unfold main.
    destruct (cli_readFile files (cli_resolve files (c :: inputPath))) as [markdown|e].
    + destruct (generateFromMarkdown_returns w toLowerCase markdown t)
        as (document & calls & Hg).
      rewrite Hg. cbn [filesRead writesAsked pipelineCalls exitCode].
      split; [reflexivity|]. exists document. eexists. split; [reflexivity|].
      split; [reflexivity|]. split; [reflexivity|].
      destruct (cli_writeFile files _ document) as [u|e].
      * split; [discriminate|]. intros [e He]. discriminate.
      * split; [intros _; now exists e | reflexivity].
    + cbn [filesRead writesAsked pipelineCalls exitCode]. auto.
Qed.
